(** * JailedThreeJS: a shallow embedding of the synchronisation engine

    The engine projects a document tree onto a retained scene graph.  This
    development embeds the parts of its sources that the specification talks
    about and proves (or refutes) the specification's statements on them:

    - [Train.js]   interpolation, [animateLerp], key-frame sequencing;
    - [utils.js]   the key-frame index, the asset cache, [fastRemove_arry];
    - [artist.js]  the CSS value parsers, [exchange_rule], [_apply_rule];
    - [cell.js]    the host ([Cell]) with its indices and [removeConvict];
    - [NoScope.js] the pointer dispatcher.

    Conventions.  A JavaScript number is an IEEE double; finite doubles are
    modelled by rationals with exact arithmetic, next to the two infinities
    and NaN (signed zeros are not distinguished).  Objects that the sources
    mutate in place live in explicit stores keyed by object identity.
    Callbacks handed to asynchronous primitives ([requestAnimationFrame],
    promise reactions) become explicit continuations that a later step of the
    model fires.  Part I holds the definitions, Part II the theorems. *)

From Stdlib Require Import QArith Qreduction Qround Ascii.
From stdpp Require Import gmap strings list sorting.

(* ===================================================================== *)
(** * Part I.  Definitions                                                *)
(* ===================================================================== *)

(** ** JavaScript values *)

Module JS.

(** Numbers: finite doubles as rationals, the infinities and NaN. *)
Inductive number :=
| Fin (q : Q)
| PosInf
| NegInf
| NaN.

Definition sgn (q : Q) : comparison := (Qnum q ?= 0)%Z.

Definition inf_of_sign (c : comparison) : number :=
  match c with Gt => PosInf | Lt => NegInf | Eq => NaN end.

Definition nneg (a : number) : number :=
  match a with
  | Fin q => Fin (Qred (- q))
  | PosInf => NegInf
  | NegInf => PosInf
  | NaN => NaN
  end.

Definition nadd (a b : number) : number :=
  match a, b with
  | NaN, _ | _, NaN => NaN
  | Fin x, Fin y => Fin (Qred (x + y))
  | PosInf, NegInf | NegInf, PosInf => NaN
  | PosInf, _ | _, PosInf => PosInf
  | NegInf, _ | _, NegInf => NegInf
  end.

Definition nsub (a b : number) : number := nadd a (nneg b).

Definition nmul (a b : number) : number :=
  match a, b with
  | NaN, _ | _, NaN => NaN
  | Fin x, Fin y => Fin (Qred (x * y))
  | Fin x, PosInf | PosInf, Fin x => inf_of_sign (sgn x)
  | Fin x, NegInf | NegInf, Fin x => inf_of_sign (CompOpp (sgn x))
  | PosInf, PosInf | NegInf, NegInf => PosInf
  | PosInf, NegInf | NegInf, PosInf => NegInf
  end.

Definition ndiv (a b : number) : number :=
  match a, b with
  | NaN, _ | _, NaN => NaN
  | Fin x, Fin y =>
      if Qeq_bool y 0 then inf_of_sign (sgn x) else Fin (Qred (x / y))
  | Fin _, (PosInf | NegInf) => Fin 0
  | PosInf, Fin y => match sgn y with Lt => NegInf | _ => PosInf end
  | NegInf, Fin y => match sgn y with Lt => PosInf | _ => NegInf end
  | (PosInf | NegInf), (PosInf | NegInf) => NaN
  end.

(** Comparison; [None] when a NaN is involved (every test is then false). *)
Definition ncompare (a b : number) : option comparison :=
  match a, b with
  | NaN, _ | _, NaN => None
  | Fin x, Fin y => Some (x ?= y)%Q
  | PosInf, PosInf | NegInf, NegInf => Some Eq
  | PosInf, _ | _, NegInf => Some Gt
  | NegInf, _ | _, PosInf => Some Lt
  end.

Definition nlt (a b : number) : bool :=
  match ncompare a b with Some Lt => true | _ => false end.
Definition ngt (a b : number) : bool :=
  match ncompare a b with Some Gt => true | _ => false end.
Definition nle (a b : number) : bool :=
  match ncompare a b with Some (Lt | Eq) => true | _ => false end.
Definition nge (a b : number) : bool :=
  match ncompare a b with Some (Gt | Eq) => true | _ => false end.

Definition zero : number := Fin 0.
Definition one : number := Fin 1.

Definition num_isFinite (n : number) : bool :=
  match n with Fin _ => true | _ => false end.
Definition num_isNaN (n : number) : bool :=
  match n with NaN => true | _ => false end.

(** Truthiness of a number: [0] and [NaN] are falsy. *)
Definition num_truthy (n : number) : bool :=
  match n with
  | Fin q => negb (Qeq_bool q 0)
  | NaN => false
  | _ => true
  end.

(** A host object (a THREE.js vector, colour, layer mask, ...): its identity,
    whether it has a [set] method, and what [toArray()] returns if it has
    that method. *)
Record hostobj := HostObj {
  ho_id : nat;
  ho_set : bool;
  ho_toArray : option (list number)
}.

(** The values that flow through the style resolver and the animator.
    Arrays are arrays of numbers, as in the sources' signatures
    ([number|Array<number>]): they come from [parseFloat] over a comma list
    or from [toArray()]. *)
Inductive value :=
| VUndefined
| VNull
| VNum (n : number)
| VStr (s : string)
| VArr (xs : list number)
| VObj (o : hostobj)
| VFun (f : nat)
| VPromise (p : nat).

(** [typeof v === 'number'] *)
Definition isNum (v : value) : bool :=
  match v with VNum _ => true | _ => false end.
(** [Array.isArray(v)] *)
Definition isArr (v : value) : bool :=
  match v with VArr _ => true | _ => false end.
(** [v && typeof v.then === 'function'] *)
Definition isThenable (v : value) : bool :=
  match v with VPromise _ => true | _ => false end.
(** [Number.isFinite(v)]: no coercion, so only a finite number passes. *)
Definition Number_isFinite (v : value) : bool :=
  match v with VNum n => num_isFinite n | _ => false end.

(** *** Strings *)

Definition lower_ascii (c : ascii) : ascii :=
  let n := nat_of_ascii c in
  if (65 <=? n)%nat && (n <=? 90)%nat then ascii_of_nat (n + 32) else c.

Definition is_upper (c : ascii) : bool :=
  let n := nat_of_ascii c in (65 <=? n)%nat && (n <=? 90)%nat.

Definition is_digit (c : ascii) : bool :=
  let n := nat_of_ascii c in (48 <=? n)%nat && (n <=? 57)%nat.

Fixpoint toLowerCase (s : string) : string :=
  match s with
  | EmptyString => EmptyString
  | String c s' => String (lower_ascii c) (toLowerCase s')
  end.

Fixpoint has_upper (s : string) : bool :=
  match s with
  | EmptyString => false
  | String c s' => is_upper c || has_upper s'
  end.

(** [/\d/.test(s)] *)
Fixpoint has_digit (s : string) : bool :=
  match s with
  | EmptyString => false
  | String c s' => is_digit c || has_digit s'
  end.

Fixpoint trimStart (s : string) : string :=
  match s with
  | String c s' => if Ascii.is_space c then trimStart s' else s
  | EmptyString => EmptyString
  end.

Definition trim (s : string) : string :=
  String.rev (trimStart (String.rev (trimStart s))).

Definition startsWith (s p : string) : bool := String.prefix p s.

Definition endsWith (s p : string) : bool :=
  String.prefix (String.rev p) (String.rev s).

(** [s.split(/\s+/).filter(Boolean)]: the maximal runs of non-blank
    characters, in order. *)
Definition split_ws (s : string) : list string := String.words s.

(** [s.split(c)] for a one-character separator. *)
Fixpoint split_go (sep : ascii) (cur : string) (s : string) : list string :=
  match s with
  | EmptyString => [String.rev cur]
  | String c s' =>
      if Ascii.eqb c sep then String.rev cur :: split_go sep EmptyString s'
      else split_go sep (String c cur) s'
  end.
Definition split (sep : ascii) (s : string) : list string :=
  split_go sep EmptyString s.

(** [s.slice(n)] *)
Fixpoint slice_from (n : nat) (s : string) : string :=
  match n, s with
  | O, _ => s
  | S n', String _ s' => slice_from n' s'
  | S _, EmptyString => EmptyString
  end.

(** The number parsers of the language.  They are the host's, not the
    repository's, so the functions below take them as an interface; a
    reference instance for plain decimal literals is [dec_builtins]. *)
Class Builtins := {
  parseFloat : string -> number;
  parseInt10 : string -> number;
  Number : string -> number
}.

End JS.

(** ** The style sheets the engine reads ([document.styleSheets]) *)

Module CSSOM.

(** A declaration block: property names with their values, in the order
    [style[i]] enumerates them. *)
Definition declarations := list (string * string).

(** [style.getPropertyValue(name)] *)
Fixpoint getPropertyValue (style : declarations) (name : string) : string :=
  match style with
  | [] => ""
  | (n, v) :: rest => if String.eqb n name then v else getPropertyValue rest name
  end.

(** One key frame of an [@keyframes] rule. *)
Record CSSKeyframeRule := KeyframeRule {
  keyText : string;
  kf_style : declarations
}.

(** An [@keyframes] rule. *)
Record CSSKeyframesRule := KeyframesRule {
  kfs_name : string;
  kfs_cssRules : list CSSKeyframeRule
}.

Inductive CSSRule :=
| StyleRule (selectorText : string) (style : declarations)
| Keyframes (r : CSSKeyframesRule)
| OtherRule (cssText : string).

(** A sheet whose [cssRules] cannot be read (cross-origin) is [None]; the
    loops over the sheets skip it. *)
Definition StyleSheet := option (list CSSRule).

Definition all_rules (sheets : list StyleSheet) : list CSSRule :=
  flat_map (fun sh => match sh with Some rs => rs | None => [] end) sheets.

End CSSOM.

(** ** utils.js *)

Module Utils.
Import JS CSSOM.

(** [fastRemove_arry(arry, item)]: overwrite the first occurrence of [item]
    with the last element, then pop. *)
Definition indexOf {A} `{EqDecision A} (arry : list A) (item : A) : option nat :=
  fst <$> list_find (fun x => x = item) arry.

Definition fastRemove_arry {A} `{EqDecision A} (arry : list A) (item : A) : list A :=
  match indexOf arry item, last arry with
  | Some index, Some final => take (length arry - 1) (<[index := final]> arry)
  | _, _ => arry
  end.

(** *** The key-frame index *)

(** [gatherKeyFrame_MAP()]: the map is cleared, then every [@keyframes] rule
    of every readable sheet is stored under its name; a later rule of the
    same name replaces an earlier one. *)
Definition gatherKeyFrame_MAP (sheets : list StyleSheet) : gmap string CSSKeyframesRule :=
  fold_left
    (fun m rule => match rule with
                   | Keyframes r => <[kfs_name r := r]> m
                   | _ => m
                   end)
    (all_rules sheets) ∅.

(** [getAnimationMap(AnimName)] *)
Definition getAnimationMap (sheets : list StyleSheet) (AnimName : string)
  : option CSSKeyframesRule :=
  if String.eqb AnimName "" then None
  else gatherKeyFrame_MAP sheets !! AnimName.

(** *** The asset cache *)

(** An entry of [assetMap]: a value, or the pending promise that
    [storeAssetValue] derived from load number [p]. *)
Inductive asset_entry :=
| Loaded (v : value)
| Loading (p : nat).

(** The module state of utils.js that the asset functions touch:
    - [assetMap]: the cache;
    - [issued]: the URLs [loadAsset] was called with, oldest first; the
      promise of the [p]-th call is promise [p];
    - [reactions]: for each unsettled load, the key whose [then]/[catch]
      reactions [storeAssetValue] attached to it. *)
Record AssetCache := mkAssetCache {
  assetMap : gmap string asset_entry;
  issued : list string;
  reactions : gmap nat string
}.

Definition entry_value (e : asset_entry) : value :=
  match e with
  | Loaded v => v
  | Loading p => VPromise p
  end.

(** [loadAsset(url)]: every branch of the extension switch returns a
    promise; which loader produces it is the black-box decoder's business. *)
Definition loadAsset (url : string) (c : AssetCache) : value * AssetCache :=
  (VPromise (length (issued c)),
   mkAssetCache (assetMap c) (issued c ++ [url]) (reactions c)).

(** [storeAssetValue(key, value)] *)
Definition storeAssetValue (key : string) (v : value) (c : AssetCache) : AssetCache :=
  match v with
  | VPromise p =>
      mkAssetCache (<[key := Loading p]> (assetMap c)) (issued c)
                   (<[p := key]> (reactions c))
  | _ => mkAssetCache (<[key := Loaded v]> (assetMap c)) (issued c) (reactions c)
  end.

(** How a load ends. *)
Inductive settlement :=
| Fulfilled (v : value)
| Rejected.

(** The reactions of [storeAssetValue] run when load [p] settles:
    [then] stores the resolved value, [catch] deletes the key. *)
Definition settle (p : nat) (how : settlement) (c : AssetCache) : AssetCache :=
  match reactions c !! p with
  | None => c
  | Some key =>
      match how with
      | Fulfilled v =>
          mkAssetCache (<[key := Loaded v]> (assetMap c)) (issued c)
                       (delete p (reactions c))
      | Rejected =>
          mkAssetCache (delete key (assetMap c)) (issued c)
                       (delete p (reactions c))
      end
  end.

(** [gatherAssetRules()]: [decls] are the (name, url) pairs that the scan of
    the custom at-rules yields, in sheet order; each one not yet cached is
    loaded. *)
Definition gatherAssetRules (decls : list (string * string)) (c : AssetCache) : AssetCache :=
  fold_left
    (fun c d =>
       match assetMap c !! d.1 with
       | Some _ => c
       | None => let '(v, c1) := loadAsset d.2 c in storeAssetValue d.1 v c1
       end)
    decls c.

(** The built-in geometries. *)
Definition builtin (n : nat) : value := VObj (HostObj n false None).

Definition seed_builtins (c : AssetCache) : AssetCache :=
  storeAssetValue "torus" (builtin 3)
   (storeAssetValue "plane" (builtin 2)
     (storeAssetValue "sphere" (builtin 1)
       (storeAssetValue "cube" (builtin 0) c))).

(** [!path] *)
Definition path_given (path : option string) : option string :=
  match path with
  | Some "" => None
  | _ => path
  end.

(** [getAsset(name, path)] *)
Definition getAsset (decls : list (string * string)) (name : string)
    (path : option string) (c : AssetCache) : value * AssetCache :=
  let c := if decide (size (assetMap c) = 0) then seed_builtins c else c in
  let c := gatherAssetRules decls c in
  match assetMap c !! name with
  | Some e => (entry_value e, c)
  | None =>
      match path_given path with
      | None => (VNull, c)
      | Some url =>
          let '(v, c1) := loadAsset url c in
          let c2 := storeAssetValue name v c1 in
          (from_option entry_value VUndefined (assetMap c2 !! name), c2)
      end
  end.

(** The loads issued for a URL list position [p] onwards. *)
Definition loads_since (c0 c : AssetCache) : list string :=
  drop (length (issued c0)) (issued c).

End Utils.

(** ** Train.js *)

Module Train.
Import JS CSSOM Utils.

(** [lerpNumber(a, b, t) = a + (b - a) * t] *)
Definition lerpNumber (a b t : number) : number :=
  nadd a (nmul (nsub b a) t).

(** [lerpArray(from, to, t, lerpMethod)]: the loop over [0 .. maxLen-1].
    [nth i l NaN] reads [l[i]]; it is only evaluated at an index that [l]
    has. *)
Definition lerpArray (from to : list number) (t : number)
    (lerpMethod : number -> number -> number -> number) : list number :=
  let maxLen := Nat.max (length from) (length to) in
  (fun i =>
     let hasFrom := (i <? length from)%nat in
     let hasTo := (i <? length to)%nat in
     if hasFrom && hasTo then lerpMethod (nth i from NaN) (nth i to NaN) t
     else if hasFrom then nth i from NaN
     else nth i to NaN) <$> seq 0 maxLen.

(** [lerpValue(from, to, t, lerpMethod)] *)
Definition lerpValue (from to : value) (t : number)
    (lerpMethod : number -> number -> number -> number) : value :=
  match from, to with
  | VNum a, VNum b => VNum (lerpMethod a b t)
  | VArr a, VArr b => VArr (lerpArray a b t lerpMethod)
  | _, _ => to
  end.

(** [isAnimatable] of [animateLerp] *)
Definition isAnimatable (v : value) : bool := isNum v || isArr v.

(** The number a value is used as once [Number.isFinite] has accepted it. *)
Definition as_number (v : value) : number :=
  match v with VNum n => n | _ => NaN end.

Section Animator.
(** What a callback does is a list of effects of some type [E], in order. *)
Context {E : Type}.
(** [_get_Equation(timingFunction)]: the easing curve a timing string names.
    No statement below depends on which curve it is. *)
Variable _get_Equation : string -> number -> number.

(** Optional callbacks: [if (onUpdate) onUpdate(v, t)]. *)
Definition call2 (cb : option (value -> number -> list E)) (v : value) (t : number) : list E :=
  match cb with Some f => f v t | None => [] end.
Definition call1 (cb : option (value -> list E)) (v : value) : list E :=
  match cb with Some f => f v | None => [] end.

(** A running animation: the closure [step] that [animateLerp] hands to
    [requestAnimationFrame]. *)
Record animation := Animation {
  an_from : value;
  an_to : value;
  an_durationMs : number;
  an_start : number;
  an_ease : number -> number;
  an_onUpdate : option (value -> number -> list E);
  an_onComplete : option (value -> list E)
}.

Definition finishInstant (to : value)
    (onUpdate : option (value -> number -> list E))
    (onComplete : option (value -> list E)) : list E :=
  call2 onUpdate to one ++ call1 onComplete to.

(** [animateLerp(from, to, durationMs, onUpdate, onComplete, timingFunction)]
    called when [performance.now()] is [now]: the effects performed before it
    returns, and the animation it scheduled, if any. *)
Definition animateLerp (now : number) (from to durationMs : value)
    (onUpdate : option (value -> number -> list E))
    (onComplete : option (value -> list E))
    (timingFunction : string) : list E * option animation :=
  if negb (isAnimatable from) || negb (isAnimatable to) then
    (finishInstant to onUpdate onComplete, None)
  else if negb (Number_isFinite durationMs) || nle (as_number durationMs) zero then
    (finishInstant to onUpdate onComplete, None)
  else
    ([], Some (Animation from to (as_number durationMs) now
                 (_get_Equation timingFunction) onUpdate onComplete)).

(** [step(now)]: one display refresh of a running animation; the boolean
    tells whether [step] asked for another frame. *)
Definition step (a : animation) (now : number) : list E * bool :=
  let t := ndiv (nsub now (an_start a)) (an_durationMs a) in
  let t := if nge t one then one else t in
  let easedT := an_ease a t in
  let value := lerpValue (an_from a) (an_to a) easedT lerpNumber in
  let updated := call2 (an_onUpdate a) value easedT in
  if nlt t one then (updated, true)
  else (updated ++ call1 (an_onComplete a) value, false).

End Animator.

(** *** Key frames *)

(** [parseKeyframeTime(keyText, totalDuration)] *)
Definition parseKeyframeTime `{Builtins} (keyText : string) (totalDuration : number) : number :=
  if String.eqb keyText "" then zero
  else
    let text := toLowerCase (trim keyText) in
    if String.eqb text "from" then zero
    else if String.eqb text "to" then totalDuration
    else if endsWith text "%" then
      let v := parseFloat text in
      if num_isFinite v then nmul (ndiv v (Fin 100)) totalDuration else zero
    else if endsWith text "ms" then
      let v := parseFloat text in
      if num_isFinite v then v else zero
    else
      let n := Number text in
      if num_isFinite n then n else zero.

(** [rules.sort((a, b) => time(a) - time(b))].  [Array.prototype.sort] is
    stable, and for a consistent comparator its result is that of the stable
    insertion sort: [x] moves behind [y] exactly when [cmp(x, y) > 0]. *)
Fixpoint insert_by {A} (cmp : A -> A -> number) (x : A) (l : list A) : list A :=
  match l with
  | [] => [x]
  | y :: l' => if ngt (cmp x y) zero then y :: insert_by cmp x l' else x :: l
  end.
Definition sort_by {A} (cmp : A -> A -> number) (l : list A) : list A :=
  foldr (insert_by cmp) [] l.

(** The [iteration.count] of an animation config. *)
Inductive iteration_count :=
| CountNumber (n : number)
| CountInfinite.

(** The animation config of a node ([object.animation]). *)
Record AnimationCfg := mkAnimationCfg {
  anim_name : string;
  anim_duration : number;
  anim_iteration : iteration_count;
  anim_timing : string
}.

(** A plain object used as a dictionary: keys in insertion order, an
    assignment to an existing key replaces its value in place.  (Keys that
    look like array indices or that name members of [Object.prototype] are
    not modelled specially.) *)
Fixpoint obj_set {V} (o : list (string * V)) (k : string) (v : V) : list (string * V) :=
  match o with
  | [] => [(k, v)]
  | (k', v') :: o' => if String.eqb k' k then (k, v) :: o' else (k', v') :: obj_set o' k v
  end.
Fixpoint obj_get {V} (o : list (string * V)) (k : string) : option V :=
  match o with
  | [] => None
  | (k', v') :: o' => if String.eqb k' k then Some v' else obj_get o' k
  end.
Definition obj_has {V} (o : list (string * V)) (k : string) : bool :=
  bool_decide (is_Some (obj_get o k)).

(** One segment of a run: its length and, per animated property, the pair
    of values [animateLerp] is called with. *)
Record segment := Segment {
  seg_ms : number;
  seg_props : list (string * (value * value))
}.

Section KeyFrames.
Context `{Builtins}.
(** [CSSValueTo3JSValue(raw, object)] for the animated object. *)
Variable CSSValueTo3JSValue : string -> value.

(** The loop that fills [fromProps] (and [toProps]) from a frame. *)
Definition collectProps (style : declarations) : list (string * value) :=
  fold_left
    (fun props d =>
       let propName := d.1 in
       if startsWith propName "--"
       then obj_set props (slice_from 2 propName)
                    (CSSValueTo3JSValue (getPropertyValue style propName))
       else props)
    style [].

(** One turn of the loop of [runOnce] over the pair [(fromRule, toRule)]:
    [None] when the turn is skipped by a [continue]. *)
Definition segment_of (duration : number) (fromRule toRule : CSSKeyframeRule)
  : option segment :=
  let t0 := parseKeyframeTime (keyText fromRule) duration in
  let t1 := parseKeyframeTime (keyText toRule) duration in
  let segmentMs := nsub t1 t0 in
  if nle segmentMs zero then None
  else
    let fromProps := collectProps (kf_style fromRule) in
    let toProps := collectProps (kf_style toRule) in
    let keys := filter (fun k => obj_has toProps k = true) (fromProps.*1) in
    match keys with
    | [] => None
    | _ =>
        Some (Segment segmentMs
                (omap (fun k => fv ← obj_get fromProps k;
                                tv ← obj_get toProps k;
                                Some (k, (fv, tv))) keys))
    end.

(** [rules[i], rules[i + 1]] for [i] from [0] to [rules.length - 2]. *)
Definition consecutive {A} (l : list A) : list (A * A) := zip l (tail l).

(** The rules as [KeyFrameAnimationLerp] orders them. *)
Definition sorted_rules (duration : number) (rules : list CSSKeyframeRule)
  : list CSSKeyframeRule :=
  sort_by (fun a b => nsub (parseKeyframeTime (keyText a) duration)
                           (parseKeyframeTime (keyText b) duration)) rules.

(** The segments that one [runOnce()] goes through, in order. *)
Definition runOnce (duration : number) (rules : list CSSKeyframeRule) : list segment :=
  omap (fun p => segment_of duration p.1 p.2) (consecutive rules).

(** How often the sequence is run; [None] is the endless loop. *)
Definition iterations (c : iteration_count) : option nat :=
  match c with
  | CountInfinite => None
  | CountNumber PosInf => None
  | CountNumber n =>
      let total := if num_truthy n then n else one in
      match total with
      | Fin q => Some (Z.to_nat (Qceiling q))
      | _ => Some 0%nat
      end
  end.

(** What a call of [KeyFrameAnimationLerp] amounts to. *)
Inductive keyframe_run :=
| NoRun
| NotFound
| Run (segments : list segment) (times : option nat).

(** [KeyFrameAnimationLerp(object, animationObj)]; [object] tells whether
    the first argument is there. *)
Definition KeyFrameAnimationLerp (sheets : list StyleSheet) (object : bool)
    (animationObj : option AnimationCfg) : keyframe_run :=
  match animationObj with
  | None => NoRun
  | Some cfg =>
      if negb object || String.eqb (anim_name cfg) ""
         || negb (num_truthy (anim_duration cfg))
      then NoRun
      else
        match getAnimationMap sheets (anim_name cfg) with
        | None => NotFound
        | Some keyFramesRule =>
            let duration := anim_duration cfg in
            let rules := sorted_rules duration (kfs_cssRules keyFramesRule) in
            Run (runOnce duration rules) (iterations (anim_iteration cfg))
        end
  end.

End KeyFrames.

(** *** How [runOnce] unfolds in time

    [await Promise.all(keys.map(...))] starts one animation per key of the
    segment and suspends the loop until each of them has called its
    [onComplete] (which is the [resolve] of its promise).  The runner below
    is that loop as a machine: [cur] is the index of the segment whose
    animations are out, [active] the keys among them that have not settled. *)

Inductive run_event :=
| Started (seg : nat) (key : string) (ms : number) (from to : value)
| Settled (seg : nat) (key : string).

Record runner := Runner {
  cur : nat;
  active : list string
}.

(** The loop resumes: the next segment's animations are all started. *)
Definition launch (segs : list segment) (i : nat) : list run_event * runner :=
  match segs !! i with
  | Some s =>
      ((fun p => Started i p.1 (seg_ms s) p.2.1 p.2.2) <$> seg_props s,
       Runner i (seg_props s).*1)
  | None => ([], Runner i [])
  end.

(** The animation of [key] calls its [onComplete]. *)
Definition complete (segs : list segment) (key : string) (r : runner)
  : list run_event * runner :=
  if bool_decide (key ∈ active r) then
    let rest := filter (fun k => k ≠ key) (active r) in
    match rest with
    | [] => let '(evs, r') := launch segs (S (cur r)) in
            (Settled (cur r) key :: evs, r')
    | _ => ([Settled (cur r) key], Runner (cur r) rest)
    end
  else ([], r).

(** The events of a run in which animations complete in the order
    [completions]. *)
Fixpoint run_from (segs : list segment) (r : runner) (completions : list string)
  : list run_event :=
  match completions with
  | [] => []
  | k :: rest =>
      let '(evs, r') := complete segs k r in
      evs ++ run_from segs r' rest
  end.

Definition run_trace (segs : list segment) (completions : list string) : list run_event :=
  let '(evs, r) := launch segs 0 in
  evs ++ run_from segs r completions.

End Train.

(** ** artist.js *)

Module Artist.
Import JS CSSOM Utils Train.

(** The transition config of a node ([object.transition]). *)
Record TransitionCfg := mkTransitionCfg {
  tr_duration : number;
  tr_timing : string
}.

(** [parts.join(' ')] *)
Definition join_sp (parts : list string) : string := String.concat " " parts.

(** [parts.findIndex(p)] *)
Definition findIndex {A} (p : A -> bool) (l : list A) : option nat :=
  fst <$> list_find (fun x => p x = true) l.

(** The duration a time token stands for. *)
Definition token_ms `{Builtins} (timeToken : string) : number :=
  if endsWith timeToken "ms" then parseFloat timeToken
  else if endsWith timeToken "s" then nmul (parseFloat timeToken) (Fin 1000)
  else parseFloat timeToken.

(** [parseAnimationCSS(value)] *)
Definition parseAnimationCSS `{Builtins} (value : string) : option AnimationCfg :=
  if String.eqb value "" then None
  else
    let lower := toLowerCase (trim value) in
    if String.eqb lower "" || String.eqb lower "none" then None
    else
      match split_ws lower with
      | [] => None
      | nameToken :: parts =>
          if String.eqb nameToken "" then None
          else
            let '(durationMs, parts) :=
              match parts with
              | timeToken :: rest =>
                  if has_digit timeToken then (token_ms timeToken, rest)
                  else (Fin 1000, parts)
              | [] => (Fin 1000, parts)
              end in
            let infIndex :=
              findIndex (fun t => String.eqb t "infinite" || String.eqb t "infinity") parts in
            let '(iterationCount, parts) :=
              match infIndex with
              | Some i => (CountInfinite, delete i parts)
              | None =>
                  match last parts with
                  | Some final =>
                      let maybeCount := parseInt10 final in
                      if num_isFinite maybeCount && ngt maybeCount zero
                      then (CountNumber maybeCount, take (length parts - 1) parts)
                      else (CountNumber one, parts)
                  | None => (CountNumber one, parts)
                  end
              end in
            let timingFun :=
              match parts with [] => "linear" | _ => join_sp parts end in
            Some (mkAnimationCfg nameToken durationMs iterationCount timingFun)
      end.

(** [parseTransitionCSS(value)] *)
Definition parseTransitionCSS `{Builtins} (value : string) : option TransitionCfg :=
  if String.eqb value "" then None
  else
    let lower := toLowerCase (trim value) in
    if String.eqb lower "" || String.eqb lower "none" then None
    else
      match split_ws lower with
      | [] => None
      | timeToken :: parts =>
          let durationMs := token_ms timeToken in
          if negb (num_isFinite durationMs) || nle durationMs zero then None
          else
            let timingFun := match parts with [] => "linear" | _ => join_sp parts end in
            Some (mkTransitionCfg durationMs timingFun)
      end.

(** [getCSSRule(selector)]: the declarations of the first style rule that
    has [selector] as one blank-separated token of one of its
    comma-separated selectors. *)
Definition selector_listed (selectorText selector : string) : bool :=
  existsb (fun sel => bool_decide (selector ∈ split_ws (trim sel)))
          (split "," selectorText).

Fixpoint first_style_rule (selector : string) (rules : list CSSRule) : option declarations :=
  match rules with
  | [] => None
  | StyleRule selectorText style :: rest =>
      if negb (String.eqb selectorText "") && selector_listed selectorText selector
      then Some style
      else first_style_rule selector rest
  | _ :: rest => first_style_rule selector rest
  end.

Definition getCSSRule (sheets : list StyleSheet) (selector : string) : option declarations :=
  first_style_rule selector (all_rules sheets).

(** A source element, as far as the painter looks at it: its identity and
    the names of the attributes it carries. *)
Record Element := mkElement {
  el_id : nat;
  el_attrs : list string
}.

(** [domEl?.hasAttribute(name)] *)
Definition hasAttribute (domEl : option Element) (name : string) : bool :=
  match domEl with
  | Some el => bool_decide (name ∈ el_attrs el)
  | None => false
  end.

(** The fields of a scene node that the painter reads and writes:
    [name], [userData.{domEl, domId, classList, extraParams,
    _animationRunning}], [transition], [animation], and bit 3 of [layers]. *)
Record Muse := mkMuse {
  m_name : string;
  m_domEl : option Element;
  m_domId : string;
  m_classList : list string;
  m_extraParams : list string;
  m_transition : option TransitionCfg;
  m_animation : option AnimationCfg;
  m_layer3 : bool;
  m_animationRunning : bool
}.

(** [getObjectClassSelectors(object)] *)
Definition getObjectClassSelectors (object : Muse) : list string :=
  match m_classList object with
  | _ :: _ => m_classList object
  | [] => if String.eqb (m_name object) "" then [] else [m_name object]
  end.

(** [hasClassPseudoRule(object, pseudo)] *)
Definition hasClassPseudoRule (sheets : list StyleSheet) (object : Muse) (pseudo : string) : bool :=
  existsb (fun cls => bool_decide (is_Some (getCSSRule sheets ("." +:+ cls +:+ pseudo))))
          (getObjectClassSelectors object).

(** The condition under which [_apply_rule] enables the picking layer. *)
Definition picking_condition (sheets : list StyleSheet) (object : Muse) : bool :=
  let domEl := m_domEl object in
  hasAttribute domEl "onclick"
  || hasAttribute domEl "onmouseover"
  || hasAttribute domEl "ondblclick"
  || hasAttribute domEl "onmousedown"
  || hasAttribute domEl "onmouseup"
  || hasAttribute domEl "oncontextmenu"
  || hasClassPseudoRule sheets object ":hover"
  || hasClassPseudoRule sheets object ":focus"
  || (negb (String.eqb (m_domId object) "")
      && bool_decide (is_Some (getCSSRule sheets ("#" +:+ m_domId object +:+ ":focus"))))
  || (negb (String.eqb (m_domId object) "")
      && bool_decide (is_Some (getCSSRule sheets ("#" +:+ m_domId object +:+ ":hover")))).

(** [exchange_rule(parent, key, value)], given what [parent[key]] holds:
    what the call does to the slot. *)
Inductive slot_action :=
| CallSet (target : hostobj) (args : list value)
| CallFunction (f : nat) (args : list value)
| AssignField (v : value).

Definition exchange_rule (target : value) (v : value) : slot_action :=
  let args := match v with VArr xs => VNum <$> xs | _ => [v] end in
  match target with
  | VObj o => if ho_set o then CallSet o args else AssignField v
  | VFun f => CallFunction f args
  | _ => AssignField v
  end.

(** What painting a declaration does, as the painter's own calls:
    [Exchange slot v] is [exchange_rule(parent, key, v)] for the slot that the
    dash path [slot] leads to; [TransitionFinished sel] is the dispatch of the
    ['TransitionFinished'] event with [detail.selector = sel]. *)
Inductive paint_effect :=
| Exchange (slot : string) (v : value)
| TransitionFinished (selector : option string).

(** What became of one declaration of a rule. *)
Inductive declared :=
| Assigned (slot : string) (effects : list paint_effect)
           (running : option (animation (E := paint_effect)))
| Awaited (slot : string) (p : nat).

Section Paint.
Context `{Builtins}.
Variable _get_Equation : string -> number -> number.
(** [getAsset(name)], and the value that the ['#'] branch of
    [CSSValueTo3JSValue] computes for a reference. *)
Variable resolve_asset : string -> value.
Variable resolve_ref : string -> value.
(** What [parent[key]] holds for the slot of a dash path, and the clock. *)
Variable slot_value : string -> value.
Variable now : number.

Definition is_quote (c : ascii) : bool :=
  Ascii.eqb c (ascii_of_nat 39) || Ascii.eqb c (ascii_of_nat 34).

(** [value.replace(/^['"]|['"]$/g, '')] *)
Definition strip_quotes (s : string) : string :=
  let drop1 (s : string) :=
    match s with
    | String c s' => if is_quote c then s' else s
    | EmptyString => s
    end in
  String.rev (drop1 (String.rev (drop1 s))).

(** [/^\(.+\)$/.test(value)] *)
Definition paren_list (s : string) : bool :=
  startsWith s "(" && endsWith s ")" && (3 <=? String.length s)%nat.

(** [value.slice(1, -1)] *)
Definition inner (s : string) : string :=
  String.rev (slice_from 1 (String.rev (slice_from 1 s))).

(** [CSSValueTo3JSValue(value, object)] *)
Definition CSSValueTo3JSValue (value : string) : JS.value :=
  let parsed :=
    if paren_list value then
      VArr ((fun v => parseFloat (trim v)) <$> split "," (inner value))
    else if negb (num_isNaN (parseFloat value)) then VNum (parseFloat value)
    else VStr (strip_quotes value) in
  match parsed with
  | VStr (String "@" p) => resolve_asset p
  | VStr (String "#" _ as ref) => resolve_ref ref
  | _ => parsed
  end.

(** [assignValue(resolvedValue)], the closure of [_apply_rule] for the slot
    of one declaration, run while the node's transition is [transition]. *)
Definition assignValue (transition : option TransitionCfg) (_chosenOne : option string)
    (slot : string) (resolvedValue : value)
  : list paint_effect * option (animation (E := paint_effect)) :=
  match resolvedValue with
  | VUndefined => ([], None)
  | _ =>
      let currentRaw := slot_value slot in
      let currentValue :=
        match currentRaw with
        | VObj o => match ho_toArray o with Some xs => VArr xs | None => currentRaw end
        | _ => currentRaw
        end in
      let duration := match transition with Some t => tr_duration t | None => zero end in
      let timingFn := match transition with Some t => tr_timing t | None => "linear" end in
      let isAnimatable :=
        bool_decide (is_Some transition)
        && ngt duration zero
        && (isNum currentValue || isArr currentValue)
        && (isNum resolvedValue || isArr resolvedValue) in
      if isAnimatable then
        animateLerp _get_Equation now currentValue resolvedValue (VNum duration)
          (Some (fun v _ => [Exchange slot v]))
          (Some (fun _ => [TransitionFinished _chosenOne]))
          timingFn
      else ([Exchange slot resolvedValue], None)
  end.

(** One turn of the loop of [_apply_rule] over the declarations. *)
Definition apply_declaration (style : declarations) (_chosenOne : option string)
    (acc : Muse * list declared) (rawProp : string) : Muse * list declared :=
  let '(object, done) := acc in
  let value := trim (getPropertyValue style rawProp) in
  if negb (startsWith rawProp "--") then acc
  else if String.eqb rawProp "--transition" then
    (mkMuse (m_name object) (m_domEl object) (m_domId object) (m_classList object)
            (m_extraParams object) (parseTransitionCSS value) (m_animation object)
            (m_layer3 object) (m_animationRunning object), done)
  else if String.eqb rawProp "--animation" then
    (mkMuse (m_name object) (m_domEl object) (m_domId object) (m_classList object)
            (m_extraParams object) (m_transition object) (parseAnimationCSS value)
            (m_layer3 object) (m_animationRunning object), done)
  else
    let prop := slice_from 2 rawProp in
    let parsed := CSSValueTo3JSValue value in
    match parsed with
    | VPromise p => (object, done ++ [Awaited prop p])
    | _ =>
        let '(effects, running) :=
          assignValue (m_transition object) _chosenOne prop parsed in
        (object, done ++ [Assigned prop effects running])
    end.

(** [_apply_rule(rule, object, _chosenOne)]: the node afterwards, what became
    of each painted declaration, and whether a key-frame run was started. *)
Definition _apply_rule (sheets : list StyleSheet) (rule : option declarations)
    (object : Muse) (_chosenOne : option string) : Muse * list declared * bool :=
  match rule with
  | None => (object, [], false)
  | Some style =>
      let object :=
        mkMuse (m_name object) (m_domEl object) (m_domId object) (m_classList object)
               (m_extraParams object) (m_transition object) (m_animation object)
               (picking_condition sheets object) (m_animationRunning object) in
      let '(object, done) :=
        fold_left (apply_declaration style _chosenOne) (style.*1) (object, []) in
      match m_animation object with
      | Some _ =>
          if m_animationRunning object then (object, done, false)
          else
            (mkMuse (m_name object) (m_domEl object) (m_domId object)
                    (m_classList object) (m_extraParams object) (m_transition object)
                    (m_animation object) (m_layer3 object) true, done, true)
      | None => (object, done, false)
      end
  end.

End Paint.

End Artist.

(** ** cell.js *)

Module CellJS.
Import JS Utils.

(** Scene nodes and source elements are named by natural numbers.  Of a scene
    node the host reads [children], [parent] and [userData.domEl]. *)
Record Object3D := mkObject3D {
  children : list nat;
  parent : option nat;
  domEl : option nat
}.

(** A host with the state that scanning and removal touch:
    - [objects]: the scene nodes, by identity (the scene itself is one);
    - [classyConvicts], [namedConvicts], [constantConvicts]: the indices;
    - [_allConvictsByDom]: the element-to-node map;
    - [document]: the document tree, as the parent of each element that has
      one;
    - [purged]: a history variable, the nodes in the order in which
      [removeConvict] took them out of the indices. *)
Record Cell := mkCell {
  objects : gmap nat Object3D;
  classyConvicts : list nat;
  namedConvicts : list nat;
  constantConvicts : list nat;
  _allConvictsByDom : gmap nat nat;
  document : gmap nat nat;
  purged : list nat
}.

(** [l.splice(l.indexOf(x), 1)] when [x] is in [l]. *)
Fixpoint remove_first (x : nat) (l : list nat) : list nat :=
  match l with
  | [] => []
  | y :: l' => if decide (y = x) then l' else y :: remove_first x l'
  end.

(** [parent.remove(object)] of the graphics library: if [object] is among
    the children of [parent], it is spliced out and its [parent] becomes
    [null]; otherwise nothing happens. *)
Definition Object3D_remove (p o : nat) (objs : gmap nat Object3D) : gmap nat Object3D :=
  match objs !! p with
  | Some po =>
      if decide (o ∈ children po) then
        let objs := <[p := mkObject3D (remove_first o (children po)) (parent po) (domEl po)]> objs in
        match objs !! o with
        | Some oo => <[o := mkObject3D (children oo) None (domEl oo)]> objs
        | None => objs
        end
      else objs
  | None => objs
  end.

(** [list.forEach(f)] for an [f] that may fail to yield a state. *)
Fixpoint forEach {A S} (f : A -> S -> option S) (l : list A) (s : S) : option S :=
  match l with
  | [] => Some s
  | x :: l' => s' ← f x s; forEach f l' s'
  end.

(** [removeConvict(convict)].  [fuel] bounds the depth of the recursion; the
    result is [None] when it runs out, or when a node that is referred to
    does not exist. *)
Fixpoint removeConvict (fuel : nat) (convict : option nat) (c : Cell) : option Cell :=
  match convict with
  | None => Some c
  | Some o =>
      match fuel with
      | O => None
      | S fuel' =>
          ob ← objects c !! o;
          c ← forEach
                (fun child c =>
                   cob ← objects c !! child;
                   match domEl cob with
                   | Some domNode => removeConvict fuel' (_allConvictsByDom c !! domNode) c
                   | None => removeConvict fuel' (Some child) c
                   end)
                (children ob) c;
          let c := mkCell (objects c)
                     (fastRemove_arry (classyConvicts c) o)
                     (fastRemove_arry (namedConvicts c) o)
                     (fastRemove_arry (constantConvicts c) o)
                     (_allConvictsByDom c) (document c) (purged c ++ [o]) in
          ob ← objects c !! o;
          let c :=
            match domEl ob with
            | Some el =>
                mkCell (objects c) (classyConvicts c) (namedConvicts c)
                  (constantConvicts c) (delete el (_allConvictsByDom c))
                  (delete el (document c)) (purged c)
            | None => c
            end in
          let c :=
            match parent ob with
            | Some p =>
                mkCell (Object3D_remove p o (objects c)) (classyConvicts c)
                  (namedConvicts c) (constantConvicts c) (_allConvictsByDom c)
                  (document c) (purged c)
            | None => c
            end in
          Some c
      end
  end.

(** The mutation observer's reaction to a removed element [node]:
    [this.removeConvict(this._allConvictsByDom.get(node))]. *)
Definition on_removed (fuel : nat) (node : nat) (c : Cell) : option Cell :=
  removeConvict fuel (_allConvictsByDom c !! node) c.

(** The children of a node, and its source element, in a host. *)
Definition kids (c : Cell) (o : nat) : list nat :=
  from_option children [] (objects c !! o).
Definition element_of (c : Cell) (o : nat) : option nat :=
  objects c !! o ≫= domEl.

(** The node [o] and the nodes below it, down to depth [n], parents first;
    and the same nodes, children first. *)
Fixpoint subtree (n : nat) (c : Cell) (o : nat) : list nat :=
  match n with
  | O => []
  | S n' => o :: flat_map (subtree n' c) (kids c o)
  end.
Fixpoint post_order (n : nat) (c : Cell) (o : nat) : list nat :=
  match n with
  | O => []
  | S n' => flat_map (post_order n' c) (kids c o) ++ [o]
  end.

(** The scene graph below [o] is well formed to depth [n]: every node
    exists, is listed once among the children of its parent, points back to
    that parent, and the element-to-node map sends its element to it. *)
Fixpoint well_formed (n : nat) (c : Cell) (par : option nat) (o : nat) : Prop :=
  match n with
  | O => False
  | S n' =>
      ∃ ob, objects c !! o = Some ob
            ∧ parent ob = par
            ∧ (∀ el, domEl ob = Some el → _allConvictsByDom c !! el = Some o)
            ∧ Forall (well_formed n' c (Some o)) (children ob)
  end.

(** The host invariants that [ScanElement] maintains on the indices: no
    node is listed twice, and the element-to-node map only holds pairs of an
    element and the node whose [userData.domEl] it is. *)
Record indices_ok (c : Cell) : Prop := {
  classy_nodup : NoDup (classyConvicts c);
  named_nodup : NoDup (namedConvicts c);
  constant_nodup : NoDup (constantConvicts c);
  byDom_back : ∀ el o, _allConvictsByDom c !! el = Some o → element_of c o = Some el
}.

End CellJS.

(** ** NoScope.js *)

Module NoScope.
Import JS Utils.

Definition point := (Q * Q * Q)%type.

(** The host state the pointer handlers touch: whether there is a focused
    camera, [_last_cast_caught], [_lastHitPosition], and the
    [userData.extraParams] of each node. *)
Record Picker := mkPicker {
  focusedCamera : bool;
  _last_cast_caught : option nat;
  _lastHitPosition : option point;
  extraParams : gmap nat (list string)
}.

Definition flags_of (c : Picker) (o : nat) : list string :=
  default [] (extraParams c !! o).

(** [addFlag(arr, flag)], [delFlag(arr, flag)] *)
Definition addFlag (arr : list string) (flag : string) : list string :=
  if bool_decide (flag ∈ arr) then arr else arr ++ [flag].
Definition delFlag (arr : list string) (flag : string) : list string :=
  fastRemove_arry arr flag.

Definition set_flags (c : Picker) (o : nat) (f : list string) : Picker :=
  mkPicker (focusedCamera c) (_last_cast_caught c) (_lastHitPosition c)
           (<[o := f]> (extraParams c)).

(** What a handler does that is visible outside the picker state: the call
    of a source element's handler property with a synthetic event, and the
    repaints.  A handler property that is not set is skipped by [?.call]. *)
Inductive emitted :=
| HandlerCall (handler : string) (type : string) (target3d : nat)
              (pointerPosition : option point)
| PaintSpecificMuse (o : nat)
| PaintExtraCell.

(** [default_onCellPointerMove_method(domEvt, cell)], where [hitResult] is
    [raycaster.intersectObjects(cell.loadedScene.children, true)[0]]. *)
Definition default_onCellPointerMove_method (hitResult : option (nat * point))
    (cell : Picker) : list emitted * Picker :=
  if negb (focusedCamera cell) then ([], cell)
  else
    let lastHit := _last_cast_caught cell in
    match hitResult with
    | Some (hitObject, hitPoint) =>
        let '(evs1, cell) :=
          if bool_decide (Some hitObject ≠ lastHit) then
            let '(evs0, cell) :=
              match lastHit with
              | Some lastHit =>
                  let cell := set_flags cell lastHit (delFlag (flags_of cell lastHit) ":hover") in
                  ([HandlerCall "onmouseleave" "cellmouseleave" lastHit (_lastHitPosition cell);
                    PaintSpecificMuse lastHit], cell)
              | None => ([], cell)
              end in
            let cell := mkPicker (focusedCamera cell) (Some hitObject)
                                 (_lastHitPosition cell) (extraParams cell) in
            (evs0 ++ [HandlerCall "onmouseenter" "cellmouseenter" hitObject (Some hitPoint)],
             cell)
          else ([], cell) in
        let cell := set_flags cell hitObject (addFlag (flags_of cell hitObject) ":hover") in
        let cell := mkPicker (focusedCamera cell) (_last_cast_caught cell)
                             (Some hitPoint) (extraParams cell) in
        (evs1 ++ [HandlerCall "onmouseover" "cellhover" hitObject (Some hitPoint);
                  PaintExtraCell], cell)
    | None =>
        match lastHit with
        | Some lastHit =>
            let cell := set_flags cell lastHit (delFlag (flags_of cell lastHit) ":hover") in
            ([HandlerCall "onmouseleave" "cellmouseleave" lastHit (_lastHitPosition cell);
              PaintSpecificMuse lastHit],
             mkPicker (focusedCamera cell) None (_lastHitPosition cell) (extraParams cell))
        | None => ([], cell)
        end
    end.

(** The handler calls among what was emitted. *)
Definition handler_calls (evs : list emitted) : list (string * nat) :=
  omap (fun e => match e with
                 | HandlerCall h _ o _ => Some (h, o)
                 | _ => None
                 end) evs.

(** Modelled from the spec: the ray caster is the graphics library's; the
    repository only configures it with [raycaster.layers.set(3)].  Of the
    objects the ray meets ([ray_meets o] is the distance of the meeting
    point), the caster returns those whose layer mask has bit 3, nearest
    first. *)
Fixpoint insert_near (x : nat * Q) (l : list (nat * Q)) : list (nat * Q) :=
  match l with
  | [] => [x]
  | y :: l' => if Qle_bool (snd x) (snd y) then x :: l else y :: insert_near x l'
  end.

Definition intersectObjects (layer3 : nat -> bool) (ray_meets : nat -> option Q)
    (scene : list nat) : list (nat * Q) :=
  foldr insert_near []
    (omap (fun o => if layer3 o then (fun d => (o, d)) <$> ray_meets o else None) scene).

End NoScope.

(** ** A reference instance of the number parsers

    Plain decimal literals (sign, digits, fraction), enough to run the
    definitions above on concrete style sheets.  Exponents, [Infinity] and
    the radix prefixes are left out. *)

Module Reference.
Import JS.

Definition digit_of (c : ascii) : option Z :=
  if is_digit c then Some (Z.of_nat (nat_of_ascii c - 48)) else None.

(** A run of digits: its value, its length and what follows it. *)
Fixpoint read_digits (acc : Z) (n : nat) (s : string) : Z * nat * string :=
  match s with
  | String c s' =>
      match digit_of c with
      | Some d => read_digits (acc * 10 + d) (S n) s'
      | None => (acc, n, s)
      end
  | EmptyString => (acc, n, s)
  end.

Definition read_sign (s : string) : bool * string :=
  match s with
  | String "-" s' => (true, s')
  | String "+" s' => (false, s')
  | _ => (false, s)
  end.

(** The longest decimal literal that [s] starts with, and the rest. *)
Definition read_decimal (s : string) : option (Q * string) :=
  let '(neg, s0) := read_sign s in
  let '(ip, n1, s1) := read_digits 0 0 s0 in
  let '(fp, n2, s2) :=
    match s1 with
    | String "." s' => read_digits 0 0 s'
    | _ => (0%Z, 0%nat, s1)
    end in
  if (n1 + n2 =? 0)%nat then None
  else
    let den := Z.to_pos (10 ^ Z.of_nat n2) in
    let q := Qred (Qmake (ip * Zpos den + fp) den) in
    Some (if neg then Qred (- q) else q, s2).

#[export] Instance dec_builtins : Builtins := {|
  parseFloat s :=
    match read_decimal (trimStart s) with
    | Some (q, _) => Fin q
    | None => NaN
    end;
  parseInt10 s :=
    let '(neg, s0) := read_sign (trimStart s) in
    let '(ip, n1, _) := read_digits 0 0 s0 in
    if (n1 =? 0)%nat then NaN
    else Fin (inject_Z (if neg then - ip else ip));
  Number s :=
    let t := trim s in
    if String.eqb t "" then Fin 0
    else match read_decimal t with
         | Some (q, "") => Fin q
         | _ => NaN
         end
|}.

End Reference.

(** ** NoScope.js: the button handlers, and the listeners of cell.js *)

Module Buttons.
Import JS Utils NoScope.

(** [default_onCellClick_method(domEvt, cell)] *)
Definition default_onCellClick_method (cell : Picker) : list emitted * Picker :=
  match _last_cast_caught cell with
  | None => ([], cell)
  | Some hit =>
      let cell := set_flags cell hit (addFlag (flags_of cell hit) ":focus") in
      ([HandlerCall "onclick" "cellclick" hit (_lastHitPosition cell); PaintExtraCell], cell)
  end.

(** [default_onCellMouseDown_method(domEvt, cell)] *)
Definition default_onCellMouseDown_method (cell : Picker) : list emitted * Picker :=
  match _last_cast_caught cell with
  | None => ([], cell)
  | Some hit =>
      let cell := set_flags cell hit (addFlag (flags_of cell hit) ":active") in
      ([HandlerCall "onmousedown" "celldown" hit (_lastHitPosition cell); PaintExtraCell], cell)
  end.

(** [default_onCellMouseUp_method(domEvt, cell)] *)
Definition default_onCellMouseUp_method (cell : Picker) : list emitted * Picker :=
  match _last_cast_caught cell with
  | None => ([], cell)
  | Some hit =>
      let cell := set_flags cell hit (delFlag (flags_of cell hit) ":active") in
      ([HandlerCall "onmouseup" "cellup" hit (_lastHitPosition cell); PaintExtraCell], cell)
  end.

(** [default_onCellDoubleClick_method(domEvt, cell)] *)
Definition default_onCellDoubleClick_method (cell : Picker) : list emitted * Picker :=
  match _last_cast_caught cell with
  | None => ([], cell)
  | Some hit =>
      let cell := set_flags cell hit (addFlag (flags_of cell hit) ":focus") in
      ([HandlerCall "ondblclick" "celldblclick" hit (_lastHitPosition cell); PaintExtraCell],
       cell)
  end.

(** [default_onCellContextMenu_method(domEvt, cell)] *)
Definition default_onCellContextMenu_method (cell : Picker) : list emitted * Picker :=
  match _last_cast_caught cell with
  | None => ([], cell)
  | Some hit =>
      ([HandlerCall "oncontextmenu" "cellcontextmenu" hit (_lastHitPosition cell);
        PaintExtraCell], cell)
  end.

(** The events that the constructor of [Cell] listens to on the cell
    element, each with the handler it binds; a pointer move comes with what
    the ray caster returns for it. *)
Inductive pointer_event :=
| MouseMove (hitResult : option (nat * point))
| Click
| MouseDown
| MouseUp
| DblClick
| ContextMenu.

Definition listener (ev : pointer_event) (cell : Picker) : list emitted * Picker :=
  match ev with
  | MouseMove hitResult => default_onCellPointerMove_method hitResult cell
  | Click => default_onCellClick_method cell
  | MouseDown => default_onCellMouseDown_method cell
  | MouseUp => default_onCellMouseUp_method cell
  | DblClick => default_onCellDoubleClick_method cell
  | ContextMenu => default_onCellContextMenu_method cell
  end.

(** A sequence of events, handled one after the other. *)
Fixpoint listen (evs : list pointer_event) (cell : Picker) : list emitted * Picker :=
  match evs with
  | [] => ([], cell)
  | ev :: evs' =>
      let '(out, cell) := listener ev cell in
      let '(out', cell) := listen evs' cell in
      (out ++ out', cell)
  end.

End Buttons.

(** ** artist.js: the painters *)

Module Painters.
Import JS CSSOM Utils Train Artist CellJS.

(** What a call of [_apply_rule] finds outside the node and the style
    sheets: the assets and cross-node references that values resolve to,
    what the slots of the node hold, and the clock. *)
Record surroundings := Surroundings {
  su_asset : string -> value;
  su_ref : string -> value;
  su_slot : string -> value;
  su_now : number
}.

(** One call of [_apply_rule] that went past its guard: the declarations of
    the rule, the selector passed as [_chosenOne], what became of each
    declaration, and whether a key-frame run was started. *)
Record applied := Applied {
  ap_style : declarations;
  ap_chosen : option string;
  ap_declared : list declared;
  ap_started : bool
}.

Section Painters.
Context `{Builtins}.
Variable _get_Equation : string -> number -> number.
Variable sheets : list StyleSheet.
(** The surroundings that the [k]-th call of [_apply_rule] finds, counted
    from the start of the outermost painter. *)
Variable around : nat -> surroundings.
(** [domEl.style]: the inline declarations of a source element. *)
Variable inline : Element -> declarations.

(** [if (rule) _apply_rule(rule, object, _chosenOne)], on the node and the
    record of the calls made on it so far; [k0] calls were made before on
    other nodes. *)
Definition apply_if_found (k0 : nat) (rule : option declarations)
    (_chosenOne : option string) (st : Muse * list applied) : Muse * list applied :=
  match rule with
  | None => st
  | Some style =>
      let su := around (k0 + length st.2) in
      let '(object, done, started) :=
        _apply_rule _get_Equation (su_asset su) (su_ref su) (su_slot su) (su_now su)
                    sheets (Some style) st.1 _chosenOne in
      (object, st.2 ++ [Applied style _chosenOne done started])
  end.

(** [paintSpecificMuse(muse)] *)
Definition paintSpecificMuse (k0 : nat) (st : Muse * list applied) : Muse * list applied :=
  let extra := m_extraParams st.1 in
  let st :=
    foldl (fun st cls => apply_if_found k0 (getCSSRule sheets ("." +:+ cls)) None st)
          st (getObjectClassSelectors st.1) in
  let st :=
    if String.eqb (m_domId st.1) "" then st
    else apply_if_found k0 (getCSSRule sheets ("#" +:+ m_domId st.1)) None st in
  let st :=
    foldl (fun st param =>
             foldl (fun st cls =>
                      apply_if_found k0 (getCSSRule sheets ("." +:+ cls +:+ param)) None st)
                   st (getObjectClassSelectors st.1))
          st extra in
  let st :=
    if String.eqb (m_domId st.1) "" then st
    else
      foldl (fun st param =>
               apply_if_found k0 (getCSSRule sheets ("#" +:+ m_domId st.1 +:+ param)) None st)
            st extra in
  if hasAttribute (m_domEl st.1) "style" then
    match m_domEl st.1 with
    | Some el => apply_if_found k0 (Some (inline el)) None st
    | None => st
    end
  else st.

(** [paintConstantMuse(muse)] *)
Definition paintConstantMuse (k0 : nat) (st : Muse * list applied) : Muse * list applied :=
  let st :=
    foldl (fun st cls => apply_if_found k0 (getCSSRule sheets ("." +:+ cls +:+ ":active")) None st)
          st (getObjectClassSelectors st.1) in
  if String.eqb (m_domId st.1) "" then st
  else apply_if_found k0 (getCSSRule sheets ("#" +:+ m_domId st.1 +:+ ":active")) None st.

(** The nodes of a host, by identity, with the record of the calls of
    [_apply_rule] made on them. *)
Definition canvas := (gmap nat Muse * list (nat * applied))%type.

(** A painter of one node, run on node [o] of a host. *)
Definition on_node (paint : nat → Muse * list applied → Muse * list applied)
    (o : nat) (cv : canvas) : canvas :=
  match cv.1 !! o with
  | None => cv
  | Some muse =>
      let '(muse', log) := paint (length cv.2) (muse, []) in
      (<[o := muse']> cv.1, cv.2 ++ ((fun a => (o, a)) <$> log))
  end.

(** [paintConvict(convictElm, cell)] *)
Definition paintConvict (convictElm : Element) (cell : Cell) (cv : canvas) : canvas :=
  match _allConvictsByDom cell !! el_id convictElm with
  | None => cv
  | Some convict =>
      on_node (fun k0 => apply_if_found k0 (Some (inline convictElm)) None) convict cv
  end.

(** [paintCell(muse)] *)
Definition paintCell (cell : Cell) (cv : canvas) : canvas :=
  let cv :=
    foldl (fun cv obj =>
             on_node (fun k0 st =>
                        foldl (fun st cls =>
                                 apply_if_found k0 (getCSSRule sheets ("." +:+ cls))
                                                (Some ("." +:+ cls)) st)
                              st (getObjectClassSelectors st.1))
                     obj cv)
          cv (classyConvicts cell) in
  foldl (fun cv obj =>
           on_node (fun k0 st =>
                      if String.eqb (m_domId st.1) "" then st
                      else apply_if_found k0 (getCSSRule sheets ("#" +:+ m_domId st.1))
                                          (Some ("#" +:+ m_domId st.1)) st)
                   obj cv)
        cv (namedConvicts cell).

(** [paintExtraCell(muse)] *)
Definition paintExtraCell (cell : Cell) (cv : canvas) : canvas :=
  let cv :=
    foldl (fun cv obj =>
             on_node (fun k0 st =>
                        let classes := getObjectClassSelectors st.1 in
                        foldl (fun st param =>
                                 foldl (fun st cls =>
                                          apply_if_found k0
                                            (getCSSRule sheets ("." +:+ cls +:+ param))
                                            None st)
                                       st classes)
                              st (m_extraParams st.1))
                     obj cv)
          cv (classyConvicts cell) in
  foldl (fun cv obj =>
           on_node (fun k0 st =>
                      if String.eqb (m_domId st.1) "" then st
                      else
                        foldl (fun st param =>
                                 apply_if_found k0
                                   (getCSSRule sheets ("#" +:+ m_domId st.1 +:+ param))
                                   None st)
                              st (m_extraParams st.1))
                   obj cv)
        cv (namedConvicts cell).

End Painters.

End Painters.

(** ** cell.js: the per-frame callbacks *)

Module Updates.
Import JS.

(** An entry of [updateFunds]: the function that [addUpdateFunction] bound,
    with its [originalFn] property, or a function that has no such property
    (the painter of the constant convicts that the constructor pushes
    first). *)
Inductive update_fn :=
| Bound (originalFn : nat)
| Plain.

(** [item?.originalFn === fn] *)
Definition originalFn_is (item : update_fn) (fn : value) : bool :=
  match item, fn with
  | Bound f, VFun g => bool_decide (f = g)
  | Plain, VUndefined => true
  | _, _ => false
  end.

(** [addUpdateFunction(fn)] *)
Definition addUpdateFunction (fn : value) (updateFunds : list update_fn) : list update_fn :=
  match fn with
  | VFun f => updateFunds ++ [Bound f]
  | _ => updateFunds
  end.

(** [removeUpdateFunction(fn)] *)
Definition removeUpdateFunction (fn : value) (updateFunds : list update_fn)
  : list update_fn :=
  match list_find (fun item => originalFn_is item fn = true) updateFunds with
  | Some (idx, _) => delete idx updateFunds
  | None => updateFunds
  end.

End Updates.

(** ** cell.js: scanning the source elements *)

Module Scanner.
Import JS CSSOM Utils Artist CellJS.

Definition upper_ascii (c : ascii) : ascii :=
  let n := nat_of_ascii c in
  if (97 <=? n)%nat && (n <=? 122)%nat then ascii_of_nat (n - 32) else c.

Fixpoint toUpperCase (s : string) : string :=
  match s with
  | EmptyString => EmptyString
  | String c s' => String (upper_ascii c) (toUpperCase s')
  end.

(** [s.includes(sub)] *)
Fixpoint includes (s sub : string) : bool :=
  String.prefix sub s
  || match s with
     | EmptyString => false
     | String _ s' => includes s' sub
     end.

(** [tagName.replace(/-/g, '')] *)
Fixpoint remove_dashes (s : string) : string :=
  match s with
  | EmptyString => EmptyString
  | String c s' => if Ascii.eqb c "-" then remove_dashes s' else String c (remove_dashes s')
  end.

(** [buildClassMap()] of utils.js: [exports] are the names under which the
    graphics library exports the constructors of its scene objects, in the
    order of [Object.getOwnPropertyNames]; each is stored under its
    upper-cased name, and the base class under [OBJECT3D]. *)
Definition getClassMap (exports : list string) : gmap string string :=
  <["OBJECT3D" := "Object3D"]>
    (foldl (fun m key => <[toUpperCase key := key]> m) ∅ exports).

(** A source element as the scan reads it: the element itself, its
    [tagName], its [id] and its [classList]. *)
Record DomElement := mkDomElement {
  de_el : Element;
  de_tagName : string;
  de_idAttr : string;
  de_classList : list string
}.

(** An element with the elements below it ([elm.children]). *)
#[local] Unset Elimination Schemes.
Inductive Dom :=
| DomNode (elm : DomElement) (children : list Dom).
#[local] Set Elimination Schemes.

(** The projection that the scan configures on a camera. *)
Inductive projection :=
| Perspective (fov aspect far near : number)
| Frustum (frustumSize aspect left right top bottom : number).

(** The calls on the renderer. *)
Inductive renderer_call :=
| SetPixelRatio (dpr : number)
| SetSize (width height : number).

(** The host as the scan sees it:
    - [h_cell]: the scene graph, the indices and the element-to-node map;
    - [h_scene]: [loadedScene];
    - [h_allocated]: how many scene objects exist; a new object is named by
      that number;
    - [h_focusedCamera];
    - [h_muses]: per node, the fields that the scan initialises and the
      painter uses; [h_ctor] the constructor it was made with and
      [h_projection] the camera set-up, if it is a camera;
    - [h_convict]: the [convict] property defined on the elements, with
      its value ([None] for [undefined]);
    - [h_renderer]: the calls made on the renderer, oldest first. *)
Record Host := mkHost {
  h_cell : Cell;
  h_scene : nat;
  h_allocated : nat;
  h_focusedCamera : option nat;
  h_muses : gmap nat Muse;
  h_ctor : gmap nat string;
  h_projection : gmap nat projection;
  h_convict : gmap nat (option nat);
  h_renderer : list renderer_call
}.

(** [parent.add(object)] of the graphics library, for an [object] that has
    no parent yet: it becomes the last child of [parent]. *)
Definition Object3D_add (p o : nat) (objs : gmap nat Object3D) : gmap nat Object3D :=
  match objs !! p with
  | Some po => <[p := mkObject3D (children po ++ [o]) (parent po) (domEl po)]> objs
  | None => objs
  end.

(** [x || 1] for a number. *)
Definition or_one (x : number) : number := if num_truthy x then x else one.

(** What a scan reads from outside the host: the style sheets,
    [getClassMap()], the size that [cellElm.getBoundingClientRect()]
    reports, and [window.devicePixelRatio]. *)
Record scan_env := ScanEnv {
  se_sheets : list StyleSheet;
  se_classMap : gmap string string;
  se_width : number;
  se_height : number;
  se_devicePixelRatio : number
}.

Section Scan.
Variable env : scan_env.

(** [ConvertDomToObject(elm)]: the constructor to call, if any. *)
Definition ConvertDomToObject (elm : DomElement) : option string :=
  if String.eqb (de_tagName elm) "CANVAS" then None
  else se_classMap env !! remove_dashes (de_tagName elm).

(** The set-up of a camera tag. *)
Definition camera_projection (tagName : string) : projection :=
  let aspect :=
    if num_truthy (se_height env) then ndiv (se_width env) (se_height env) else one in
  if String.eqb tagName "PERSPECTIVECAMERA" then
    Perspective (Fin 75) aspect (Fin 1000) (Fin (1 # 10))
  else
    let frustumSize := Fin 20 in
    Frustum frustumSize aspect
      (ndiv (nmul (nneg frustumSize) aspect) (Fin 2))
      (ndiv (nmul frustumSize aspect) (Fin 2))
      (ndiv frustumSize (Fin 2))
      (ndiv (nneg frustumSize) (Fin 2)).

(** The part of [ScanElement(elm)] between the conversion and the scan of
    the children, for the new object made by [ctor].  (The calls of
    [updateProjectionMatrix] on a camera are left out: they change nothing
    that the host reads.) *)
Definition adopt (parentElement : option nat) (elm : DomElement) (ctor : string)
    (h : Host) : Host :=
  let el := el_id (de_el elm) in
  let c := h_cell h in
  let parentObj :=
    default (h_scene h) (parentElement ≫= fun p => _allConvictsByDom c !! p) in
  let instance := h_allocated h in
  let is_camera := includes (de_tagName elm) "CAMERA" in
  let render := hasAttribute (Some (de_el elm)) "render" in
  let focused :=
    if is_camera then
      if render then Some instance
      else match h_focusedCamera h with
           | None => Some instance
           | Some cam => Some cam
           end
    else h_focusedCamera h in
  let calls :=
    if is_camera && render
    then [SetPixelRatio (or_one (se_devicePixelRatio env));
          SetSize (or_one (se_width env)) (or_one (se_height env))]
    else [] in
  let objs :=
    <[instance := mkObject3D [] (Some parentObj) (Some el)]>
      (Object3D_add parentObj instance (objects c)) in
  let named :=
    if String.eqb (de_idAttr elm) "" then namedConvicts c
    else namedConvicts c ++ [instance] in
  let constant :=
    if String.eqb (de_idAttr elm) "" then constantConvicts c
    else if negb (bool_decide (instance ∈ constantConvicts c))
            && bool_decide (is_Some (getCSSRule (se_sheets env)
                                       ("#" +:+ de_idAttr elm +:+ ":active")))
         then constantConvicts c ++ [instance]
         else constantConvicts c in
  let classList := filter (fun cls => cls ≠ "") (de_classList elm) in
  let classy :=
    match classList with
    | [] => classyConvicts c
    | _ => classyConvicts c ++ [instance]
    end in
  let constant :=
    match classList with
    | [] => constant
    | _ =>
        if existsb (fun cls => bool_decide (is_Some (getCSSRule (se_sheets env)
                                                       ("." +:+ cls +:+ ":active"))))
                   classList
           && negb (bool_decide (instance ∈ constant))
        then constant ++ [instance]
        else constant
    end in
  let muse :=
    mkMuse (default "" (head classList)) (Some (de_el elm)) (de_idAttr elm) classList
           [] None None false false in
  mkHost
    (mkCell objs classy named constant (<[el := instance]> (_allConvictsByDom c))
            (document c) (purged c))
    (h_scene h) (S instance) focused
    (<[instance := muse]> (h_muses h))
    (<[instance := ctor]> (h_ctor h))
    (if is_camera then <[instance := camera_projection (de_tagName elm)]> (h_projection h)
     else h_projection h)
    (h_convict h)
    (h_renderer h ++ calls).

(** The end of [ScanElement(elm)]: the [convict] property is defined on the
    element unless it has one. *)
Definition define_convict (el : nat) (h : Host) : Host :=
  match h_convict h !! el with
  | None =>
      mkHost (h_cell h) (h_scene h) (h_allocated h) (h_focusedCamera h) (h_muses h)
             (h_ctor h) (h_projection h)
             (<[el := _allConvictsByDom (h_cell h) !! el]> (h_convict h)) (h_renderer h)
  | Some _ => h
  end.

(** [ScanElement(elm)]; [parentElement] is [elm.parentElement], if the
    element has one. *)
Fixpoint ScanElement (parentElement : option nat) (node : Dom) (h : Host) : Host :=
  match node with
  | DomNode elm children =>
      let el := el_id (de_el elm) in
      if bool_decide (is_Some (_allConvictsByDom (h_cell h) !! el)) then h
      else
        match ConvertDomToObject elm with
        | None => foldl (fun h child => ScanElement (Some el) child h) h children
        | Some ctor =>
            let h := adopt parentElement elm ctor h in
            let h := foldl (fun h child => ScanElement (Some el) child h) h children in
            define_convict el h
        end
  end.

(** [_ScanCell()], for the children of the cell element [cellElm]. *)
Definition _ScanCell (cellElm : nat) (children : list Dom) (h : Host) : Host :=
  foldl (fun h child => ScanElement (Some cellElm) child h) h children.

End Scan.

End Scanner.

(** ** main.js: the set-up of a cell *)

Module Facade.
Import JS CSSOM Utils Artist CellJS Scanner.

(** [/camera/i.test(s)] *)
Definition names_camera (s : string) : bool := includes (toLowerCase s) "camera".

(** [child.className], up to the blanks between the classes. *)
Definition className (elm : DomElement) : string :=
  String.concat " " (de_classList elm).

Definition root (node : Dom) : DomElement :=
  match node with DomNode elm _ => elm end.

(** [foundCameraElms]: the children of the cell element whose tag, id or
    class attribute contains [camera], in any case. *)
Definition foundCameraElms (children : list Dom) : list Dom :=
  filter (fun child =>
            names_camera (de_tagName (root child))
            || names_camera (de_idAttr (root child))
            || names_camera (className (root child)) = true)
         children.

(** [create_THREEJSRENDERER(cellEl)] for a cell element that has no host
    yet, as far as the scene objects go: the scene is created (object 0),
    then a default camera (object 1) if no child names a camera, then the
    host, whose constructor scans the children of the cell element.
    [doc] is the document tree at that time. *)
Definition create_THREEJSRENDERER (env : scan_env) (doc : gmap nat nat) (cellEl : nat)
    (children : list Dom) : Host :=
  let scene := mkObject3D [] None None in
  let h :=
    match foundCameraElms children with
    | [] =>
        mkHost (mkCell {[ 0%nat := scene; 1%nat := mkObject3D [] None None ]}
                       [] [] [] ∅ doc [])
               0 2 (Some 1%nat) ∅ ∅ ∅ ∅ []
    | _ =>
        mkHost (mkCell {[ 0%nat := scene ]} [] [] [] ∅ doc [])
               0 1 None ∅ ∅ ∅ ∅ []
    end in
  _ScanCell env cellEl children h.

End Facade.

(** ** cell.js: the mutation observer *)

Module Observer.
Import JS CSSOM Utils Artist CellJS Scanner.

(** A host with another scene graph and other indices. *)
Definition with_cell (h : Host) (c : Cell) : Host :=
  mkHost c (h_scene h) (h_allocated h) (h_focusedCamera h) (h_muses h) (h_ctor h)
         (h_projection h) (h_convict h) (h_renderer h).

(** A host with other fields of its nodes. *)
Definition with_muses (h : Host) (muses : gmap nat Muse) : Host :=
  mkHost (h_cell h) (h_scene h) (h_allocated h) (h_focusedCamera h) muses (h_ctor h)
         (h_projection h) (h_convict h) (h_renderer h).

(** [target.convict]: the property that the scan defined on the element;
    [None] when it is missing or [undefined]. *)
Definition convict_of (h : Host) (target : DomElement) : option nat :=
  mjoin (h_convict h !! el_id (de_el target)).

(** The observer's reaction to a [childList] record for a removed element
    [node] below [target]:
    [this.removeConvict(this._allConvictsByDom.get(node))], unless the
    target or the node is a canvas. *)
Definition removedNode (fuel : nat) (target node : DomElement) (h : Host) : option Host :=
  if String.eqb (de_tagName target) "CANVAS" then Some h
  else if String.eqb (de_tagName node) "CANVAS" then Some h
  else with_cell h <$> on_removed fuel (el_id (de_el node)) (h_cell h).

(** The reaction to an [attributes] record for [id]:
    [convict.userData.domId = target.id]. *)
Definition id_changed (target : DomElement) (h : Host) : Host :=
  if String.eqb (de_tagName target) "CANVAS" then h
  else
    match convict_of h target with
    | None => h
    | Some convict =>
        with_muses h
          (alter (fun m => mkMuse (m_name m) (m_domEl m) (de_idAttr target)
                             (m_classList m) (m_extraParams m) (m_transition m)
                             (m_animation m) (m_layer3 m) (m_animationRunning m))
                 convict (h_muses h))
    end.

(** The reaction to an [attributes] record for [class]: the classes of the
    element, without the empty ones, become the node's class list, and the
    first of them, or the empty string, its name. *)
Definition class_changed (target : DomElement) (h : Host) : Host :=
  if String.eqb (de_tagName target) "CANVAS" then h
  else
    match convict_of h target with
    | None => h
    | Some convict =>
        let nextClasses := filter (fun cls => cls ≠ "") (de_classList target) in
        with_muses h
          (alter (fun m => mkMuse (default "" (head nextClasses)) (m_domEl m) (m_domId m)
                             nextClasses (m_extraParams m) (m_transition m)
                             (m_animation m) (m_layer3 m) (m_animationRunning m))
                 convict (h_muses h))
    end.

End Observer.

(** ** utils.js: the loader of an asset *)

Module Loaders.
Import JS.

(** The loaders that [loadAsset] chooses among. *)
Inductive loader :=
| GLTFLoader
| FBXLoader
| TextureLoader
| AudioLoader
| MTLLoader
| MaterialJSON.

(** [(url.split('.').pop() || '').toLowerCase()] *)
Definition extension (url : string) : string :=
  toLowerCase (default "" (last (split "." url))).

(** The branch that the switch of [loadAsset(url)] takes; [None] is the
    default branch, which warns and returns a promise of [null]. *)
Definition loader_for (url : string) : option loader :=
  let ext := extension url in
  if bool_decide (ext ∈ ["gltf"; "glb"]) then Some GLTFLoader
  else if String.eqb ext "fbx" then Some FBXLoader
  else if bool_decide (ext ∈ ["png"; "jpg"; "jpeg"; "gif"; "webp"]) then Some TextureLoader
  else if bool_decide (ext ∈ ["mp3"; "wav"; "ogg"; "flac"; "aac"]) then Some AudioLoader
  else if String.eqb ext "mtl" then Some MTLLoader
  else if String.eqb ext "json" then Some MaterialJSON
  else None.

End Loaders.

Import JS CSSOM Utils Train Artist CellJS NoScope.
Import Buttons Painters Updates Scanner Facade Observer Loaders.

(** ** Vocabulary of the statements *)

(** The two callbacks, recorded. *)
Inductive callback :=
| OnUpdate (v : value) (easedT : number)
| OnComplete (v : value).

(** A number or a numeric array. *)
Definition number_or_array (v : value) : Prop :=
  match v with VNum _ | VArr _ => True | _ => False end.

(** A positive finite number. *)
Definition positive_finite (v : value) : Prop :=
  ∃ q, v = VNum (Fin q) ∧ (0 < q)%Q.

(** The value an assignment starts from: [toArray()] of the slot's object if
    it has that method, the slot's content otherwise. *)
Definition current_value (currentRaw : value) : value :=
  match currentRaw with
  | VObj o => match ho_toArray o with Some xs => VArr xs | None => currentRaw end
  | _ => currentRaw
  end.

(** A frame declares the animatable property [k]: it has a custom property
    [--k]. *)
Definition declares (rule : CSSKeyframeRule) (k : string) : Prop :=
  ∃ d, d ∈ kf_style rule ∧ startsWith d.1 "--" = true ∧ slice_from 2 d.1 = k.

(** The properties that a segment animates. *)
Definition seg_keys (s : segment) : list string := (seg_props s).*1.

(** Every animation of every segment before the [j]-th has settled in
    [tr]. *)
Definition settled_before (segs : list segment) (j : nat) (tr : list run_event) : Prop :=
  ∀ i s k, (i < j)%nat → segs !! i = Some s → k ∈ seg_keys s → Settled i k ∈ tr.

(** Every animation of the [j]-th segment has been started in [tr]. *)
Definition started_all (segs : list segment) (j : nat) (tr : list run_event) : Prop :=
  ∀ s p, segs !! j = Some s → p ∈ seg_props s →
         Started j p.1 (seg_ms s) p.2.1 p.2.2 ∈ tr.

(** [tr], continuing [seen], respects the order of the loop: an animation
    starts only when all earlier segments have settled, and settles only
    when all animations of its own segment have been started. *)
Fixpoint ordered_from (segs : list segment) (seen tr : list run_event) : Prop :=
  match tr with
  | [] => True
  | ev :: tr' =>
      match ev with
      | Started j _ _ _ _ => settled_before segs j seen
      | Settled j _ => started_all segs j seen
      end
      ∧ ordered_from segs (seen ++ [ev]) tr'
  end.

(** The invariant of the runner between two events. *)
Definition runner_inv (segs : list segment) (seen : list run_event) (r : runner) : Prop :=
  settled_before segs (cur r) seen
  ∧ (∀ s k, segs !! cur r = Some s → k ∈ seg_keys s →
            k ∈ active r ∨ Settled (cur r) k ∈ seen)
  ∧ started_all segs (cur r) seen.

(** The invariant of the cache once [getAsset] has run: the built-ins are
    there, and every load whose reactions are still to run was issued and
    is what the cache holds, as pending, under its key. *)
Record cache_ok (c : AssetCache) : Prop := {
  cache_seeded : assetMap c !! "cube" = Some (Loaded (builtin 0));
  cache_pending : ∀ p key, reactions c !! p = Some key →
                           (p < length (issued c))%nat
                           ∧ assetMap c !! key = Some (Loading p)
}.

(** One turn of the loop of [gatherAssetRules]. *)
Definition gather_step (c : AssetCache) (d : string * string) : AssetCache :=
  match assetMap c !! d.1 with
  | Some _ => c
  | None => let '(v, c1) := loadAsset d.2 c in storeAssetValue d.1 v c1
  end.

(** A list of an index after the nodes [D] were taken out of [l]. *)
Definition pruned (D l l' : list nat) : Prop :=
  NoDup l' ∧ ∀ x, x ∈ l' ↔ x ∈ l ∧ x ∉ D.

(** The source elements of the nodes [D]. *)
Definition elements_of (c : Cell) (D : list nat) : list nat :=
  omap (element_of c) D.

(** What the removal of the nodes [D] amounts to, from [c] to [c']: [order]
    is the order in which they left the indices, and [keep] is the node
    above them, which stays and loses the children [roots]. *)
Record removal (c c' : Cell) (D order roots : list nat) (keep : option nat) : Prop := {
  rm_classy : pruned D (classyConvicts c) (classyConvicts c');
  rm_named : pruned D (namedConvicts c) (namedConvicts c');
  rm_constant : pruned D (constantConvicts c) (constantConvicts c');
  rm_byDom : ∀ el, _allConvictsByDom c' !! el
                   = if decide (el ∈ elements_of c D) then None
                     else _allConvictsByDom c !! el;
  rm_document : ∀ el, document c' !! el
                      = if decide (el ∈ elements_of c D) then None
                        else document c !! el;
  rm_purged : purged c' = purged c ++ order;
  rm_frame : ∀ x, x ∉ D → Some x ≠ keep → objects c' !! x = objects c !! x;
  rm_element : ∀ x, element_of c' x = element_of c x;
  rm_keep : ∀ p po, keep = Some p → p ∉ D → objects c !! p = Some po →
              objects c' !! p
              = Some (mkObject3D (foldl (fun l k => remove_first k l) (children po) roots)
                                 (parent po) (domEl po));
  rm_nodes : ∀ x, x ∈ D → ∃ ob', objects c' !! x = Some ob'
                                 ∧ children ob' = [] ∧ parent ob' = None
}.

(** The node above [o]: it is none of the nodes below [o], it exists, and it
    lists [o] among its children. *)
Definition linked (n : nat) (c : Cell) (par : option nat) (o : nat) : Prop :=
  match par with
  | Some p => (p ∉ subtree n c o) ∧ ∃ po, objects c !! p = Some po ∧ o ∈ children po
  | None => True
  end.

(** One turn of the loop of [removeConvict] over the children. *)
Definition remove_child (fuel : nat) (child : nat) (c : Cell) : option Cell :=
  cob ← objects c !! child;
  match domEl cob with
  | Some domNode => removeConvict fuel (_allConvictsByDom c !! domNode) c
  | None => removeConvict fuel (Some child) c
  end.

(** The invariant of the pseudo-state flags: no list holds a flag twice,
    only the node under the pointer carries [:hover], and the flags are
    among the three that the handlers know. *)
Definition flags_inv (cell : Picker) : Prop :=
  (∀ o, NoDup (flags_of cell o))
  ∧ (∀ o, ":hover" ∈ flags_of cell o → _last_cast_caught cell = Some o)
  ∧ (∀ o f, f ∈ flags_of cell o → f ∈ [":hover"; ":focus"; ":active"]).

(** A host right after its scan: no hit yet and no flag on any node. *)
Definition fresh_picker (camera : bool) : Picker := mkPicker camera None None ∅.

(** What a button handler does to the flag list of the last hit. *)
Definition flag_change (ev : pointer_event) (arr : list string) : list string :=
  match ev with
  | Click | DblClick => addFlag arr ":focus"
  | MouseDown => addFlag arr ":active"
  | MouseUp => delFlag arr ":active"
  | _ => arr
  end.

(** The [@keyframes] rules called [name] among [rules], in order. *)
Definition keyframes_named (name : string) (rules : list CSSRule) : list CSSKeyframesRule :=
  omap (fun rule => match rule with
                    | Keyframes r => if String.eqb (kfs_name r) name then Some r else None
                    | _ => None
                    end) rules.

(** What happens to the asset cache from outside: a request (with the asset
    declarations that the style sheets hold at that moment), or the
    settlement of a load. *)
Inductive asset_op :=
| Request (decls : list (string * string)) (name : string) (path : option string)
| Settlement (p : nat) (how : settlement).

Definition asset_step (c : AssetCache) (op : asset_op) : AssetCache :=
  match op with
  | Request decls name path => (getAsset decls name path c).2
  | Settlement p how => settle p how c
  end.

(** The four built-in geometries are cached. *)
Definition has_builtins (c : AssetCache) : Prop :=
  assetMap c !! "cube" = Some (Loaded (builtin 0))
  ∧ assetMap c !! "sphere" = Some (Loaded (builtin 1))
  ∧ assetMap c !! "plane" = Some (Loaded (builtin 2))
  ∧ assetMap c !! "torus" = Some (Loaded (builtin 3)).

(** The frames of a running animation: [requestAnimationFrame] calls
    [step] with the time of each display refresh, for as long as [step]
    asks for another frame.  [frames] are the times of the refreshes that
    follow the call of [animateLerp]. *)
Fixpoint play {E} (a : animation (E := E)) (frames : list number) : list E :=
  match frames with
  | [] => []
  | now :: rest =>
      let '(evs, again) := step a now in
      if again then evs ++ play a rest else evs
  end.

(** The call of [onUpdate] in the frame at time [f] of an animation that
    started at [start] and lasts [d], before its end. *)
Definition update_at (ease : number -> number) (from to : value) (start d : Q) (f : Q)
  : callback :=
  let t := ndiv (nsub (Fin f) (Fin start)) (Fin d) in
  OnUpdate (lerpValue from to (ease t) lerpNumber) (ease t).

(** The fields of a node by which rules are looked up for it. *)
Definition same_identity (m m' : Muse) : Prop :=
  m_name m' = m_name m ∧ m_domEl m' = m_domEl m ∧ m_domId m' = m_domId m
  ∧ m_classList m' = m_classList m ∧ m_extraParams m' = m_extraParams m.

(** The key-frame runs started by the recorded calls. *)
Definition starts (log : list applied) : nat :=
  length (filter (fun a => ap_started a = true) log).

(** What a painter may do to a node: it records the calls [new] of
    [_apply_rule]; if there is none, the node is as before; if there is
    one, the picking layer of the node is as the condition of [_apply_rule]
    says; a key-frame run is started at most once, and not at all on a node
    whose run is under way. *)
Definition paints (sheets : list StyleSheet) (st st' : Muse * list applied) : Prop :=
  ∃ new, st'.2 = st.2 ++ new
         ∧ same_identity st.1 st'.1
         ∧ (new = [] → st'.1 = st.1)
         ∧ (new ≠ [] → m_layer3 st'.1 = picking_condition sheets st.1)
         ∧ m_animationRunning st'.1
           = m_animationRunning st.1 || bool_decide (starts new ≠ 0%nat)
         ∧ (starts new ≤ if m_animationRunning st.1 then 0 else 1)%nat.

(** What becomes of the declaration [rawProp] of a rule when it is painted
    on a node whose transition is [transition]: nothing for a property that
    is not a custom property and for the two control properties; otherwise
    the assignment, or the wait for an asset. *)
Definition declared_with `{Builtins} (_get_Equation : string -> number -> number)
    (resolve_asset resolve_ref : string -> value) (slot_value : string -> value)
    (now : number) (style : declarations) (_chosenOne : option string)
    (transition : option TransitionCfg) (rawProp : string) : option declared :=
  if negb (startsWith rawProp "--") then None
  else if String.eqb rawProp "--transition" then None
  else if String.eqb rawProp "--animation" then None
  else
    let prop := slice_from 2 rawProp in
    match CSSValueTo3JSValue resolve_asset resolve_ref (trim (getPropertyValue style rawProp)) with
    | VPromise p => Some (Awaited prop p)
    | parsed =>
        let '(effects, running) :=
          assignValue _get_Equation slot_value now transition _chosenOne prop parsed in
        Some (Assigned prop effects running)
    end.

(** A rule that [getCSSRule(selector)] stops at: a style rule with a
    selector text that lists [selector]. *)
Definition lists_selector (selector : string) (rule : CSSRule) : bool :=
  match rule with
  | StyleRule selectorText _ =>
      negb (String.eqb selectorText "") && selector_listed selectorText selector
  | _ => false
  end.

(** Induction over an element with the elements below it. *)
Fixpoint Dom_ind (P : Dom → Prop)
    (step : ∀ elm children, Forall P children → P (DomNode elm children))
    (node : Dom) : P node :=
  match node with
  | DomNode elm children =>
      step elm children
        ((fix all (l : list Dom) : Forall P l :=
            match l with
            | [] => List.Forall_nil P
            | child :: l' => List.Forall_cons P child l' (Dom_ind P step child) (all l')
            end) children)
  end.

(** The source element of a node of the tree, as a key of the
    element-to-node map. *)
Definition dom_id (elm : DomElement) : nat := el_id (de_el elm).

Definition mapped (h : Host) (el : nat) : bool :=
  bool_decide (is_Some (_allConvictsByDom (h_cell h) !! el)).

(** Nothing is left to scan in a tree: its root is mapped, or it has no
    constructor and nothing is left to scan in the trees below it. *)
Fixpoint scanned (env : scan_env) (h : Host) (node : Dom) : bool :=
  match node with
  | DomNode elm children =>
      mapped h (dom_id elm)
      || match ConvertDomToObject env elm with
         | None => forallb (fun child => scanned env h child) children
         | Some _ => false
         end
  end.

(** The invariant of a host: the indices are well formed; every object
    that the scene graph, an index, the element-to-node map or a list of
    children refers to has been allocated; and the scene is one of the
    objects. *)
Record host_ok (h : Host) : Prop := {
  ok_indices : indices_ok (h_cell h);
  ok_objects : ∀ o ob, objects (h_cell h) !! o = Some ob → (o < h_allocated h)%nat;
  ok_classy : ∀ o, o ∈ classyConvicts (h_cell h) → (o < h_allocated h)%nat;
  ok_named : ∀ o, o ∈ namedConvicts (h_cell h) → (o < h_allocated h)%nat;
  ok_constant : ∀ o, o ∈ constantConvicts (h_cell h) → (o < h_allocated h)%nat;
  ok_scene : is_Some (objects (h_cell h) !! h_scene h);
  ok_children : ∀ o ob k, objects (h_cell h) !! o = Some ob → k ∈ children ob →
                  (k < h_allocated h)%nat
}.

(** A list of objects after a scan: the list before, followed by objects
    that did not exist before. *)
Definition appended (bound : nat) (l l' : list nat) : Prop :=
  ∃ extra, l' = l ++ extra ∧ ∀ x, x ∈ extra → (bound ≤ x)%nat.

(** What a scan may do to a host: it creates objects; it appends new objects
    to the indices and to the children of existing objects; it maps elements
    that had no node to new objects.  What existed before is otherwise as it
    was. *)
Record grows (h h' : Host) : Prop := {
  gr_allocated : (h_allocated h ≤ h_allocated h')%nat;
  gr_scene : h_scene h' = h_scene h;
  gr_classy : appended (h_allocated h) (classyConvicts (h_cell h))
                (classyConvicts (h_cell h'));
  gr_named : appended (h_allocated h) (namedConvicts (h_cell h))
               (namedConvicts (h_cell h'));
  gr_constant : appended (h_allocated h) (constantConvicts (h_cell h))
                  (constantConvicts (h_cell h'));
  gr_kept : ∀ el o, _allConvictsByDom (h_cell h) !! el = Some o →
                    _allConvictsByDom (h_cell h') !! el = Some o;
  gr_new : ∀ el o, _allConvictsByDom (h_cell h') !! el = Some o →
                   _allConvictsByDom (h_cell h) !! el = Some o
                   ∨ (h_allocated h ≤ o)%nat;
  gr_objects : ∀ o ob, objects (h_cell h) !! o = Some ob →
                 ∃ extra, objects (h_cell h') !! o
                          = Some (mkObject3D (children ob ++ extra) (parent ob) (domEl ob))
                          ∧ ∀ x, x ∈ extra → (h_allocated h ≤ x)%nat;
  gr_muses : ∀ o, (o < h_allocated h)%nat → h_muses h' !! o = h_muses h !! o;
  gr_document : document (h_cell h') = document (h_cell h);
  gr_purged : purged (h_cell h') = purged (h_cell h)
}.

(** The elements of a tree, parents first. *)
Fixpoint dom_elements (node : Dom) : list DomElement :=
  match node with
  | DomNode elm children => elm :: flat_map (fun child => dom_elements child) children
  end.

(** The keys of the elements of a tree, parents first, and their number. *)
Definition dom_ids (node : Dom) : list nat := dom_id <$> dom_elements node.
Definition dom_size (node : Dom) : nat := length (dom_elements node).

(** Elements that a scan turns into nodes, all of them: each has a
    constructor and no node yet, and none occurs twice. *)
Definition unscanned (env : scan_env) (h : Host) (elms : list DomElement) : Prop :=
  Forall (fun elm => is_Some (ConvertDomToObject env elm) ∧ mapped h (dom_id elm) = false)
         elms
  ∧ NoDup (dom_id <$> elms).

(** The index lists after the nodes of [order] were taken out one by one
    with [fastRemove_arry]. *)
Definition spliced (c c' : Cell) (order : list nat) : Prop :=
  classyConvicts c' = foldl fastRemove_arry (classyConvicts c) order
  ∧ namedConvicts c' = foldl fastRemove_arry (namedConvicts c) order
  ∧ constantConvicts c' = foldl fastRemove_arry (constantConvicts c) order.

(** An object with one more child. *)
Definition with_child (o : nat) (ob : Object3D) : Object3D :=
  mkObject3D (children ob ++ [o]) (parent ob) (domEl ob).

(** The root element of a tree. *)
Definition dom_root (node : Dom) : DomElement :=
  match node with DomNode elm _ => elm end.

(** The trees of the elements [elms] stand in [c] under the node [par]:
    their roots are [roots], each a well-formed subtree; their nodes are the
    [length elms] objects from [first] on, parents first; and these are the
    nodes of [elms], in that order. *)
Record settled (n : nat) (c : Cell) (par : nat) (roots : list nat) (first : nat)
    (elms : list DomElement) : Prop := {
  st_formed : Forall (well_formed n c (Some par)) roots;
  st_nodes : flat_map (subtree n c) roots = seq first (length elms);
  st_elements : elements_of c (seq first (length elms)) = dom_id <$> elms
}.

(** What the scan of an unscanned tree does to a well-formed host: it makes
    one object per element, numbered from the next free number on, parents
    first; the tree stands under the node of the parent element (the scene
    if that has none), which gets the new root as its last child; no other
    object that existed and no other entry of the element-to-node map
    changes. *)
Definition settles (env : scan_env) (node : Dom) : Prop :=
  ∀ (p : option nat) (h : Host) (n : nat),
    host_ok h → unscanned env h (dom_elements node) → (dom_size node ≤ n)%nat →
    let par := default (h_scene h) (p ≫= fun q => _allConvictsByDom (h_cell h) !! q) in
    let h' := ScanElement env p node h in
    h_allocated h' = (h_allocated h + dom_size node)%nat
    ∧ settled n (h_cell h') par [h_allocated h] (h_allocated h) (dom_elements node)
    ∧ (∀ x, (x < h_allocated h)%nat →
         objects (h_cell h') !! x
         = if decide (x = par) then with_child (h_allocated h) <$> objects (h_cell h) !! x
           else objects (h_cell h) !! x)
    ∧ (∀ el, el ∉ dom_ids node →
         _allConvictsByDom (h_cell h') !! el = _allConvictsByDom (h_cell h) !! el)
    ∧ _allConvictsByDom (h_cell h') !! dom_id (dom_root node) = Some (h_allocated h).

(** ** Example inputs *)

(** Two frames at the same time ([from] and [0%]) that both declare
    [--position-x]. *)
Definition twin_frames : list CSSKeyframeRule :=
  [KeyframeRule "from" [("--position-x", "0")];
   KeyframeRule "0%" [("--position-x", "5")]].

(** A style sheet with the sequence [slide] made of them. *)
Definition twin_sheets : list StyleSheet :=
  [Some [Keyframes (KeyframesRule "slide" twin_frames)]].

(** A sheet that declares [@keyframes Spin] and a node that asks for it. *)
Definition spin_sheets : list StyleSheet :=
  [Some [Keyframes (KeyframesRule "Spin"
           [KeyframeRule "from" [("--rotation-y", "0")];
            KeyframeRule "to" [("--rotation-y", "6.28")]])]].

(** A session: the first request for ["ship"] on the empty cache, a second
    one while the load is in flight, the failure of the load, a third
    request. *)
Definition empty_cache : AssetCache := mkAssetCache ∅ [] ∅.
Definition ship_requested : AssetCache :=
  (getAsset [] "ship" (Some "ship.glb") empty_cache).2.

(** A host whose pointer rests on node 1. *)
Definition hovering_one : Picker :=
  mkPicker true (Some 1%nat) (Some (0%Q, 0%Q, 1%Q)) {[1%nat := [":hover"]]}.

(** A host with a small family: under the scene (node 0) the node 10 of
    element 1, with the children 11 (element 2) and 12 (element 3), and 13
    (element 4) under 11.  Element 1 has just been removed from the
    document; the elements below it are still in place. *)
Definition family : Cell :=
  mkCell
    {[ 0%nat := mkObject3D [10%nat] None None;
       10%nat := mkObject3D [11%nat; 12%nat] (Some 0%nat) (Some 1%nat);
       11%nat := mkObject3D [13%nat] (Some 10%nat) (Some 2%nat);
       12%nat := mkObject3D [] (Some 10%nat) (Some 3%nat);
       13%nat := mkObject3D [] (Some 11%nat) (Some 4%nat) ]}
    [10%nat; 11%nat; 13%nat] [12%nat; 10%nat] [11%nat]
    {[ 1%nat := 10%nat; 2%nat := 11%nat; 3%nat := 12%nat; 4%nat := 13%nat ]}
    {[ 2%nat := 1%nat; 3%nat := 1%nat; 4%nat := 2%nat ]}
    [].

(** The same family after element 1 was moved, not deleted: by the time the
    observer runs it is in the document again, under element 5. *)
Definition moved_family : Cell :=
  mkCell (objects family) (classyConvicts family) (namedConvicts family)
         (constantConvicts family) (_allConvictsByDom family)
         (<[1%nat := 5%nat]> (document family)) (purged family).

(** A ball whose source element carries an [onmouseenter] attribute and
    nothing else that the painter looks for. *)
Definition shy_ball : Muse :=
  mkMuse "Mesh" (Some (mkElement 7 ["onmouseenter"])) "" [] [] None None false false.

(** A host with a camera and no hit so far. *)
Definition at_rest : Picker := mkPicker true None None ∅.

(** A studio: one style sheet with an [:active] rule for the class [ball],
    a class map with three constructors, and a cell of 800 by 600. *)
Definition studio : scan_env :=
  ScanEnv [Some [StyleRule ".ball:active" [("--scale", "(2,2,2)")]]]
          (getClassMap ["Group"; "Mesh"; "PerspectiveCamera"])
          (Fin 800) (Fin 600) (Fin 2).

(** A host with its scene (object 0) and nothing else. *)
Definition blank_host : Host :=
  mkHost (mkCell {[ 0%nat := mkObject3D [] None None ]} [] [] [] ∅ ∅ [])
         0 1 None ∅ ∅ ∅ ∅ [].

(** A mesh with an id and a class. *)
Definition ball : DomElement :=
  mkDomElement (mkElement 2 ["id"; "class"; "onclick"]) "MESH" "ball" ["ball"].

(** A group (element 1) with the ball (element 2) and, inside an element
    that has no constructor (element 3), a camera (element 4). *)
Definition stage : Dom :=
  DomNode (mkDomElement (mkElement 1 ["class"]) "GROUP" "" ["stage"])
    [DomNode ball [];
     DomNode (mkDomElement (mkElement 3 []) "DIV" "" [])
       [DomNode (mkDomElement (mkElement 4 ["render"]) "PERSPECTIVE-CAMERA" "" []) []]].

(** A group (element 1) with the ball (element 2) and a camera
    (element 4): every element has a constructor. *)
Definition troupe : Dom :=
  DomNode (mkDomElement (mkElement 1 ["class"]) "GROUP" "" ["stage"])
    [DomNode ball [];
     DomNode (mkDomElement (mkElement 4 ["render"]) "PERSPECTIVE-CAMERA" "" []) []].

(** The cell element: a [div] (element 0). *)
Definition cell_div : DomElement := mkDomElement (mkElement 0 []) "DIV" "" [].

(* ===================================================================== *)
(** * Part II.  Theorems                                                  *)
(* ===================================================================== *)

(** ** Interpolation (Train.js) *)

Example parseFloat_examples :
  @parseFloat Reference.dec_builtins "12.5ms" = Fin (25 # 2)
  ∧ @parseFloat Reference.dec_builtins "50%" = Fin 50
  ∧ @parseFloat Reference.dec_builtins "ease" = NaN
  ∧ @Number Reference.dec_builtins " 250 " = Fin 250
  ∧ @Number Reference.dec_builtins "2s" = NaN.
Proof. repeat split; reflexivity. Qed.

Lemma lerpArray_length from to t lerpMethod :
  length (lerpArray from to t lerpMethod) = Nat.max (length from) (length to).
Proof. unfold lerpArray. by rewrite length_fmap, length_seq. Qed.

Lemma nth_lookup_number (l : list number) i x :
  l !! i = Some x → nth i l NaN = x.
Proof.
  revert i. induction l as [|y l IH]; intros [|i] Hi; simplify_eq/=; auto.
Qed.

(** Index by index, [lerpArray] is the tolerant combination of its inputs. *)
Lemma lerpArray_lookup from to t lerpMethod i :
  lerpArray from to t lerpMethod !! i =
    match from !! i, to !! i with
    | Some a, Some b => Some (lerpMethod a b t)
    | Some a, None => Some a
    | None, Some b => Some b
    | None, None => None
    end.
Proof.
  unfold lerpArray. rewrite list_lookup_fmap.
  destruct (from !! i) as [a|] eqn:Ha; destruct (to !! i) as [b|] eqn:Hb.
  - pose proof (lookup_lt_Some _ _ _ Ha). pose proof (lookup_lt_Some _ _ _ Hb).
    rewrite lookup_seq_lt by lia. simpl.
    destruct (Nat.ltb_spec i (length from)); [|lia].
    destruct (Nat.ltb_spec i (length to)); [|lia]. simpl.
    by rewrite (nth_lookup_number _ _ _ Ha), (nth_lookup_number _ _ _ Hb).
  - pose proof (lookup_lt_Some _ _ _ Ha). apply lookup_ge_None in Hb.
    rewrite lookup_seq_lt by lia. simpl.
    destruct (Nat.ltb_spec i (length from)); [|lia].
    destruct (Nat.ltb_spec i (length to)); [lia|]. simpl.
    by rewrite (nth_lookup_number _ _ _ Ha).
  - pose proof (lookup_lt_Some _ _ _ Hb). apply lookup_ge_None in Ha.
    rewrite lookup_seq_lt by lia. simpl.
    destruct (Nat.ltb_spec i (length from)); [lia|]. simpl.
    by rewrite (nth_lookup_number _ _ _ Hb).
  - apply lookup_ge_None in Ha. apply lookup_ge_None in Hb.
    rewrite lookup_seq_ge by lia. done.
Qed.

(** C9.  For every pair of numeric arrays and every [t], [lerpArray] has the
    length of the longer input; an index that both inputs have holds the
    interpolation of the two elements, an index that only one input has
    holds that input's element unchanged, nothing is cut off, and a length
    mismatch is no error ([lerpValue] returns the array).  In particular
    [lerpArray([1,2,3,4], [10,20,30], 0.5) = [5.5, 11, 16.5, 4]]. *)
Theorem lerpArray_tolerant :
  (∀ (from to : list number) (t : number)
     (lerpMethod : number -> number -> number -> number),
      length (lerpArray from to t lerpMethod) = Nat.max (length from) (length to)
      ∧ (∀ i, lerpArray from to t lerpMethod !! i =
               match from !! i, to !! i with
               | Some a, Some b => Some (lerpMethod a b t)
               | Some a, None => Some a
               | None, Some b => Some b
               | None, None => None
               end)
      ∧ lerpValue (VArr from) (VArr to) t lerpMethod
        = VArr (lerpArray from to t lerpMethod))
  ∧ lerpArray [Fin 1; Fin 2; Fin 3; Fin 4] [Fin 10; Fin 20; Fin 30] (Fin (1 # 2)) lerpNumber
    = [Fin (11 # 2); Fin 11; Fin (33 # 2); Fin 4].
Proof.
  split; [|reflexivity].
  intros from to t lerpMethod. split; [apply lerpArray_length|].
  split; [intros i; apply lerpArray_lookup|done].
Qed.

(** ** [animateLerp] (Train.js) *)

Lemma isAnimatable_spec v : isAnimatable v = true ↔ number_or_array v.
Proof. destruct v; cbn; split; (done || by intros []). Qed.

Lemma nle_zero_not_positive q : nle (Fin q) zero = false ↔ (0 < q)%Q.
Proof.
  change (0 < q)%Q with (q > 0)%Q. rewrite (Qgt_alt q 0).
  unfold nle, zero. simpl. destruct (q ?= 0)%Q; split; congruence.
Qed.

Lemma not_positive_finite_rejected durationMs :
  ¬ positive_finite durationMs →
  negb (Number_isFinite durationMs) || nle (as_number durationMs) zero = true.
Proof.
  intros Hn. destruct durationMs as [| |[q| | |]| | | | |]; try reflexivity.
  simpl. destruct (nle (Fin q) zero) eqn:Hle; [done|].
  destruct Hn. exists q. split; [done|]. by apply nle_zero_not_positive.
Qed.



(** ** Painting one declaration (artist.js) *)

(** A transition config that [parseTransitionCSS] yields has a positive
    finite duration. *)
Lemma parseTransitionCSS_duration `{Builtins} css t :
  parseTransitionCSS css = Some t → ∃ q, tr_duration t = Fin q ∧ (0 < q)%Q.
Proof.
  unfold parseTransitionCSS. intros Hp.
  destruct (String.eqb css ""); [done|].
  destruct (_ || _); [done|].
  destruct (split_ws _) as [|timeToken parts]; [done|].
  destruct (token_ms timeToken) as [q| | |] eqn:Hd; simpl in Hp; try done.
  destruct (nle (Fin q) zero) eqn:Hle; [done|].
  injection Hp as <-. exists q. split; [done|]. by apply nle_zero_not_positive.
Qed.

Lemma ngt_zero_positive q : (0 < q)%Q → ngt (Fin q) zero = true.
Proof.
  intros Hq. change (0 < q)%Q with (q > 0)%Q in Hq. apply Qgt_alt in Hq.
  unfold ngt, zero. simpl. by rewrite Hq.
Qed.

Lemma assignValue_undefined ease slot_value now transition chosen slot :
  assignValue ease slot_value now transition chosen slot VUndefined = ([], None).
Proof. reflexivity. Qed.

Lemma assignValue_no_transition ease slot_value now chosen slot resolved :
  resolved ≠ VUndefined →
  assignValue ease slot_value now None chosen slot resolved
    = ([Exchange slot resolved], None).
Proof. intros Hr. unfold assignValue. destruct resolved; try done. Qed.

Lemma assignValue_not_animatable ease slot_value now transition chosen slot resolved :
  resolved ≠ VUndefined →
  ¬ (number_or_array (current_value (slot_value slot)) ∧ number_or_array resolved) →
  assignValue ease slot_value now transition chosen slot resolved
    = ([Exchange slot resolved], None).
Proof.
  intros Hr Hn. unfold assignValue.
  fold (current_value (slot_value slot)).
  assert (Hb : (isNum (current_value (slot_value slot)) || isArr (current_value (slot_value slot)))
               && (isNum resolved || isArr resolved) = false).
  { apply not_true_iff_false. intros Hb. apply Hn.
    apply andb_true_iff in Hb as [H1 H2].
    split; by apply isAnimatable_spec. }
  destruct resolved; try done;
    rewrite <- andb_assoc; rewrite Hb; by rewrite andb_false_r.
Qed.

Lemma assignValue_animated ease slot_value now t q chosen slot resolved :
  tr_duration t = Fin q → (0 < q)%Q →
  number_or_array (current_value (slot_value slot)) → number_or_array resolved →
  assignValue ease slot_value now (Some t) chosen slot resolved
    = ([], Some (Animation (current_value (slot_value slot)) resolved (Fin q) now
                   (ease (tr_timing t))
                   (Some (fun v _ => [Exchange slot v]))
                   (Some (fun _ => [TransitionFinished chosen])))).
Proof.
  intros Hd Hq Hc Hr. unfold assignValue.
  fold (current_value (slot_value slot)).
  apply isAnimatable_spec in Hc. apply isAnimatable_spec in Hr.
  unfold isAnimatable in Hc, Hr.
  assert (Hb : bool_decide (is_Some (Some t)) && ngt (tr_duration t) zero
               && (isNum (current_value (slot_value slot)) || isArr (current_value (slot_value slot)))
               && (isNum resolved || isArr resolved) = true).
  { rewrite Hc, Hr, Hd, (ngt_zero_positive q Hq). by rewrite bool_decide_eq_true_2. }
  assert (Hrun :
    animateLerp ease now (current_value (slot_value slot)) resolved (VNum (tr_duration t))
      (Some (fun v (_ : number) => [Exchange slot v]))
      (Some (fun _ : value => [TransitionFinished chosen])) (tr_timing t)
    = ([], Some (Animation (current_value (slot_value slot)) resolved (Fin q) now
                   (ease (tr_timing t))
                   (Some (fun v _ => [Exchange slot v]))
                   (Some (fun _ => [TransitionFinished chosen]))))).
  { unfold animateLerp. fold (isAnimatable (current_value (slot_value slot))).
    unfold isAnimatable. rewrite Hc, Hr, Hd. simpl.
    apply nle_zero_not_positive in Hq. by rewrite Hq. }
  destruct resolved; try done; rewrite Hb; exact Hrun.
Qed.

Lemma nlt_not_nge a b : nlt a b = true → nge a b = false.
Proof. unfold nlt, nge. by destruct (ncompare a b) as [[]|]. Qed.

(** The last frame of a transition: the slot receives the end value, then
    the notification is dispatched, and no further frame is requested. *)
Lemma step_transition_last ease from to d start slot chosen frame :
  nge (ndiv (nsub frame start) d) one = true →
  step (Animation from to d start ease
          (Some (fun v _ => [Exchange slot v]))
          (Some (fun _ => [TransitionFinished chosen]))) frame
  = ([Exchange slot (lerpValue from to (ease one) lerpNumber);
      TransitionFinished chosen], false).
Proof. intros Ht. unfold step. simpl. by rewrite Ht. Qed.

(** An earlier frame: the slot receives the interpolated value and another
    frame is requested. *)
Lemma step_transition_before ease from to d start slot chosen frame :
  nlt (ndiv (nsub frame start) d) one = true →
  step (Animation from to d start ease
          (Some (fun v _ => [Exchange slot v]))
          (Some (fun _ => [TransitionFinished chosen]))) frame
  = ([Exchange slot
        (lerpValue from to (ease (ndiv (nsub frame start) d)) lerpNumber)], true).
Proof.
  intros Ht. unfold step. simpl. by rewrite (nlt_not_nge _ _ Ht), Ht.
Qed.



(** ** Key-frame sequences (Train.js) *)

Lemma prefix_cons c p a s : String.prefix (String c p) (String a s) = true → c = a.
Proof. cbn [String.prefix]. by destruct (ascii_dec c a). Qed.

Section KeyframeTime.
Context `{Builtins}.

(** How a key text is resolved, case by case. *)
Lemma parseKeyframeTime_cases keyText total :
  keyText ≠ "" →
  let text := toLowerCase (trim keyText) in
  (text = "from" → parseKeyframeTime keyText total = zero)
  ∧ (text = "to" → parseKeyframeTime keyText total = total)
  ∧ (endsWith text "%" = true → ∀ v, parseFloat text = Fin v →
     parseKeyframeTime keyText total = nmul (ndiv (Fin v) (Fin 100)) total)
  ∧ (endsWith text "ms" = true → ∀ v, parseFloat text = Fin v →
     parseKeyframeTime keyText total = Fin v)
  ∧ (text ≠ "from" → text ≠ "to" → endsWith text "%" = false →
     endsWith text "ms" = false → ∀ n, Number text = Fin n →
     parseKeyframeTime keyText total = Fin n).
Proof.
  intros Hne text. unfold parseKeyframeTime. fold text.
  destruct (String.eqb_spec keyText ""); [done|].
  destruct (String.eqb_spec text "from") as [Hfrom|Hfrom].
  { rewrite Hfrom. repeat split; try done. }
  destruct (String.eqb_spec text "to") as [Hto|Hto].
  { rewrite Hto. repeat split; try done. }
  destruct (endsWith text "%") eqn:Hpct.
  { repeat split; try done.
    - intros _ v Hv. by rewrite Hv.
    - intros Hms. exfalso. revert Hpct Hms. unfold endsWith.
      change (String.rev "%") with "%". change (String.rev "ms") with "sm".
      destruct (String.rev text) as [|a s]; [done|].
      intros H1%prefix_cons H2%prefix_cons. congruence. }
  destruct (endsWith text "ms") eqn:Hms.
  { repeat split; try done. intros _ v Hv. by rewrite Hv. }
  repeat split; try done. intros _ _ _ _ k Hk. by rewrite Hk.
Qed.

(** With a finite total duration every key frame has a finite time. *)
Lemma parseKeyframeTime_finite keyText (d : Q) :
  ∃ q, parseKeyframeTime keyText (Fin d) = Fin q.
Proof.
  unfold parseKeyframeTime.
  destruct (String.eqb keyText ""); [by eexists|].
  destruct (String.eqb _ "from"); [by eexists|].
  destruct (String.eqb _ "to"); [by eexists|].
  destruct (endsWith _ "%").
  { destruct (parseFloat _) as [v| | |]; simpl; try by eexists. }
  destruct (endsWith _ "ms").
  { destruct (parseFloat _) as [v| | |]; simpl; by eexists. }
  destruct (Number _) as [v| | |]; simpl; by eexists.
Qed.

End KeyframeTime.

(** *** The sort *)

Section Sorting.
Context {A : Type} (time : A -> number) (qtime : A -> Q).
Hypothesis time_finite : ∀ a, time a = Fin (qtime a).

Let cmp (a b : A) : number := nsub (time a) (time b).
Let before (a b : A) : Prop := (qtime a <= qtime b)%Q.

Lemma cmp_positive a b : ngt (cmp a b) zero = true ↔ (qtime b < qtime a)%Q.
Proof.
  unfold cmp, nsub. rewrite !time_finite. simpl. unfold ngt. simpl.
  assert (Heq : (Qred (qtime a + Qred (- qtime b)) == qtime a - qtime b)%Q).
  { rewrite !Qred_correct. reflexivity. }
  split.
  - destruct (Qred (qtime a + Qred (- qtime b)) ?= 0)%Q eqn:Hc; try done.
    intros _. apply Qgt_alt in Hc. rewrite Heq in Hc.
    apply Qlt_minus_iff. exact Hc.
  - intros Hlt. apply Qlt_minus_iff in Hlt.
    assert (Hgt : (Qred (qtime a + Qred (- qtime b)) > 0)%Q).
    { rewrite Heq. exact Hlt. }
    apply Qgt_alt in Hgt. by rewrite Hgt.
Qed.

Lemma insert_by_perm x l : insert_by cmp x l ≡ₚ x :: l.
Proof.
  induction l as [|y l IH]; simpl; [done|].
  destruct (ngt (cmp x y) zero); [|done].
  rewrite IH. apply Permutation_swap.
Qed.

Lemma sort_by_perm l : sort_by cmp l ≡ₚ l.
Proof.
  induction l as [|x l IH]; simpl; [done|].
  unfold sort_by in *. simpl. rewrite insert_by_perm. by f_equiv.
Qed.

Lemma insert_by_sorted x l :
  StronglySorted before l → StronglySorted before (insert_by cmp x l).
Proof.
  induction 1 as [|y l Hl IH Hy]; simpl.
  { repeat constructor. }
  destruct (ngt (cmp x y) zero) eqn:Hc.
  - apply cmp_positive in Hc. constructor; [done|].
    rewrite Forall_forall. intros z Hz.
    rewrite insert_by_perm in Hz.
    apply elem_of_cons in Hz as [->|Hz].
    + by apply Qlt_le_weak.
    + rewrite Forall_forall in Hy. by apply Hy.
  - assert (Hxy : before x y).
    { unfold before. apply Qnot_lt_le. intros Hlt.
      apply cmp_positive in Hlt. congruence. }
    constructor; [by constructor|].
    constructor; [done|].
    rewrite Forall_forall in Hy |- *. intros z Hz.
    unfold before in *. apply Qle_trans with (qtime y); [done|]. by apply Hy.
Qed.

Lemma sort_by_sorted l : StronglySorted before (sort_by cmp l).
Proof.
  induction l as [|x l IH]; [constructor|].
  unfold sort_by in *. simpl. by apply insert_by_sorted.
Qed.

End Sorting.

(** *** Frames as dictionaries *)

Section Dictionaries.
Context {V : Type}.
Implicit Types (o : list (string * V)) (k : string) (v : V).

Lemma obj_get_set o k v k' :
  obj_get (obj_set o k v) k' = if decide (k = k') then Some v else obj_get o k'.
Proof.
  induction o as [|[k0 v0] o IH]; simpl.
  - destruct (String.eqb_spec k k'); by case_decide.
  - destruct (String.eqb_spec k0 k) as [->|Hne]; simpl.
    + destruct (String.eqb_spec k k'); by case_decide.
    + destruct (String.eqb_spec k0 k'); [|done].
      subst. by rewrite decide_False by done.
Qed.

Lemma obj_keys_get o k : k ∈ o.*1 ↔ is_Some (obj_get o k).
Proof.
  induction o as [|[k0 v0] o IH]; simpl.
  - rewrite elem_of_nil. split; [done|]. by intros [? ?].
  - rewrite elem_of_cons, IH.
    destruct (String.eqb_spec k0 k) as [->|Hne]; [by intuition eauto|].
    split; [by intros [?|?]; subst|by right].
Qed.

Lemma obj_set_keys o k v k' : k' ∈ (obj_set o k v).*1 ↔ k' = k ∨ k' ∈ o.*1.
Proof.
  rewrite !obj_keys_get, obj_get_set.
  case_decide; subst; [by intuition eauto|].
  split; [by right|]. by intros [->|?].
Qed.

Lemma obj_set_nodup o k v : NoDup o.*1 → NoDup (obj_set o k v).*1.
Proof.
  induction o as [|[k0 v0] o IH]; simpl.
  { intros _. apply NoDup_singleton. }
  rewrite NoDup_cons. intros [Hk0 Ho].
  destruct (String.eqb_spec k0 k) as [->|Hne]; simpl.
  - by apply NoDup_cons.
  - apply NoDup_cons. split; [|by apply IH].
    rewrite obj_set_keys. by intros [->|?].
Qed.

Lemma obj_elem_get o k v : (k, v) ∈ o → NoDup o.*1 → obj_get o k = Some v.
Proof.
  induction o as [|[k0 v0] o IH]; simpl; [by rewrite elem_of_nil|].
  rewrite elem_of_cons, NoDup_cons. intros [Heq|Hin] [Hk0 Ho].
  - simplify_eq. by rewrite String.eqb_refl.
  - destruct (String.eqb_spec k0 k) as [->|Hne]; [|by apply IH].
    destruct Hk0. apply list_elem_of_fmap. by exists (k, v).
Qed.

End Dictionaries.

Section Segments.
Context `{Builtins}.
Variable conv : string -> value.

Lemma collect_fold_keys (style l : declarations) (acc : list (string * value)) k :
  k ∈ (fold_left
         (fun props d =>
            if startsWith d.1 "--"
            then obj_set props (slice_from 2 d.1) (conv (getPropertyValue style d.1))
            else props) l acc).*1
  ↔ k ∈ acc.*1 ∨ ∃ d, d ∈ l ∧ startsWith d.1 "--" = true ∧ slice_from 2 d.1 = k.
Proof.
  revert acc. induction l as [|d l IH]; intros acc; simpl.
  { split; [by left|]. intros [?|(d & Hd & _)]; [done|]. by apply elem_of_nil in Hd. }
  rewrite IH. destruct (startsWith d.1 "--") eqn:Hs.
  - rewrite obj_set_keys. split.
    + intros [[->|?]|(d' & ? & ? & ?)]; [right|by left|right].
      * exists d. by rewrite elem_of_cons; auto.
      * exists d'. by rewrite elem_of_cons; auto.
    + intros [?|(d' & [->|?]%elem_of_cons & ? & ?)]; [by left; right|..].
      * left. by left.
      * right. by exists d'.
  - split.
    + intros [?|(d' & ? & ? & ?)]; [by left|right].
      exists d'. by rewrite elem_of_cons; auto.
    + intros [?|(d' & [->|?]%elem_of_cons & ? & ?)]; [by left|congruence|].
      right. by exists d'.
Qed.

Lemma collect_fold_nodup (style l : declarations) (acc : list (string * value)) :
  NoDup acc.*1 →
  NoDup (fold_left
           (fun props d =>
              if startsWith d.1 "--"
              then obj_set props (slice_from 2 d.1) (conv (getPropertyValue style d.1))
              else props) l acc).*1.
Proof.
  revert acc. induction l as [|d l IH]; intros acc Hacc; simpl; [done|].
  apply IH. destruct (startsWith d.1 "--"); [by apply obj_set_nodup|done].
Qed.

(** The keys of the dictionary built from a frame are the properties the
    frame declares, each once. *)
Lemma collectProps_keys rule k :
  k ∈ (collectProps conv (kf_style rule)).*1 ↔ declares rule k.
Proof.
  unfold collectProps, declares. rewrite collect_fold_keys.
  simpl. rewrite elem_of_nil. split; [by intros [[]|?]|by right].
Qed.

Lemma collectProps_nodup style : NoDup (collectProps conv style).*1.
Proof. apply collect_fold_nodup. constructor. Qed.

Lemma omap_keys {W} (g : string -> option (string * W)) (keys : list string) :
  (∀ k, k ∈ keys → ∃ w, g k = Some (k, w)) → (omap g keys).*1 = keys.
Proof.
  induction keys as [|k keys IH]; intros Hg; simpl; [done|].
  destruct (Hg k) as [w Hw]; [by left|]. rewrite Hw. simpl. f_equal.
  apply IH. intros k' Hk'. apply Hg. by right.
Qed.

(** What one turn of the loop of [runOnce] yields. *)
Lemma segment_of_spec duration fromRule toRule :
  let delta := nsub (parseKeyframeTime (keyText toRule) duration)
                    (parseKeyframeTime (keyText fromRule) duration) in
  match segment_of conv duration fromRule toRule with
  | Some seg =>
      nle delta zero = false
      ∧ seg_ms seg = delta
      ∧ NoDup (seg_props seg).*1
      ∧ (∀ k, k ∈ (seg_props seg).*1 ↔ declares fromRule k ∧ declares toRule k)
      ∧ (∀ k fv tv, (k, (fv, tv)) ∈ seg_props seg →
           obj_get (collectProps conv (kf_style fromRule)) k = Some fv
           ∧ obj_get (collectProps conv (kf_style toRule)) k = Some tv)
  | None =>
      nle delta zero = true ∨ (∀ k, ¬ (declares fromRule k ∧ declares toRule k))
  end.
Proof.
  intros delta. unfold segment_of. fold delta.
  destruct (nle delta zero) eqn:Hle; [by left|].
  set (fromProps := collectProps conv (kf_style fromRule)).
  set (toProps := collectProps conv (kf_style toRule)).
  set (keys := filter (fun k => obj_has toProps k = true) fromProps.*1).
  assert (Hkeys : ∀ k, k ∈ keys ↔ declares fromRule k ∧ declares toRule k).
  { intros k. unfold keys. rewrite list_elem_of_filter.
    unfold obj_has. rewrite bool_decide_eq_true.
    rewrite <- obj_keys_get. unfold fromProps, toProps.
    rewrite !collectProps_keys. tauto. }
  assert (Hnodup : NoDup keys).
  { unfold keys. apply NoDup_filter. apply collectProps_nodup. }
  set (g := fun k => fv ← obj_get fromProps k; tv ← obj_get toProps k; Some (k, (fv, tv))).
  assert (Hg : ∀ k, k ∈ keys → ∃ w, g k = Some (k, w)).
  { intros k [Hf Ht]%Hkeys.
    apply collectProps_keys, obj_keys_get in Hf as [fv Hf].
    apply collectProps_keys, obj_keys_get in Ht as [tv Ht].
    exists (fv, tv). unfold g, fromProps, toProps. by rewrite Hf; simpl; rewrite Ht. }
  destruct keys as [|k0 keys'] eqn:Hk.
  { right. intros key Hd. apply Hkeys in Hd. by apply elem_of_nil in Hd. }
  rewrite <- Hk in *. clear Hk. simpl.
  fold g. rewrite (omap_keys g keys Hg).
  split; [done|]. split; [done|]. split; [done|]. split; [exact Hkeys|].
  intros k fv tv Hin. apply list_elem_of_omap in Hin as (k' & Hk' & Hgk).
  unfold g in Hgk. destruct (obj_get fromProps k') as [fv'|] eqn:Hf; [|done].
  simpl in Hgk. destruct (obj_get toProps k') as [tv'|] eqn:Ht; [|done].
  simpl in Hgk. by simplify_eq.
Qed.

End Segments.

(** *** The order of a run *)

Section RunOrder.
Variable segs : list segment.

Lemma settled_before_mono j tr tr' :
  tr ⊆ tr' → settled_before segs j tr → settled_before segs j tr'.
Proof. intros Hsub Hs i s k ???. apply Hsub. by eapply Hs. Qed.

Lemma started_all_mono j tr tr' :
  tr ⊆ tr' → started_all segs j tr → started_all segs j tr'.
Proof. intros Hsub Hs s p ??. apply Hsub. by eapply Hs. Qed.

Lemma ordered_from_app seen a b :
  ordered_from segs seen (a ++ b)
  ↔ ordered_from segs seen a ∧ ordered_from segs (seen ++ a) b.
Proof.
  revert seen. induction a as [|ev a IH]; intros seen; simpl.
  { rewrite app_nil_r. tauto. }
  rewrite IH, <- app_assoc. simpl. tauto.
Qed.

(** Read off at a position of the trace. *)
Lemma ordered_from_at seen tr pre ev post :
  ordered_from segs seen tr → tr = pre ++ ev :: post →
  match ev with
  | Started j _ _ _ _ => settled_before segs j (seen ++ pre)
  | Settled j _ => started_all segs j (seen ++ pre)
  end.
Proof.
  intros Ho ->. apply ordered_from_app in Ho as [_ Ho]. simpl in Ho. tauto.
Qed.

Lemma launch_block_ordered seen j ms (props : list (string * (value * value))) :
  settled_before segs j seen →
  ordered_from segs seen ((fun p => Started j p.1 ms p.2.1 p.2.2) <$> props).
Proof.
  revert seen. induction props as [|p props IH]; intros seen Hs; simpl; [done|].
  split; [done|]. apply IH.
  eapply settled_before_mono; [|done]. set_solver.
Qed.

Lemma launch_inv seen j :
  settled_before segs j seen →
  ordered_from segs seen (launch segs j).1
  ∧ runner_inv segs (seen ++ (launch segs j).1) (launch segs j).2.
Proof.
  intros Hs. unfold launch. destruct (segs !! j) as [s|] eqn:Hj; simpl.
  - split; [by apply launch_block_ordered|].
    split; [|split]; simpl.
    + eapply settled_before_mono; [|done]. set_solver.
    + intros s' k Hs' Hk. simplify_eq. by left.
    + intros s' p Hs' Hp. simplify_eq.
      apply elem_of_app. right. apply list_elem_of_fmap. by exists p.
  - split; [done|]. rewrite app_nil_r.
    split; [done|]. split; simpl.
    + intros s' k Hs'. congruence.
    + intros s' p Hs'. congruence.
Qed.

Lemma complete_inv seen key r :
  runner_inv segs seen r →
  ordered_from segs seen (complete segs key r).1
  ∧ runner_inv segs (seen ++ (complete segs key r).1) (complete segs key r).2.
Proof.
  intros (Hbefore & Hcur & Hstarted). unfold complete.
  case_bool_decide as Hkey; simpl; [|by rewrite app_nil_r].
  destruct (filter (fun k => k ≠ key) (active r)) as [|k0 rest] eqn:Hrest.
  - assert (Hnext : settled_before segs (S (cur r)) (seen ++ [Settled (cur r) key])).
    { intros i s k Hi Hs Hk. apply elem_of_app.
      destruct (decide (i = cur r)) as [->|Hne].
      - destruct (Hcur s k Hs Hk) as [Hact|Hset]; [|by left].
        right. destruct (decide (k = key)) as [->|Hneq]; [by left|].
        assert (k ∈ filter (fun k => k ≠ key) (active r)) as Hin
          by by apply list_elem_of_filter.
        rewrite Hrest in Hin. by apply elem_of_nil in Hin.
      - left. eapply Hbefore; [|done..]. lia. }
    destruct (launch_inv (seen ++ [Settled (cur r) key]) (S (cur r)) Hnext)
      as [Hord Hinv].
    destruct (launch segs (S (cur r))) as [evs r'] eqn:Hl. simpl in *.
    split; [by split|]. by rewrite <- app_assoc in Hinv.
  - simpl. split; [by split|].
    split; [|split]; simpl.
    + eapply settled_before_mono; [|done]. set_solver.
    + intros s k Hs Hk. rewrite <- Hrest.
      destruct (decide (k = key)) as [->|Hneq].
      * right. apply elem_of_app. right. by left.
      * destruct (Hcur s k Hs Hk) as [?|?].
        -- left. by apply list_elem_of_filter.
        -- right. apply elem_of_app. by left.
    + eapply started_all_mono; [|done]. set_solver.
Qed.

Lemma run_from_ordered completions seen r :
  runner_inv segs seen r → ordered_from segs seen (run_from segs r completions).
Proof.
  revert seen r. induction completions as [|key rest IH]; intros seen r Hinv; [done|].
  simpl. destruct (complete_inv seen key r Hinv) as [Hord Hinv'].
  destruct (complete segs key r) as [evs r']. simpl in *.
  apply ordered_from_app. split; [done|]. by apply IH.
Qed.

Lemma run_trace_ordered completions :
  ordered_from segs [] (run_trace segs completions).
Proof.
  unfold run_trace.
  assert (H0 : settled_before segs 0 []) by (intros i s k Hi; lia).
  destruct (launch_inv [] 0 H0) as [Hord Hinv].
  destruct (launch segs 0) as [evs r]. simpl in *.
  apply ordered_from_app. split; [done|]. by apply run_from_ordered.
Qed.

End RunOrder.

Lemma StronglySorted_weaken {A} (R R' : A -> A -> Prop) l :
  (∀ a b, R a b → R' a b) → StronglySorted R l → StronglySorted R' l.
Proof.
  intros HR. induction 1 as [|x l Hl IH Hx]; constructor; [done|].
  eapply Forall_impl; [done|]. auto.
Qed.

Lemma nle_Qle x y : (x <= y)%Q → nle (Fin x) (Fin y) = true.
Proof.
  intros Hle. apply Qle_alt in Hle. unfold nle, ncompare.
  destruct (x ?= y)%Q eqn:Hc; [done|done|]. by destruct Hle.
Qed.

(** The rules as the run orders them: the same rules, ascending in time. *)
Lemma sorted_rules_sorted `{Builtins} (d : Q) rules :
  sorted_rules (Fin d) rules ≡ₚ rules
  ∧ StronglySorted
      (fun a b => nle (parseKeyframeTime (keyText a) (Fin d))
                      (parseKeyframeTime (keyText b) (Fin d)) = true)
      (sorted_rules (Fin d) rules).
Proof.
  set (time := fun r : CSSKeyframeRule => parseKeyframeTime (keyText r) (Fin d)).
  set (qtime := fun r => match time r with Fin q => q | _ => 0%Q end).
  assert (Hfin : ∀ r, time r = Fin (qtime r)).
  { intros r. unfold qtime, time.
    by destruct (parseKeyframeTime_finite (keyText r) d) as [q ->]. }
  split.
  - apply (sort_by_perm time).
  - eapply StronglySorted_weaken; [|apply (sort_by_sorted time qtime Hfin)].
    intros a b Hab. simpl in Hab. fold (time a) (time b).
    rewrite !Hfin. by apply nle_Qle.
Qed.



(** ** Animation names (artist.js, utils.js) *)

Lemma lower_ascii_space c : Ascii.is_space (lower_ascii c) = Ascii.is_space c.
Proof. by destruct c as [[] [] [] [] [] [] [] []]. Qed.

Lemma lower_ascii_not_upper c : is_upper (lower_ascii c) = false.
Proof. by destruct c as [[] [] [] [] [] [] [] []]. Qed.

Lemma toLowerCase_no_upper s : has_upper (toLowerCase s) = false.
Proof.
  induction s as [|c s IH]; simpl; [done|].
  by rewrite lower_ascii_not_upper, IH.
Qed.

Lemma toLowerCase_rev_app s1 s2 :
  toLowerCase (String.rev_app s1 s2)
  = String.rev_app (toLowerCase s1) (toLowerCase s2).
Proof.
  revert s2. induction s1 as [|c s1 IH]; intros s2; simpl; [done|].
  by rewrite IH.
Qed.

Lemma toLowerCase_rev s : toLowerCase (String.rev s) = String.rev (toLowerCase s).
Proof. apply toLowerCase_rev_app. Qed.

Lemma words_go_lower cur s :
  String.words_go (toLowerCase <$> cur) (toLowerCase s)
  = toLowerCase <$> String.words_go cur s.
Proof.
  revert cur. induction s as [|c s IH]; intros cur; simpl.
  - destruct cur as [w|]; simpl; [|done]. by rewrite toLowerCase_rev.
  - rewrite lower_ascii_space. destruct (Ascii.is_space c).
    + rewrite fmap_app, <- (IH None). f_equal.
      destruct cur as [w|]; simpl; [|done]. by rewrite toLowerCase_rev.
    + rewrite <- IH. f_equal. by destruct cur.
Qed.

(** Lower-casing a string lower-cases each of its tokens. *)
Lemma split_ws_lower s : split_ws (toLowerCase s) = toLowerCase <$> split_ws s.
Proof. apply (words_go_lower None). Qed.

(** The name in a parsed animation config is the lower-cased first token. *)
Lemma parseAnimationCSS_name `{Builtins} value cfg :
  parseAnimationCSS value = Some cfg →
  ∃ token, head (split_ws (trim value)) = Some token
           ∧ anim_name cfg = toLowerCase token.
Proof.
  unfold parseAnimationCSS. intros Hp.
  destruct (String.eqb value ""); [done|].
  destruct (_ || _); [done|].
  rewrite split_ws_lower in Hp.
  destruct (split_ws (trim value)) as [|token rest]; [done|].
  exists token. split; [done|]. simpl in Hp.
  destruct (String.eqb (toLowerCase token) ""); [done|].
  repeat match type of Hp with
         | context [let '(_, _) := ?e in _] => destruct e
         end.
  by injection Hp as <-.
Qed.

(** The key-frame index is keyed by the declared names, as declared. *)
Lemma gatherKeyFrame_MAP_lookup sheets name r :
  gatherKeyFrame_MAP sheets !! name = Some r →
  kfs_name r = name ∧ Keyframes r ∈ all_rules sheets.
Proof.
  unfold gatherKeyFrame_MAP.
  assert (Hgen : ∀ (rules : list CSSRule) (m : gmap string CSSKeyframesRule),
    fold_left
      (fun m rule => match rule with
                     | Keyframes r => <[kfs_name r := r]> m
                     | _ => m
                     end) rules m !! name = Some r →
    (kfs_name r = name ∧ Keyframes r ∈ rules) ∨ m !! name = Some r).
  { induction rules as [|rule rules IH]; intros m Hm; simpl in *; [by right|].
    destruct (IH _ Hm) as [[? ?]|Hin]; [left; split; [done|by right]|].
    destruct rule as [| r' |]; try by right.
    destruct (decide (kfs_name r' = name)) as [<-|Hne].
    - rewrite lookup_insert_eq in Hin. simplify_eq. left. split; [done|by left].
    - rewrite lookup_insert_ne in Hin by done. by right. }
  intros Hm. destruct (Hgen _ _ Hm) as [?|Hempty]; [done|].
  by rewrite lookup_empty in Hempty.
Qed.

Lemma gatherKeyFrame_MAP_none sheets name :
  (∀ r, Keyframes r ∈ all_rules sheets → kfs_name r ≠ name) →
  gatherKeyFrame_MAP sheets !! name = None.
Proof.
  intros Hno. destruct (gatherKeyFrame_MAP sheets !! name) as [r|] eqn:Hm; [|done].
  apply gatherKeyFrame_MAP_lookup in Hm as [Hname Hin]. by destruct (Hno r Hin).
Qed.

Lemma lower_ascii_idem c : lower_ascii (lower_ascii c) = lower_ascii c.
Proof. by destruct c as [[] [] [] [] [] [] [] []]. Qed.

Lemma toLowerCase_idem s : toLowerCase (toLowerCase s) = toLowerCase s.
Proof.
  induction s as [|c s IH]; simpl; [done|]. by rewrite lower_ascii_idem, IH.
Qed.



(** ** The asset cache (utils.js) *)

Lemma gatherAssetRules_cons d decls c :
  gatherAssetRules (d :: decls) c = gatherAssetRules decls (gather_step c d).
Proof. done. Qed.

Lemma gather_step_absent c d :
  assetMap c !! d.1 = None →
  gather_step c d
  = mkAssetCache (<[d.1 := Loading (length (issued c))]> (assetMap c))
                 (issued c ++ [d.2])
                 (<[length (issued c) := d.1]> (reactions c)).
Proof. intros Hd. unfold gather_step. by rewrite Hd. Qed.

Lemma gather_keeps decls c name e :
  assetMap c !! name = Some e →
  assetMap (gatherAssetRules decls c) !! name = Some e.
Proof.
  revert c. induction decls as [|d decls IH]; intros c Hc; [done|].
  rewrite gatherAssetRules_cons. apply IH.
  destruct (assetMap c !! d.1) eqn:Hd.
  - unfold gather_step. by rewrite Hd.
  - rewrite gather_step_absent by done. simpl.
    rewrite lookup_insert_ne; [done|]. congruence.
Qed.

Lemma gather_issued decls c :
  (length (issued c) ≤ length (issued (gatherAssetRules decls c)))%nat.
Proof.
  revert c. induction decls as [|d decls IH]; intros c; [done|].
  rewrite gatherAssetRules_cons. etrans; [|apply IH].
  destruct (assetMap c !! d.1) eqn:Hd.
  - unfold gather_step. by rewrite Hd.
  - rewrite gather_step_absent by done. simpl. rewrite length_app. lia.
Qed.

(** A reaction found after the scan was there before, or belongs to a load
    that the scan issued for a name that was not cached. *)
Lemma gather_reactions decls c p key :
  reactions (gatherAssetRules decls c) !! p = Some key →
  reactions c !! p = Some key
  ∨ ((length (issued c) ≤ p)%nat ∧ assetMap c !! key = None).
Proof.
  revert c. induction decls as [|d decls IH]; intros c Hr; [by left|].
  rewrite gatherAssetRules_cons in Hr. apply IH in Hr.
  destruct (assetMap c !! d.1) eqn:Hd.
  { unfold gather_step in Hr. by rewrite Hd in Hr. }
  rewrite gather_step_absent in Hr by done. simpl in Hr.
  destruct Hr as [Hr|[Hlen Hnone]].
  - destruct (decide (length (issued c) = p)) as [<-|Hne].
    + rewrite lookup_insert_eq in Hr. simplify_eq. by right.
    + rewrite lookup_insert_ne in Hr by done. by left.
  - right. rewrite length_app in Hlen. simpl in Hlen. split; [lia|].
    destruct (decide (d.1 = key)) as [<-|Hne].
    + by rewrite lookup_insert_eq in Hnone.
    + by rewrite lookup_insert_ne in Hnone.
Qed.

Lemma gather_absent decls c name :
  name ∉ decls.*1 → assetMap c !! name = None →
  assetMap (gatherAssetRules decls c) !! name = None.
Proof.
  revert c. induction decls as [|d decls IH]; intros c Hn Hc; [done|].
  rewrite gatherAssetRules_cons. simpl in Hn. apply not_elem_of_cons in Hn as [Hne Hn].
  apply IH; [done|].
  destruct (assetMap c !! d.1) eqn:Hd.
  - unfold gather_step. by rewrite Hd.
  - rewrite gather_step_absent by done. simpl. by rewrite lookup_insert_ne.
Qed.

Lemma gather_step_reaction_kept c d p key :
  (p < length (issued c))%nat →
  reactions c !! p = Some key → reactions (gather_step c d) !! p = Some key.
Proof.
  intros Hp Hr. destruct (assetMap c !! d.1) eqn:Hd.
  - unfold gather_step. by rewrite Hd.
  - rewrite gather_step_absent by done. simpl. rewrite lookup_insert_ne; [done|lia].
Qed.

(** The scan loads a declared name that is not cached. *)
Lemma gather_loads decls c name :
  name ∈ decls.*1 → assetMap c !! name = None →
  ∃ p, assetMap (gatherAssetRules decls c) !! name = Some (Loading p)
       ∧ (length (issued c) ≤ p < length (issued (gatherAssetRules decls c)))%nat
       ∧ reactions (gatherAssetRules decls c) !! p = Some name.
Proof.
  revert c. induction decls as [|d decls IH]; intros c Hin Hc.
  { by apply elem_of_nil in Hin. }
  rewrite gatherAssetRules_cons.
  destruct (decide (d.1 = name)) as [Heq|Hne].
  - rewrite gather_step_absent by by rewrite Heq. rewrite Heq.
    set (c1 := mkAssetCache _ _ _).
    assert (H1 : assetMap c1 !! name = Some (Loading (length (issued c))))
      by apply lookup_insert_eq.
    exists (length (issued c)). split; [by apply gather_keeps|]. split.
    + split; [done|]. eapply Nat.lt_le_trans; [|apply gather_issued].
      simpl. rewrite length_app. simpl. lia.
    + assert (Hr1 : reactions c1 !! length (issued c) = Some name)
        by apply lookup_insert_eq.
      clear IH Hin. revert Hr1.
      assert (Hlt : (length (issued c) < length (issued c1))%nat)
        by (simpl; rewrite length_app; simpl; lia).
      revert Hlt. generalize (length (issued c)) as p. generalize c1 as c'.
      induction decls as [|d' decls IH']; intros c' p Hlt Hr; [done|].
      rewrite gatherAssetRules_cons. apply IH'.
      * eapply Nat.lt_le_trans; [done|]. apply (gather_issued [d'] c').
      * by apply gather_step_reaction_kept.
  - simpl in Hin. apply elem_of_cons in Hin as [?|Hin]; [congruence|].
    assert (Hc1 : assetMap (gather_step c d) !! name = None).
    { destruct (assetMap c !! d.1) eqn:Hd.
      - unfold gather_step. by rewrite Hd.
      - rewrite gather_step_absent by done. simpl. by rewrite lookup_insert_ne. }
    destruct (IH _ Hin Hc1) as (p & Hm & [Hlo Hhi] & Hr).
    exists p. split; [done|]. split; [|done]. split; [|done].
    etrans; [apply (gather_issued [d] c)|done].
Qed.

Lemma cache_ok_not_empty c : cache_ok c → size (assetMap c) ≠ 0%nat.
Proof.
  intros [Hcube _] Hsize. apply map_size_empty_iff in Hsize.
  rewrite Hsize, lookup_empty in Hcube. done.
Qed.

Lemma gather_step_ok c d : cache_ok c → cache_ok (gather_step c d).
Proof.
  intros [Hcube Hpend]. destruct (assetMap c !! d.1) eqn:Hd.
  { unfold gather_step. by rewrite Hd. }
  rewrite gather_step_absent by done. split; simpl.
  - rewrite lookup_insert_ne; [done|]. congruence.
  - intros p key Hr. rewrite length_app. simpl.
    destruct (decide (length (issued c) = p)) as [<-|Hne].
    + rewrite lookup_insert_eq in Hr. simplify_eq.
      split; [lia|]. apply lookup_insert_eq.
    + rewrite lookup_insert_ne in Hr by done.
      destruct (Hpend p key Hr) as [Hlt Hm]. split; [lia|].
      rewrite lookup_insert_ne; [done|]. congruence.
Qed.

Lemma gather_ok decls c : cache_ok c → cache_ok (gatherAssetRules decls c).
Proof.
  revert c. induction decls as [|d decls IH]; intros c Hc; [done|].
  rewrite gatherAssetRules_cons. by apply IH, gather_step_ok.
Qed.

Lemma seed_ok c : reactions c = ∅ → cache_ok (seed_builtins c).
Proof.
  intros Hr. split.
  - unfold seed_builtins, storeAssetValue. simpl.
    do 3 (rewrite lookup_insert_ne by done). apply lookup_insert_eq.
  - intros p key. unfold seed_builtins, storeAssetValue. simpl.
    by rewrite Hr, lookup_empty.
Qed.

(** What [getAsset] does after the seeding and the scan. *)
Lemma getAsset_unfold decls name path c :
  getAsset decls name path c
  = let c0 := if decide (size (assetMap c) = 0%nat) then seed_builtins c else c in
    let c1 := gatherAssetRules decls c0 in
    match assetMap c1 !! name with
    | Some e => (entry_value e, c1)
    | None =>
        match path_given path with
        | None => (VNull, c1)
        | Some url => (VPromise (length (issued c1)), gather_step c1 (name, url))
        end
    end.
Proof.
  unfold getAsset. simpl.
  destruct (assetMap (gatherAssetRules decls _) !! name) eqn:Hn; [done|].
  destruct (path_given path) as [url|]; [|done].
  rewrite gather_step_absent by done.
  unfold loadAsset, storeAssetValue. simpl. by rewrite lookup_insert_eq.
Qed.

(** The invariant holds after every [getAsset], from the empty cache on,
    and after every settlement. *)
Lemma getAsset_ok decls name path c :
  cache_ok c ∨ (assetMap c = ∅ ∧ reactions c = ∅) →
  cache_ok (getAsset decls name path c).2.
Proof.
  intros Hc. rewrite getAsset_unfold. simpl.
  set (c0 := if decide (size (assetMap c) = 0%nat) then seed_builtins c else c).
  assert (H0 : cache_ok c0).
  { unfold c0. destruct Hc as [Hc|[Hm Hr]].
    - by rewrite decide_False by by apply cache_ok_not_empty.
    - rewrite decide_True by by rewrite Hm. by apply seed_ok. }
  pose proof (gather_ok decls c0 H0) as H1.
  destruct (assetMap (gatherAssetRules decls c0) !! name); [done|].
  destruct (path_given path); [|done]. by apply gather_step_ok.
Qed.

Lemma settle_ok p how c : cache_ok c → cache_ok (settle p how c).
Proof.
  intros [Hcube Hpend]. unfold settle.
  destruct (reactions c !! p) as [key|] eqn:Hp; [|done].
  destruct (Hpend p key Hp) as [Hlt Hkey].
  assert (Hne : key ≠ "cube") by (intros ->; congruence).
  assert (Hothers : ∀ p' key', delete p (reactions c) !! p' = Some key' →
                               (p' < length (issued c))%nat
                               ∧ assetMap c !! key' = Some (Loading p') ∧ key' ≠ key).
  { intros p' key' Hr. apply lookup_delete_Some in Hr as [Hpp Hr].
    destruct (Hpend p' key' Hr) as [? Hk']. split; [done|]. split; [done|].
    intros ->. congruence. }
  destruct how as [v|]; split; simpl.
  - by rewrite lookup_insert_ne.
  - intros p' key' Hr. destruct (Hothers p' key' Hr) as (? & ? & ?).
    split; [done|]. by rewrite lookup_insert_ne.
  - by rewrite lookup_delete_ne.
  - intros p' key' Hr. destruct (Hothers p' key' Hr) as (? & ? & ?).
    split; [done|]. by rewrite lookup_delete_ne.
Qed.

(** A request for a cached name returns what the cache holds and issues no
    load for that name. *)
Lemma getAsset_cached decls name path c e :
  cache_ok c → assetMap c !! name = Some e →
  ∃ c', getAsset decls name path c = (entry_value e, c')
        ∧ assetMap c' !! name = Some e
        ∧ (∀ p, (length (issued c) ≤ p)%nat → reactions c' !! p ≠ Some name).
Proof.
  intros Hok He. rewrite getAsset_unfold. simpl.
  rewrite decide_False by by apply cache_ok_not_empty.
  rewrite (gather_keeps decls c name e He). eexists. split; [done|].
  split; [by apply gather_keeps|].
  intros p Hp Hr. apply gather_reactions in Hr as [Hr|[_ Hnone]]; [|congruence].
  destruct Hok as [_ Hpend]. destruct (Hpend p name Hr). lia.
Qed.

(** A request that returns a pending value has cached it. *)
Lemma getAsset_pending_cached decls name path c v c1 :
  getAsset decls name path c = (v, c1) → isThenable v = true →
  ∃ e, assetMap c1 !! name = Some e ∧ entry_value e = v.
Proof.
  rewrite getAsset_unfold. simpl.
  set (c0 := gatherAssetRules decls _).
  destruct (assetMap c0 !! name) as [e|] eqn:Hn.
  { intros [= <- <-] _. by exists e. }
  destruct (path_given path) as [url|]; [|by intros [= <- <-]].
  intros [= <- <-] _. rewrite gather_step_absent by done. simpl.
  eexists. split; [apply lookup_insert_eq|done].
Qed.

(** After a failed load, a request with a path, or for a name that a style
    sheet declares, issues a fresh load. *)
Lemma getAsset_after_eviction decls name path c p :
  cache_ok c → reactions c !! p = Some name →
  is_Some (path_given path) ∨ name ∈ decls.*1 →
  assetMap (settle p Rejected c) !! name = None
  ∧ ∃ p' c2, getAsset decls name path (settle p Rejected c) = (VPromise p', c2)
             ∧ (length (issued c) ≤ p')%nat ∧ p' ≠ p
             ∧ reactions c2 !! p' = Some name
             ∧ assetMap c2 !! name = Some (Loading p').
Proof.
  intros Hok Hp Hretry.
  pose proof (settle_ok p Rejected c Hok) as Hok'.
  assert (Hgone : assetMap (settle p Rejected c) !! name = None).
  { unfold settle. rewrite Hp. simpl. apply lookup_delete_eq. }
  assert (Hissued : issued (settle p Rejected c) = issued c).
  { unfold settle. by rewrite Hp. }
  assert (Hplt : (p < length (issued c))%nat).
  { destruct Hok as [_ Hpend]. by destruct (Hpend p name Hp). }
  split; [done|]. rewrite getAsset_unfold. simpl.
  rewrite decide_False by by apply cache_ok_not_empty.
  set (s := settle p Rejected c) in *.
  destruct (decide (name ∈ decls.*1)) as [Hin|Hnin].
  - destruct (gather_loads decls s name Hin Hgone) as (p' & Hm & [Hlo Hhi] & Hr).
    rewrite Hm. simpl. exists p', (gatherAssetRules decls s).
    rewrite Hissued in Hlo. repeat split; try done. lia.
  - destruct Hretry as [[url Hurl]|?]; [|done].
    rewrite (gather_absent decls s name Hnin Hgone), Hurl.
    pose proof (gather_issued decls s) as Hlen. rewrite Hissued in Hlen.
    eexists _, _. split; [done|].
    rewrite gather_step_absent by by apply gather_absent.
    simpl. rewrite !lookup_insert_eq. repeat split; try done. lia.
Qed.

(** C7.  For every asset name: once a request has returned a pending value,
    a request made while the cache still holds that entry (the load is in
    flight) returns the same pending value and issues no load for the name;
    and when a load fails, its cache entry is deleted, so that the next
    request for the name (one with a path, or for a name that a style sheet
    declares) issues a fresh load and returns its pending value. *)
Theorem asset_in_flight_shared_and_failed_evicted :
  ∀ name : string,
    (∀ decls path c v c1,
       getAsset decls name path c = (v, c1) → isThenable v = true →
       ∀ c' decls' path',
         cache_ok c' → assetMap c' !! name = assetMap c1 !! name →
         ∃ c2, getAsset decls' name path' c' = (v, c2)
               ∧ (∀ p, (length (issued c') ≤ p)%nat → reactions c2 !! p ≠ Some name))
    ∧ (∀ c p,
         cache_ok c → reactions c !! p = Some name →
         assetMap (settle p Rejected c) !! name = None
         ∧ ∀ decls path,
             is_Some (path_given path) ∨ name ∈ decls.*1 →
             ∃ p' c2,
               getAsset decls name path (settle p Rejected c) = (VPromise p', c2)
               ∧ (length (issued c) ≤ p')%nat ∧ p' ≠ p
               ∧ reactions c2 !! p' = Some name
               ∧ assetMap c2 !! name = Some (Loading p')).
Proof.
  intros name. split.
  - intros decls path c v c1 Hfirst Hpending c' decls' path' Hok Hsame.
    destruct (getAsset_pending_cached _ _ _ _ _ _ Hfirst Hpending) as (e & He & <-).
    rewrite He in Hsame.
    destruct (getAsset_cached decls' name path' c' e Hok Hsame) as (c2 & Hget & _ & Hno).
    by exists c2.
  - intros c p Hok Hp. split.
    + unfold settle. rewrite Hp. simpl. apply lookup_delete_eq.
    + intros decls path Hretry.
      by destruct (getAsset_after_eviction decls name path c p Hok Hp Hretry) as [_ ?].
Qed.

Lemma asset_session_witness :
  getAsset [] "ship" (Some "ship.glb") empty_cache = (VPromise 0, ship_requested)
  ∧ (∃ c2, getAsset [] "ship" None ship_requested = (VPromise 0, c2)
           ∧ ∀ p, (1 ≤ p)%nat → reactions c2 !! p ≠ Some "ship")
  ∧ assetMap (settle 0 Rejected ship_requested) !! "ship" = None
  ∧ ∃ p' c2,
      getAsset [] "ship" (Some "ship.glb") (settle 0 Rejected ship_requested)
        = (VPromise p', c2)
      ∧ (1 ≤ p')%nat ∧ p' ≠ 0%nat
      ∧ reactions c2 !! p' = Some "ship"
      ∧ assetMap c2 !! "ship" = Some (Loading p').
Proof.
  assert (Hok : cache_ok ship_requested).
  { apply getAsset_ok. right. done. }
  destruct (asset_in_flight_shared_and_failed_evicted "ship") as [Hshare Hretry].
  split; [reflexivity|]. split.
  - apply (Hshare [] (Some "ship.glb") empty_cache (VPromise 0) ship_requested
             eq_refl eq_refl ship_requested [] None Hok eq_refl).
  - destruct (Hretry ship_requested 0%nat Hok eq_refl) as [Hgone Hnew].
    split; [exact Hgone|].
    apply (Hnew [] (Some "ship.glb")). left. by eexists.
Defined.

(** ** [fastRemove_arry] (utils.js) *)

Section FastRemove.
Context {A : Type} `{EqDecision A}.
Implicit Types (l : list A) (x y : A).

Lemma indexOf_first l1 x l2 :
  x ∉ l1 → indexOf (l1 ++ x :: l2) x = Some (length l1).
Proof.
  intros Hx. unfold indexOf. rewrite list_find_app_r.
  - simpl. rewrite decide_True by done. done.
  - apply list_find_None, Forall_forall. by intros y Hy ->.
Qed.

Lemma indexOf_absent l x : x ∉ l → indexOf l x = None.
Proof.
  intros Hx. unfold indexOf.
  assert (list_find (fun y => y = x) l = None) as ->; [|done].
  apply list_find_None, Forall_forall. by intros y Hy ->.
Qed.

Lemma fastRemove_arry_absent l x : x ∉ l → fastRemove_arry l x = l.
Proof. intros Hx. unfold fastRemove_arry. by rewrite indexOf_absent. Qed.

Lemma fastRemove_arry_last l1 x : x ∉ l1 → fastRemove_arry (l1 ++ [x]) x = l1.
Proof.
  intros Hx. unfold fastRemove_arry.
  rewrite indexOf_first, last_snoc by done.
  rewrite (insert_app_r_alt l1 [x] (length l1) x) by lia.
  rewrite Nat.sub_diag. simpl. rewrite length_app. simpl.
  rewrite take_app_length'; [done|lia].
Qed.

Lemma fastRemove_arry_middle l1 x l2 z :
  x ∉ l1 → fastRemove_arry (l1 ++ x :: l2 ++ [z]) x = l1 ++ z :: l2.
Proof.
  intros Hx. unfold fastRemove_arry.
  rewrite indexOf_first by done.
  assert (last (l1 ++ x :: l2 ++ [z]) = Some z) as ->.
  { change (x :: l2 ++ [z]) with ((x :: l2) ++ [z]). by rewrite app_assoc, last_snoc. }
  rewrite (insert_app_r_alt l1 _ (length l1) z) by lia.
  rewrite Nat.sub_diag. simpl.
  change (z :: l2 ++ [z]) with ((z :: l2) ++ [z]). rewrite app_assoc.
  apply take_app_length'. rewrite !length_app. simpl. rewrite length_app. simpl. lia.
Qed.

(** Removing an element that is there leaves the other elements, in some
    order. *)
Lemma fastRemove_arry_perm l x : x ∈ l → l ≡ₚ x :: fastRemove_arry l x.
Proof.
  intros (l1 & l2 & -> & Hx)%list_elem_of_split_l.
  destruct l2 as [|y l2 _] using rev_ind.
  - rewrite fastRemove_arry_last by done. symmetry. apply Permutation_cons_append.
  - rewrite fastRemove_arry_middle by done.
    rewrite <- Permutation_middle. do 2 f_equiv.
    symmetry. apply Permutation_cons_append.
Qed.

Lemma fastRemove_arry_subset l x y : y ∈ fastRemove_arry l x → y ∈ l.
Proof.
  destruct (decide (x ∈ l)) as [Hx|Hx].
  - intros Hy. rewrite (fastRemove_arry_perm l x Hx). by right.
  - by rewrite fastRemove_arry_absent.
Qed.

Lemma fastRemove_arry_other l x y : y ≠ x → y ∈ l → y ∈ fastRemove_arry l x.
Proof.
  intros Hne Hy. destruct (decide (x ∈ l)) as [Hx|Hx].
  - rewrite (fastRemove_arry_perm l x Hx) in Hy.
    by apply elem_of_cons in Hy as [?|?].
  - by rewrite fastRemove_arry_absent.
Qed.

Lemma fastRemove_arry_nodup l x : NoDup l → NoDup (fastRemove_arry l x).
Proof.
  intros Hl. destruct (decide (x ∈ l)) as [Hx|Hx].
  - rewrite (fastRemove_arry_perm l x Hx) in Hl. by apply NoDup_cons in Hl as [_ ?].
  - by rewrite fastRemove_arry_absent.
Qed.

(** From an array without duplicates the element is gone. *)
Lemma fastRemove_arry_gone l x : NoDup l → x ∉ fastRemove_arry l x.
Proof.
  intros Hl. destruct (decide (x ∈ l)) as [Hx|Hx].
  - rewrite (fastRemove_arry_perm l x Hx) in Hl. by apply NoDup_cons in Hl as [? _].
  - by rewrite fastRemove_arry_absent.
Qed.

End FastRemove.

(** ** The pointer dispatcher (NoScope.js) *)

Lemma addFlag_elem arr flag : flag ∈ addFlag arr flag.
Proof.
  unfold addFlag. case_bool_decide; [done|]. apply elem_of_app. right. by left.
Qed.

Lemma addFlag_nodup arr flag : NoDup arr → NoDup (addFlag arr flag).
Proof.
  intros Hn. unfold addFlag. case_bool_decide; [done|].
  apply NoDup_app. split; [done|]. split; [|apply NoDup_singleton].
  intros x Hx [->|[]%elem_of_nil]%elem_of_cons. done.
Qed.

Lemma delFlag_nodup arr flag : NoDup arr → NoDup (delFlag arr flag).
Proof. apply fastRemove_arry_nodup. Qed.

Lemma delFlag_gone arr flag : NoDup arr → flag ∉ delFlag arr flag.
Proof. apply fastRemove_arry_gone. Qed.

Lemma flags_of_set c o f o' :
  flags_of (set_flags c o f) o' = if decide (o = o') then f else flags_of c o'.
Proof.
  unfold flags_of, set_flags. simpl. case_decide.
  - subst. by rewrite lookup_insert_eq.
  - by rewrite lookup_insert_ne.
Qed.

(** A move from one hit to another. *)
Lemma pointer_move_change cell old new pt :
  focusedCamera cell = true → _last_cast_caught cell = Some old → new ≠ old →
  default_onCellPointerMove_method (Some (new, pt)) cell
  = ([HandlerCall "onmouseleave" "cellmouseleave" old (_lastHitPosition cell);
      PaintSpecificMuse old;
      HandlerCall "onmouseenter" "cellmouseenter" new (Some pt);
      HandlerCall "onmouseover" "cellhover" new (Some pt);
      PaintExtraCell],
     mkPicker true (Some new) (Some pt)
       (<[new := addFlag (flags_of (set_flags cell old (delFlag (flags_of cell old) ":hover")) new)
                         ":hover"]>
          (<[old := delFlag (flags_of cell old) ":hover"]> (extraParams cell)))).
Proof.
  intros Hcam Hlast Hne. unfold default_onCellPointerMove_method.
  rewrite Hcam, Hlast. simpl.
  rewrite bool_decide_eq_true_2 by congruence. simpl. by rewrite Hcam.
Qed.

(** A move onto a first hit. *)
Lemma pointer_move_first cell new pt :
  focusedCamera cell = true → _last_cast_caught cell = None →
  default_onCellPointerMove_method (Some (new, pt)) cell
  = ([HandlerCall "onmouseenter" "cellmouseenter" new (Some pt);
      HandlerCall "onmouseover" "cellhover" new (Some pt);
      PaintExtraCell],
     mkPicker true (Some new) (Some pt)
       (<[new := addFlag (flags_of cell new) ":hover"]> (extraParams cell))).
Proof.
  intros Hcam Hlast. unfold default_onCellPointerMove_method.
  rewrite Hcam, Hlast. simpl. by rewrite Hcam.
Qed.

(** A move that stays on the hit. *)
Lemma pointer_move_same cell new pt :
  focusedCamera cell = true → _last_cast_caught cell = Some new →
  default_onCellPointerMove_method (Some (new, pt)) cell
  = ([HandlerCall "onmouseover" "cellhover" new (Some pt); PaintExtraCell],
     mkPicker true (Some new) (Some pt)
       (<[new := addFlag (flags_of cell new) ":hover"]> (extraParams cell))).
Proof.
  intros Hcam Hlast. unfold default_onCellPointerMove_method.
  rewrite Hcam, Hlast. simpl.
  rewrite bool_decide_eq_false_2 by (intros Hn; by apply Hn). simpl.
  by rewrite Hcam, Hlast.
Qed.

(** A move off the hit. *)
Lemma pointer_move_off cell old :
  focusedCamera cell = true → _last_cast_caught cell = Some old →
  default_onCellPointerMove_method None cell
  = ([HandlerCall "onmouseleave" "cellmouseleave" old (_lastHitPosition cell);
      PaintSpecificMuse old],
     mkPicker true None (_lastHitPosition cell)
       (<[old := delFlag (flags_of cell old) ":hover"]> (extraParams cell))).
Proof.
  intros Hcam Hlast. unfold default_onCellPointerMove_method.
  rewrite Hcam, Hlast. simpl. by rewrite Hcam.
Qed.



(** ** Removing a node (cell.js) *)

Lemma remove_first_subset x y l : y ∈ remove_first x l → y ∈ l.
Proof.
  induction l as [|z l IH]; simpl; [done|].
  case_decide; [by right|]. intros [->|?]%elem_of_cons; [by left|right; auto].
Qed.

Lemma remove_first_other x y l : y ≠ x → y ∈ l → y ∈ remove_first x l.
Proof.
  intros Hne. induction l as [|z l IH]; simpl; [done|].
  intros [->|Hy]%elem_of_cons.
  - rewrite decide_False by done. by left.
  - case_decide; [done|]. right. auto.
Qed.

Lemma remove_first_gone x l : NoDup l → x ∉ remove_first x l.
Proof.
  induction 1 as [|z l Hz Hl IH]; simpl; [by apply not_elem_of_nil|].
  case_decide; [by subst|]. apply not_elem_of_cons. split; [done|auto].
Qed.

(** Splicing the elements of a list out of that list, one by one, leaves
    nothing. *)
Lemma splice_all l : foldl (fun l k => remove_first k l) l l = [].
Proof.
  induction l as [|k l IH]; [done|]. simpl. by rewrite decide_True.
Qed.

Lemma flat_map_agree {A B} (f g : A -> list B) l :
  (∀ x, x ∈ l → f x = g x) → flat_map f l = flat_map g l.
Proof.
  induction l as [|x l IH]; intros Hfg; simpl; [done|].
  rewrite Hfg by by left. f_equal. apply IH. intros y Hy. apply Hfg. by right.
Qed.

Lemma elem_of_flat_map {A B} (f : A -> list B) l y :
  y ∈ flat_map f l ↔ ∃ x, x ∈ l ∧ y ∈ f x.
Proof.
  rewrite list_elem_of_In, in_flat_map. setoid_rewrite list_elem_of_In. done.
Qed.

Section SceneGraph.
Implicit Types (c : Cell) (o p x y : nat) (par : option nat).

Lemma kids_lookup c o ob : objects c !! o = Some ob → kids c o = children ob.
Proof. unfold kids. by intros ->. Qed.

Lemma element_of_lookup c o ob : objects c !! o = Some ob → element_of c o = domEl ob.
Proof. unfold element_of. by intros ->. Qed.

Lemma subtree_root n c par o : well_formed n c par o → o ∈ subtree n c o.
Proof. destruct n; [done|]. intros _. by left. Qed.

(** Every node of a well-formed subtree exists, and the element-to-node map
    sends its element to it. *)
Lemma well_formed_nodes n c par o y :
  well_formed n c par o → y ∈ subtree n c o →
  ∃ oy, objects c !! y = Some oy
        ∧ ∀ el, domEl oy = Some el → _allConvictsByDom c !! el = Some y.
Proof.
  revert par o. induction n as [|n IH]; intros par o Hwf Hy; [done|].
  destruct Hwf as (ob & Hob & Hpar & Hdom & Hkids). simpl in Hy.
  apply elem_of_cons in Hy as [->|Hy]; [by exists ob|].
  rewrite (kids_lookup c o ob Hob) in Hy.
  apply elem_of_flat_map in Hy as (k & Hk & Hy).
  rewrite Forall_forall in Hkids. by apply (IH (Some o) k); [apply Hkids|].
Qed.

(** The functions over a subtree only look at its nodes. *)
Lemma subtree_agree n c c1 o :
  (∀ x, x ∈ subtree n c o → objects c1 !! x = objects c !! x) →
  subtree n c1 o = subtree n c o ∧ post_order n c1 o = post_order n c o.
Proof.
  revert o. induction n as [|n IH]; intros o Hagree; [done|]. simpl.
  assert (Hk : kids c1 o = kids c o).
  { unfold kids. rewrite Hagree; [done|]. by left. }
  rewrite Hk.
  assert (Hsub : ∀ k, k ∈ kids c o →
            subtree n c1 k = subtree n c k ∧ post_order n c1 k = post_order n c k).
  { intros k Hkin. apply IH. intros x Hx. apply Hagree. simpl. right.
    apply elem_of_flat_map. by exists k. }
  split; f_equal.
  - apply flat_map_agree. intros k Hkin. by apply Hsub.
  - apply flat_map_agree. intros k Hkin. by apply Hsub.
Qed.

Lemma well_formed_agree n c c1 par o :
  well_formed n c par o →
  (∀ x, x ∈ subtree n c o → objects c1 !! x = objects c !! x) →
  (∀ x el, x ∈ subtree n c o → element_of c x = Some el →
           _allConvictsByDom c1 !! el = Some x) →
  well_formed n c1 par o.
Proof.
  revert par o. induction n as [|n IH]; intros par o Hwf Hobj Hmap; [done|].
  destruct Hwf as (ob & Hob & Hpar & Hdom & Hkids).
  exists ob. split; [by rewrite Hobj; [|left]|]. split; [done|]. split.
  - intros el Hel. apply Hmap; [by left|]. by rewrite (element_of_lookup c o ob).
  - rewrite Forall_forall in Hkids |- *. intros k Hk. apply IH; [by apply Hkids|..].
    + intros x Hx. apply Hobj. simpl. right. rewrite (kids_lookup c o ob Hob).
      apply elem_of_flat_map. by exists k.
    + intros x el Hx. apply Hmap. simpl. right. rewrite (kids_lookup c o ob Hob).
      apply elem_of_flat_map. by exists k.
Qed.

End SceneGraph.

Lemma pruned_nil l : NoDup l → pruned [] l l.
Proof. intros Hl. split; [done|]. intros x. rewrite elem_of_nil. tauto. Qed.

Lemma pruned_app D1 D2 l l1 l2 :
  pruned D1 l l1 → pruned D2 l1 l2 → pruned (D1 ++ D2) l l2.
Proof.
  intros [_ H1] [Hn H2]. split; [done|]. intros x.
  rewrite H2, H1, elem_of_app. tauto.
Qed.

Lemma pruned_self D o l l1 :
  pruned D l l1 → pruned (o :: D) l (fastRemove_arry l1 o).
Proof.
  intros [Hn H1]. split; [by apply fastRemove_arry_nodup|]. intros x.
  rewrite elem_of_cons. split.
  - intros Hx. pose proof (fastRemove_arry_subset _ _ _ Hx) as Hx1.
    apply H1 in Hx1 as [? ?]. split; [done|]. intros [->|?]; [|done].
    by apply (fastRemove_arry_gone l1 o).
  - intros [Hx Hno]. apply fastRemove_arry_other; [by intros ->; apply Hno; left|].
    apply H1. split; [done|]. intros ?. apply Hno. by right.
Qed.

Lemma removal_refl c keep :
  indices_ok c → removal c c [] [] [] keep.
Proof.
  intros [? ? ? ?]. split; try by apply pruned_nil.
  - intros el. by rewrite decide_False by by apply not_elem_of_nil.
  - intros el. by rewrite decide_False by by apply not_elem_of_nil.
  - by rewrite app_nil_r.
  - done.
  - done.
  - intros p [] ? ? Hp. by rewrite Hp.
  - intros x Hx. by apply elem_of_nil in Hx.
Qed.

Lemma elements_of_agree c c1 D :
  (∀ x, element_of c1 x = element_of c x) → elements_of c1 D = elements_of c D.
Proof.
  intros He. unfold elements_of. induction D as [|x D IH]; csimpl; [done|].
  by rewrite He, IH.
Qed.

Lemma gone_from_either {V} (el : nat) (E1 E2 : list nat) (v : option V) :
  (if decide (el ∈ E2) then None else if decide (el ∈ E1) then None else v)
  = if decide (el ∈ E1 ++ E2) then None else v.
Proof.
  destruct (decide (el ∈ E1 ++ E2)) as [Hin|Hout].
  - apply elem_of_app in Hin as [Hin|Hin].
    + rewrite (decide_True (P := el ∈ E1)) by done. by case_decide.
    + by rewrite (decide_True (P := el ∈ E2)) by done.
  - apply not_elem_of_app in Hout as [H1 H2].
    by rewrite (decide_False (P := el ∈ E2)), (decide_False (P := el ∈ E1)) by done.
Qed.

Lemma removal_trans c c1 c2 D1 D2 ord1 ord2 roots1 roots2 keep :
  removal c c1 D1 ord1 roots1 keep →
  removal c1 c2 D2 ord2 roots2 keep →
  (∀ x, x ∈ D1 → x ∉ D2) →
  (∀ p, keep = Some p → p ∉ D1) →
  removal c c2 (D1 ++ D2) (ord1 ++ ord2) (roots1 ++ roots2) keep.
Proof.
  intros R1 R2 Hdisj Hkeep.
  assert (HE : elements_of c (D1 ++ D2) = elements_of c D1 ++ elements_of c1 D2).
  { unfold elements_of. rewrite omap_app. f_equal. symmetry.
    apply (elements_of_agree c c1 D2), R1. }
  split.
  - eapply pruned_app; [apply R1|apply R2].
  - eapply pruned_app; [apply R1|apply R2].
  - eapply pruned_app; [apply R1|apply R2].
  - intros el. rewrite (rm_byDom _ _ _ _ _ _ R2), (rm_byDom _ _ _ _ _ _ R1), HE.
    apply gone_from_either.
  - intros el. rewrite (rm_document _ _ _ _ _ _ R2), (rm_document _ _ _ _ _ _ R1), HE.
    apply gone_from_either.
  - rewrite (rm_purged _ _ _ _ _ _ R2), (rm_purged _ _ _ _ _ _ R1). by rewrite app_assoc.
  - intros x Hx Hk. apply not_elem_of_app in Hx as [Hx1 Hx2].
    rewrite (rm_frame _ _ _ _ _ _ R2) by done. by apply R1.
  - intros x. rewrite (rm_element _ _ _ _ _ _ R2). apply R1.
  - intros p po Hp Hnot Hpo. apply not_elem_of_app in Hnot as [Hn1 Hn2].
    rewrite foldl_app.
    pose proof (rm_keep _ _ _ _ _ _ R1 p po Hp Hn1 Hpo) as Hp1.
    by rewrite (rm_keep _ _ _ _ _ _ R2 p _ Hp Hn2 Hp1).
  - intros x [Hx|Hx]%elem_of_app.
    + destruct (rm_nodes _ _ _ _ _ _ R1 x Hx) as (ob' & Hob & ? & ?).
      exists ob'. split; [|done]. rewrite (rm_frame _ _ _ _ _ _ R2); [done|by apply Hdisj|].
      intros Hk. by apply (Hkeep x).
    + by apply R2.
Qed.

Lemma removal_indices_ok c c' D order roots keep :
  indices_ok c → removal c c' D order roots keep → indices_ok c'.
Proof.
  intros Hok R. split; try apply R.
  intros el o Hel. rewrite (rm_byDom _ _ _ _ _ _ R) in Hel.
  case_decide; [done|]. rewrite (rm_element _ _ _ _ _ _ R). by apply Hok.
Qed.

Lemma Object3D_remove_other p o objs x :
  x ≠ p → x ≠ o → Object3D_remove p o objs !! x = objs !! x.
Proof.
  intros Hp Ho. unfold Object3D_remove.
  destruct (objs !! p) as [po|]; [|done]. case_decide; [|done].
  destruct (_ !! o) as [oo|] eqn:Hoo.
  - by rewrite !lookup_insert_ne.
  - by rewrite lookup_insert_ne.
Qed.

Lemma Object3D_remove_domEl p o objs x :
  Object3D_remove p o objs !! x ≫= domEl = objs !! x ≫= domEl.
Proof.
  unfold Object3D_remove.
  destruct (objs !! p) as [po|] eqn:Hpo; [|done]. case_decide; [|done].
  destruct (_ !! o) as [oo|] eqn:Hoo.
  - destruct (decide (x = o)) as [->|Hxo].
    + rewrite lookup_insert_eq. simpl.
      destruct (decide (o = p)) as [->|Hop].
      * rewrite lookup_insert_eq in Hoo. simplify_eq. by rewrite Hpo.
      * rewrite lookup_insert_ne in Hoo by done. by rewrite Hoo.
    + rewrite lookup_insert_ne by done.
      destruct (decide (x = p)) as [->|Hxp].
      * rewrite lookup_insert_eq. by rewrite Hpo.
      * by rewrite lookup_insert_ne.
  - destruct (decide (x = p)) as [->|Hxp].
    + rewrite lookup_insert_eq. by rewrite Hpo.
    + by rewrite lookup_insert_ne.
Qed.

Lemma Object3D_remove_parent p o objs po oo :
  p ≠ o → objs !! p = Some po → objs !! o = Some oo → o ∈ children po →
  Object3D_remove p o objs !! p
  = Some (mkObject3D (remove_first o (children po)) (parent po) (domEl po))
  ∧ Object3D_remove p o objs !! o = Some (mkObject3D (children oo) None (domEl oo)).
Proof.
  intros Hne Hp Ho Hin. unfold Object3D_remove. rewrite Hp.
  rewrite decide_True by done. rewrite lookup_insert_ne, Ho by done.
  split.
  - rewrite lookup_insert_ne by done. apply lookup_insert_eq.
  - apply lookup_insert_eq.
Qed.

Lemma removeConvict_unfold fuel o c :
  removeConvict (S fuel) (Some o) c
  = (ob ← objects c !! o;
     c ← forEach (remove_child fuel) (children ob) c;
     let c := mkCell (objects c)
                (fastRemove_arry (classyConvicts c) o)
                (fastRemove_arry (namedConvicts c) o)
                (fastRemove_arry (constantConvicts c) o)
                (_allConvictsByDom c) (document c) (purged c ++ [o]) in
     ob ← objects c !! o;
     let c :=
       match domEl ob with
       | Some el =>
           mkCell (objects c) (classyConvicts c) (namedConvicts c)
             (constantConvicts c) (delete el (_allConvictsByDom c))
             (delete el (document c)) (purged c)
       | None => c
       end in
     let c :=
       match parent ob with
       | Some p =>
           mkCell (Object3D_remove p o (objects c)) (classyConvicts c)
             (namedConvicts c) (constantConvicts c) (_allConvictsByDom c)
             (document c) (purged c)
       | None => c
       end in
     Some c).
Proof. done. Qed.

Section Removal.
Variable n : nat.
(** The statement for depth [n], assumed while the level above is proved. *)
Hypothesis removeConvict_below : ∀ c par o,
  well_formed n c par o → NoDup (subtree n c o) → indices_ok c → linked n c par o →
  ∃ c', removeConvict n (Some o) c = Some c'
        ∧ removal c c' (subtree n c o) (post_order n c o) [o] par.

Lemma remove_children ks : ∀ c o ob,
  objects c !! o = Some ob →
  (∀ k, k ∈ ks → k ∈ children ob) →
  Forall (well_formed n c (Some o)) ks →
  NoDup (flat_map (subtree n c) ks) →
  o ∉ flat_map (subtree n c) ks →
  indices_ok c →
  ∃ c', forEach (remove_child n) ks c = Some c'
        ∧ removal c c' (flat_map (subtree n c) ks) (flat_map (post_order n c) ks)
                  ks (Some o).
Proof.
  induction ks as [|k ks IH]; intros c o ob Hob Hin Hwf Hnodup Ho Hok.
  { exists c. split; [done|]. by apply removal_refl. }
  apply Forall_cons in Hwf as [Hk Hks]. simpl in Hnodup, Ho.
  apply NoDup_app in Hnodup as (Hnk & Hdisj & Hnks).
  apply not_elem_of_app in Ho as [Hok1 Hok2].
  (* the turn for [k] *)
  assert (Hstep : remove_child n k c = removeConvict n (Some k) c).
  { destruct (well_formed_nodes n c (Some o) k k Hk (subtree_root _ _ _ _ Hk))
      as (cob & Hcob & Hmap).
    unfold remove_child. rewrite Hcob. simpl.
    destruct (domEl cob) as [el|] eqn:Hel; [|done]. by rewrite (Hmap el). }
  destruct (removeConvict_below c (Some o) k Hk Hnk Hok) as (c1 & Hrun & R1).
  { split; [done|]. exists ob. split; [done|]. apply Hin. by left. }
  (* the state after it *)
  assert (Hob1 : objects c1 !! o
                 = Some (mkObject3D (remove_first k (children ob)) (parent ob) (domEl ob))).
  { by rewrite (rm_keep _ _ _ _ _ _ R1 o ob). }
  assert (Hagree : ∀ k' x, k' ∈ ks → x ∈ subtree n c k' →
                           objects c1 !! x = objects c !! x).
  { intros k' x Hk' Hx. apply (rm_frame _ _ _ _ _ _ R1).
    - intros Hxk. apply (Hdisj x Hxk). apply elem_of_flat_map. by exists k'.
    - intros [= ->]. apply Hok2. apply elem_of_flat_map. by exists k'. }
  assert (Hsame : flat_map (subtree n c1) ks = flat_map (subtree n c) ks
                  ∧ flat_map (post_order n c1) ks = flat_map (post_order n c) ks).
  { split; apply flat_map_agree; intros k' Hk';
      apply (subtree_agree n c c1 k'); intros x Hx; by apply (Hagree k'). }
  destruct Hsame as [Hsub Hpost].
  pose proof (proj1 (Forall_forall _ _) Hks) as Hks'.
  assert (Hks1 : Forall (well_formed n c1 (Some o)) ks).
  { rewrite Forall_forall. intros k' Hk'.
    apply (well_formed_agree n c c1); [by apply Hks'|by intros x Hx; apply (Hagree k')|].
    intros x el Hx Hel.
    destruct (well_formed_nodes n c (Some o) k' x (Hks' k' Hk') Hx) as (ox & Hox & Hmap).
    rewrite (rm_byDom _ _ _ _ _ _ R1). rewrite decide_False.
    { apply Hmap. by rewrite <- (element_of_lookup c x ox). }
    intros Hbad. unfold elements_of in Hbad.
    apply list_elem_of_omap in Hbad as (y & Hy & Hyel).
    destruct (well_formed_nodes n c (Some o) k y Hk Hy) as (oy & Hoy & Hmapy).
    rewrite (element_of_lookup c y oy Hoy) in Hyel.
    rewrite (element_of_lookup c x ox Hox) in Hel.
    pose proof (Hmap el Hel) as Hx1. pose proof (Hmapy el Hyel) as Hy1.
    assert (x = y) by congruence. subst y.
    apply (Hdisj x Hy). apply elem_of_flat_map. by exists k'. }
  destruct (IH c1 o _ Hob1) as (c2 & Hrun2 & R2).
  - intros k' Hk'. simpl. apply remove_first_other; [|apply Hin; by right].
    intros ->. apply (Hdisj k (subtree_root _ _ _ _ Hk)).
    apply elem_of_flat_map. exists k. split; [done|].
    by apply (subtree_root n c (Some o)), Hks'.
  - done.
  - by rewrite Hsub.
  - by rewrite Hsub.
  - by apply (removal_indices_ok c c1 _ _ _ _ Hok R1).
  - exists c2. split.
    { simpl. rewrite Hstep, Hrun. simpl. done. }
    rewrite Hsub, Hpost in R2.
    change (k :: ks) with ([k] ++ ks).
    apply (removal_trans c c1 c2); [done|done|..].
    + intros x Hx. by apply Hdisj.
    + by intros p [= <-].
Qed.

End Removal.

Lemma elements_of_cons c o D :
  elements_of c (o :: D)
  = match element_of c o with Some el => [el] | None => [] end ++ elements_of c D.
Proof. unfold elements_of. csimpl. by destruct (element_of c o). Qed.

Lemma delete_pruned {V} (m m1 : gmap nat V) (E : list nat) el0 :
  (∀ el, m1 !! el = if decide (el ∈ E) then None else m !! el) →
  ∀ el, delete el0 m1 !! el = if decide (el ∈ [el0] ++ E) then None else m !! el.
Proof.
  intros Hm el. simpl. destruct (decide (el0 = el)) as [->|Hne].
  - rewrite lookup_delete_eq. rewrite decide_True; [done|by left].
  - rewrite lookup_delete_ne, Hm by done.
    destruct (decide (el ∈ E)) as [Hin|Hnin].
    + rewrite decide_True; [done|by right].
    + rewrite decide_False; [done|]. by intros [?|?]%elem_of_cons.
Qed.

(** [removeConvict] on a well-formed subtree: it returns, and what it has
    done is the removal of exactly the nodes of the subtree, children
    first. *)
Lemma removeConvict_removal n : ∀ c par o,
  well_formed n c par o → NoDup (subtree n c o) → indices_ok c → linked n c par o →
  ∃ c', removeConvict n (Some o) c = Some c'
        ∧ removal c c' (subtree n c o) (post_order n c o) [o] par.
Proof.
  induction n as [|n IH]; intros c par o Hwf Hnd Hok Hlink; [done|].
  destruct Hwf as (ob & Hob & Hpar & Hdom & Hkids).
  cbn [subtree post_order] in *. rewrite (kids_lookup c o ob Hob) in *.
  apply NoDup_cons in Hnd as [Ho Hnd].
  destruct (remove_children n IH (children ob) c o ob Hob (fun k H => H) Hkids Hnd Ho Hok)
    as (c1 & Hrun & R1).
  set (Dk := flat_map (subtree n c) (children ob)) in *.
  assert (Hlinked : ∀ p, par = Some p →
            p ≠ o ∧ (p ∉ Dk) ∧ ∃ po, objects c !! p = Some po ∧ o ∈ children po).
  { intros p ->. destruct Hlink as [Hnot Hex]. cbn [subtree] in Hnot.
    rewrite (kids_lookup c o ob Hob) in Hnot.
    by apply not_elem_of_cons in Hnot as [? ?]. }
  clear Hlink.
  assert (Hob1 : objects c1 !! o = Some (mkObject3D [] (parent ob) (domEl ob))).
  { rewrite (rm_keep _ _ _ _ _ _ R1 o ob eq_refl Ho Hob). by rewrite splice_all. }
  set (objs' := match par with
                | Some p => Object3D_remove p o (objects c1)
                | None => objects c1
                end).
  set (byDom' := match domEl ob with
                 | Some el => delete el (_allConvictsByDom c1)
                 | None => _allConvictsByDom c1
                 end).
  set (doc' := match domEl ob with
               | Some el => delete el (document c1)
               | None => document c1
               end).
  exists (mkCell objs' (fastRemove_arry (classyConvicts c1) o)
            (fastRemove_arry (namedConvicts c1) o)
            (fastRemove_arry (constantConvicts c1) o)
            byDom' doc' (purged c1 ++ [o])).
  split.
  { rewrite removeConvict_unfold, Hob. simpl. rewrite Hrun. simpl.
    rewrite Hob1. simpl. unfold objs', byDom', doc'. rewrite <- Hpar.
    by destruct (domEl ob), (parent ob). }
  assert (Helt : element_of c o = domEl ob) by by apply element_of_lookup.
  assert (Hobjs_other : ∀ x, x ≠ o → Some x ≠ par → objs' !! x = objects c1 !! x).
  { intros x Hxo Hxp. unfold objs'. destruct par as [p|]; [|done].
    apply Object3D_remove_other; congruence. }
  split;
    cbn [objects classyConvicts namedConvicts constantConvicts
         _allConvictsByDom document purged].
  - apply pruned_self, R1.
  - apply pruned_self, R1.
  - apply pruned_self, R1.
  - intros el. rewrite elements_of_cons, Helt. unfold byDom'.
    destruct (domEl ob) as [el0|]; [|apply R1].
    apply delete_pruned, R1.
  - intros el. rewrite elements_of_cons, Helt. unfold doc'.
    destruct (domEl ob) as [el0|]; [|apply R1].
    apply delete_pruned, R1.
  - rewrite (rm_purged _ _ _ _ _ _ R1). by rewrite app_assoc.
  - intros x Hx Hxp. apply not_elem_of_cons in Hx as [Hxo Hx].
    rewrite Hobjs_other by done. apply R1; [done|congruence].
  - intros x. rewrite <- (rm_element _ _ _ _ _ _ R1 x).
    unfold element_of, objs'. simpl. destruct par as [p|]; [|done].
    apply Object3D_remove_domEl.
  - intros p po -> _ Hpo.
    destruct (Hlinked p eq_refl) as (Hpo' & Hp & po' & Hpo2 & Hin).
    assert (po' = po) as -> by congruence.
    assert (Hp1 : objects c1 !! p = Some po).
    { rewrite (rm_frame _ _ _ _ _ _ R1); [done|done|congruence]. }
    unfold objs'. simpl.
    by destruct (Object3D_remove_parent p o (objects c1) po _ Hpo' Hp1 Hob1 Hin) as [-> _].
  - intros x [->|Hx]%elem_of_cons.
    + unfold objs'. destruct par as [p|].
      * destruct (Hlinked p eq_refl) as (Hpo' & Hnot & po & Hpo & Hin).
        assert (Hp1 : objects c1 !! p = Some po).
        { rewrite (rm_frame _ _ _ _ _ _ R1); [done|done|congruence]. }
        destruct (Object3D_remove_parent p o (objects c1) po _ Hpo' Hp1 Hob1 Hin) as [_ ->].
        by eexists.
      * rewrite Hob1. eexists. split; [done|]. split; [done|]. simpl. by rewrite Hpar.
    + destruct (rm_nodes _ _ _ _ _ _ R1 x Hx) as (ob' & Hob' & ? & ?).
      exists ob'. split; [|done]. rewrite Hobjs_other; [done|..].
      * intros ->. by apply Ho.
      * intros <-. by destruct (Hlinked x eq_refl) as (_ & Hnot & _).
Qed.

Lemma post_order_perm n c o : post_order n c o ≡ₚ subtree n c o.
Proof.
  revert o. induction n as [|n IH]; intros o; [done|]. simpl.
  rewrite <- Permutation_cons_append. f_equiv.
  induction (kids c o) as [|k ks IHk]; simpl; [done|]. by rewrite IH, IHk.
Qed.



Lemma family_ok :
  well_formed 3 family (Some 0%nat) 10 ∧ NoDup (subtree 3 family 10)
  ∧ indices_ok family ∧ linked 3 family (Some 0%nat) 10.
Proof.
  split; [|split; [|split]].
  - exists (mkObject3D [11%nat; 12%nat] (Some 0%nat) (Some 1%nat)).
    split; [done|]. split; [done|]. split; [by intros el [= <-]|].
    repeat constructor.
    + exists (mkObject3D [13%nat] (Some 10%nat) (Some 2%nat)).
      split; [done|]. split; [done|]. split; [by intros el [= <-]|].
      repeat constructor.
      exists (mkObject3D [] (Some 11%nat) (Some 4%nat)).
      split; [done|]. split; [done|]. split; [by intros el [= <-]|]. constructor.
    + exists (mkObject3D [] (Some 10%nat) (Some 3%nat)).
      split; [done|]. split; [done|]. split; [by intros el [= <-]|]. constructor.
  - compute_done.
  - split; compute_done.
  - split; [compute_done|].
    exists (mkObject3D [10%nat] None None). split; [done|]. by left.
Qed.




(** *** Picking *)

Section PickingLayer.
Context `{Builtins}.
Variable _get_Equation : string -> number -> number.
Variables resolve_asset resolve_ref slot_value : string -> value.
Variable now : number.

(** Painting a declaration leaves the picking layer of the node alone. *)
Lemma apply_declaration_layer3 style _chosenOne acc rawProp :
  m_layer3 (apply_declaration _get_Equation resolve_asset resolve_ref slot_value now
              style _chosenOne acc rawProp).1
  = m_layer3 acc.1.
Proof.
  unfold apply_declaration. destruct acc as [object done].
  repeat case_match; simplify_eq; done.
Qed.

Lemma fold_declarations_layer3 style _chosenOne props acc :
  m_layer3 (fold_left (apply_declaration _get_Equation resolve_asset resolve_ref
                         slot_value now style _chosenOne) props acc).1
  = m_layer3 acc.1.
Proof.
  revert acc. induction props as [|p props IH]; intros acc; simpl; [done|].
  by rewrite IH, apply_declaration_layer3.
Qed.

(** After [_apply_rule] has run on a rule with a style, the node is on the
    picking layer exactly when the condition of the code holds. *)
Lemma _apply_rule_layer3 sheets style object _chosenOne :
  m_layer3 (_apply_rule _get_Equation resolve_asset resolve_ref slot_value now
              sheets (Some style) object _chosenOne).1.1
  = picking_condition sheets object.
Proof.
  unfold _apply_rule.
  pose proof (fold_declarations_layer3 style _chosenOne (style.*1)
    (mkMuse (m_name object) (m_domEl object) (m_domId object) (m_classList object)
            (m_extraParams object) (m_transition object) (m_animation object)
            (picking_condition sheets object) (m_animationRunning object), [])) as Hfold.
  destruct (fold_left _ _ _) as [object' done]. simpl in Hfold.
  repeat case_match; simplify_eq; done.
Qed.

End PickingLayer.

(** The ray caster returns nothing outside the picking layer. *)
Lemma insert_near_elem x y l : y ∈ insert_near x l ↔ y = x ∨ y ∈ l.
Proof.
  induction l as [|z l IH]; simpl; [apply elem_of_cons|].
  case_match; [apply elem_of_cons|]. rewrite !elem_of_cons, IH. tauto.
Qed.

Lemma intersectObjects_layer3 layer3 ray_meets scene o d :
  (o, d) ∈ intersectObjects layer3 ray_meets scene →
  layer3 o = true ∧ o ∈ scene ∧ ray_meets o = Some d.
Proof.
  unfold intersectObjects.
  assert (Hall : ∀ l : list (nat * Q), ∀ y, y ∈ foldr insert_near [] l ↔ y ∈ l).
  { induction l as [|z l IH]; intros y; simpl; [done|].
    rewrite insert_near_elem, elem_of_cons, IH. tauto. }
  rewrite Hall. intros (o' & Ho' & Hsome)%list_elem_of_omap.
  destruct (layer3 o') eqn:Hl; [|done].
  destruct (ray_meets o') as [d'|] eqn:Hm; [|done].
  simpl in Hsome. by simplify_eq.
Qed.

(** C6 at a node with an [onmouseenter] handler only.  The painter leaves
    the node off the picking layer, so a ray that meets it returns nothing;
    had the ray caster returned it, the pointer-move handler would have
    called its [onmouseenter]. *)
Lemma mouseenter_only_is_not_pickable :
  let painted :=
    (@_apply_rule Reference.dec_builtins (fun _ t => t) (fun _ => VUndefined)
       (fun _ => VUndefined) (fun _ => VUndefined) zero [] (Some []) shy_ball None).1.1 in
  hasAttribute (m_domEl shy_ball) "onmouseenter" = true
  ∧ m_layer3 painted = false
  ∧ intersectObjects (fun _ => m_layer3 painted) (fun _ => Some 1%Q) [7%nat] = []
  ∧ handler_calls (default_onCellPointerMove_method (Some (7%nat, (0%Q, 0%Q, 1%Q))) at_rest).1
    = [("onmouseenter", 7%nat); ("onmouseover", 7%nat)].
Proof. by vm_compute. Qed.

(** ** Further properties of utils.js *)

Lemma keyframes_fold_last name rules (m : gmap string CSSKeyframesRule) :
  fold_left
    (fun m rule => match rule with
                   | Keyframes r => <[kfs_name r := r]> m
                   | _ => m
                   end) rules m !! name
  = match last (keyframes_named name rules) with
    | Some r => Some r
    | None => m !! name
    end.
Proof.
  revert m. induction rules as [|rule rules IH]; intros m; [done|].
  simpl. rewrite IH. unfold keyframes_named. simpl.
  fold (keyframes_named name rules).
  destruct rule as [sel style|r|text]; simpl; try done.
  destruct (String.eqb_spec (kfs_name r) name) as [Heq|Hne].
  - destruct (keyframes_named name rules) as [|r' rs] eqn:Hrs; simpl.
    + subst name. by rewrite lookup_insert_eq.
    + destruct (last (r' :: rs)) eqn:Hl; [done|]. by apply last_None in Hl.
  - destruct (last (keyframes_named name rules)); [done|].
    by rewrite lookup_insert_ne.
Qed.

(** X1 (utils.js).  [getAnimationMap] returns nothing for the empty name;
    for any other name it returns the last [@keyframes] rule of that exact
    name in the readable style sheets, in document order: a later sequence
    replaces an earlier one of the same name, and a name that no sheet
    declares is not found. *)
Theorem getAnimationMap_last_wins :
  ∀ (sheets : list StyleSheet) (AnimName : string),
    getAnimationMap sheets AnimName
    = if decide (AnimName = "") then None
      else last (keyframes_named AnimName (all_rules sheets)).
Proof.
  intros sheets AnimName. unfold getAnimationMap, gatherKeyFrame_MAP.
  destruct (String.eqb_spec AnimName "") as [->|Hne]; [done|].
  rewrite decide_False by done. rewrite keyframes_fold_last.
  by destruct (last _).
Qed.

(** X2 (utils.js).  Once a load has resolved, its value is what the cache
    holds under the key: every later request for the name returns that value
    itself (not a promise) and issues no load for the name, whatever path is
    passed and whatever the style sheets declare.  That includes a load that
    resolved to [null]. *)
Theorem resolved_asset_is_served :
  ∀ (name : string) (c : AssetCache) (p : nat) (v : value),
    cache_ok c → reactions c !! p = Some name →
    ∀ decls path,
      ∃ c2, getAsset decls name path (settle p (Fulfilled v) c) = (v, c2)
            ∧ assetMap c2 !! name = Some (Loaded v)
            ∧ (∀ p', (length (issued c) ≤ p')%nat → reactions c2 !! p' ≠ Some name).
Proof.
  intros name c p v Hok Hp decls path.
  assert (Hmap : assetMap (settle p (Fulfilled v) c) !! name = Some (Loaded v)).
  { unfold settle. rewrite Hp. simpl. apply lookup_insert_eq. }
  destruct (getAsset_cached decls name path _ _ (settle_ok p (Fulfilled v) c Hok) Hmap)
    as (c2 & Hget & Hkept & Hnone).
  exists c2. split; [done|]. split; [done|].
  intros p' Hp'. apply Hnone. unfold settle. rewrite Hp. simpl. done.
Qed.

(** The load of the session of [ship_requested] resolves to a scene. *)
Lemma resolved_asset_witness :
  ∃ c2, getAsset [] "ship" (Some "other.glb")
          (settle 0 (Fulfilled (VObj (HostObj 9 false None))) ship_requested)
        = (VObj (HostObj 9 false None), c2)
        ∧ assetMap c2 !! "ship" = Some (Loaded (VObj (HostObj 9 false None)))
        ∧ (∀ p', (length (issued ship_requested) ≤ p')%nat →
                 reactions c2 !! p' ≠ Some "ship").
Proof.
  apply (resolved_asset_is_served "ship" ship_requested 0).
  - apply (getAsset_ok [] "ship" (Some "ship.glb") empty_cache). by right.
  - by vm_compute.
Defined.

(** X3 (utils.js).  A request for a name that is neither cached nor declared
    by a style sheet, made without a path (or with the empty path), returns
    [null]; it caches nothing under the name, so that a later request with a
    path can still load it. *)
Theorem missing_asset_without_path_is_null :
  ∀ (decls : list (string * string)) (name : string) (path : option string)
    (c : AssetCache),
    cache_ok c → assetMap c !! name = None → name ∉ decls.*1 →
    path_given path = None →
    getAsset decls name path c = (VNull, gatherAssetRules decls c)
    ∧ assetMap (gatherAssetRules decls c) !! name = None
    ∧ ∀ url, url ≠ "" →
        ∃ p c2, getAsset decls name (Some url) (gatherAssetRules decls c) = (VPromise p, c2)
                ∧ issued c2 = issued (gatherAssetRules decls c) ++ [url].
Proof.
  intros decls name path c Hok Hnone Hdecl Hpath.
  pose proof (gather_absent decls c name Hdecl Hnone) as Habs.
  split; [|split; [done|]].
  - rewrite getAsset_unfold. simpl.
    rewrite decide_False by by apply cache_ok_not_empty.
    by rewrite Habs, Hpath.
  - intros url Hurl.
    set (c1 := gatherAssetRules decls c) in *.
    assert (Hok1 : cache_ok c1) by by apply gather_ok.
    assert (Hagain : gatherAssetRules decls c1 = c1).
    { unfold c1. clear Habs Hdecl Hok1.
      assert (Hgen : ∀ ds c0, (∀ d, d ∈ ds → is_Some (assetMap c0 !! d.1)) →
                gatherAssetRules ds c0 = c0).
      { induction ds as [|d ds IH]; intros c0 Hall; [done|].
        rewrite gatherAssetRules_cons. unfold gather_step.
        destruct (Hall d) as [e He]; [by left|]. rewrite He.
        apply IH. intros d' Hd'. apply Hall. by right. }
      apply Hgen. intros d Hd.
      destruct (assetMap c !! d.1) as [e|] eqn:He.
      - exists e. by apply gather_keeps.
      - destruct (gather_loads decls c d.1) as (p & Hp & _); [|done|by eexists].
        apply list_elem_of_fmap. by exists d. }
    rewrite getAsset_unfold. cbv zeta.
    rewrite decide_False by by apply cache_ok_not_empty.
    rewrite Hagain, Habs.
    destruct url as [|a url]; [done|]. cbn [path_given].
    eexists _, _. split; [done|].
    unfold gather_step. cbn [fst snd]. by rewrite Habs.
Qed.

(** In the session of [ship_requested], a request for a name nobody
    declared. *)
Lemma missing_asset_witness :
  getAsset [] "boat" None ship_requested = (VNull, gatherAssetRules [] ship_requested)
  ∧ assetMap (gatherAssetRules [] ship_requested) !! "boat" = None
  ∧ ∀ url, url ≠ "" →
      ∃ p c2, getAsset [] "boat" (Some url) (gatherAssetRules [] ship_requested)
              = (VPromise p, c2)
              ∧ issued c2 = issued (gatherAssetRules [] ship_requested) ++ [url].
Proof.
  apply (missing_asset_without_path_is_null [] "boat" None ship_requested).
  - apply (getAsset_ok [] "ship" (Some "ship.glb") empty_cache). by right.
  - by vm_compute.
  - simpl. apply not_elem_of_nil.
  - reflexivity.
Defined.

Lemma seed_has_builtins c : has_builtins (seed_builtins c).
Proof.
  unfold has_builtins, seed_builtins, storeAssetValue, builtin. simpl.
  split; [|split; [|split]].
  - do 3 (rewrite lookup_insert_ne by done). apply lookup_insert_eq.
  - do 2 (rewrite lookup_insert_ne by done). apply lookup_insert_eq.
  - rewrite lookup_insert_ne by done. apply lookup_insert_eq.
  - apply lookup_insert_eq.
Qed.

Lemma gather_has_builtins decls c : has_builtins c → has_builtins (gatherAssetRules decls c).
Proof.
  intros (H0 & H1 & H2 & H3). repeat split; by apply gather_keeps.
Qed.

Lemma getAsset_has_builtins decls name path c :
  cache_ok c → has_builtins c → has_builtins (getAsset decls name path c).2.
Proof.
  intros Hok Hb. rewrite getAsset_unfold. cbv zeta.
  rewrite decide_False by by apply cache_ok_not_empty.
  pose proof (gather_has_builtins decls c Hb) as Hb1.
  destruct (assetMap (gatherAssetRules decls c) !! name) as [e|] eqn:He; [done|].
  destruct (path_given path) as [url|]; [|done]. simpl.
  change (gather_step (gatherAssetRules decls c) (name, url))
    with (gatherAssetRules [(name, url)] (gatherAssetRules decls c)).
  by apply gather_has_builtins.
Qed.

Lemma settle_has_builtins p how c :
  cache_ok c → has_builtins c → has_builtins (settle p how c).
Proof.
  intros Hok (H0 & H1 & H2 & H3). unfold settle.
  destruct (reactions c !! p) as [key|] eqn:Hp; [|done].
  destruct (cache_pending c Hok p key Hp) as [_ Hkey].
  assert (Hne : key ≠ "cube" ∧ key ≠ "sphere" ∧ key ≠ "plane" ∧ key ≠ "torus").
  { repeat split; intros ->; congruence. }
  destruct Hne as (? & ? & ? & ?).
  destruct how as [v|]; unfold has_builtins; simpl.
  - by rewrite !lookup_insert_ne by done.
  - by rewrite !lookup_delete_ne by done.
Qed.

Lemma asset_steps_keep ops c :
  cache_ok c → has_builtins c →
  cache_ok (foldl asset_step c ops) ∧ has_builtins (foldl asset_step c ops).
Proof.
  revert c. induction ops as [|op ops IH]; intros c Hok Hb; [done|].
  simpl. destruct op as [decls name path|p how]; simpl; apply IH.
  - apply getAsset_ok. by left.
  - by apply getAsset_has_builtins.
  - by apply settle_ok.
  - by apply settle_has_builtins.
Qed.

(** X4 (utils.js).  From the first request on, the four built-in geometries
    stay in the cache through every later request and every settlement of
    a load: no asset declaration of a style sheet, no path argument and no
    failed load replaces or evicts them, and a request for one of their
    names returns the built-in and issues no load. *)
Theorem builtin_assets_are_never_replaced :
  ∀ (decls0 : list (string * string)) (name0 : string) (path0 : option string)
    (ops : list asset_op),
    let c := foldl asset_step (getAsset decls0 name0 path0 empty_cache).2 ops in
    has_builtins c
    ∧ ∀ decls path,
        (getAsset decls "cube" path c).1 = builtin 0
        ∧ (getAsset decls "sphere" path c).1 = builtin 1
        ∧ (getAsset decls "plane" path c).1 = builtin 2
        ∧ (getAsset decls "torus" path c).1 = builtin 3
        ∧ ∀ name, name ∈ ["cube"; "sphere"; "plane"; "torus"] →
            ∀ p, (length (issued c) ≤ p)%nat →
                 reactions (getAsset decls name path c).2 !! p ≠ Some name.
Proof.
  intros decls0 name0 path0 ops c.
  assert (Hfirst : cache_ok (getAsset decls0 name0 path0 empty_cache).2
                   ∧ has_builtins (getAsset decls0 name0 path0 empty_cache).2).
  { split; [apply getAsset_ok; by right|].
    rewrite getAsset_unfold. cbv zeta.
    rewrite decide_True by done.
    pose proof (gather_has_builtins decls0 _ (seed_has_builtins empty_cache)) as Hb1.
    destruct (assetMap (gatherAssetRules decls0 (seed_builtins empty_cache)) !! name0)
      as [e|] eqn:He; [done|].
    destruct (path_given path0) as [url|]; [|done]. simpl.
    change (gather_step ?c0 (name0, url)) with (gatherAssetRules [(name0, url)] c0).
    by apply gather_has_builtins. }
  destruct Hfirst as [Hok0 Hb0].
  destruct (asset_steps_keep ops _ Hok0 Hb0) as [Hok Hb]. fold c in Hok, Hb.
  split; [done|]. intros decls path.
  destruct Hb as (H0 & H1 & H2 & H3).
  destruct (getAsset_cached decls "cube" path c _ Hok H0) as (c0 & Hg0 & _ & Hn0).
  destruct (getAsset_cached decls "sphere" path c _ Hok H1) as (c1 & Hg1 & _ & Hn1).
  destruct (getAsset_cached decls "plane" path c _ Hok H2) as (c2 & Hg2 & _ & Hn2).
  destruct (getAsset_cached decls "torus" path c _ Hok H3) as (c3 & Hg3 & _ & Hn3).
  split; [by rewrite Hg0|]. split; [by rewrite Hg1|].
  split; [by rewrite Hg2|]. split; [by rewrite Hg3|].
  intros name Hname p Hp.
  rewrite !elem_of_cons, elem_of_nil in Hname.
  destruct Hname as [->|[->|[->|[->|[]]]]].
  - rewrite Hg0. by apply Hn0.
  - rewrite Hg1. by apply Hn1.
  - rewrite Hg2. by apply Hn2.
  - rewrite Hg3. by apply Hn3.
Qed.

(** X5 (utils.js).  [fastRemove_arry] takes out exactly one occurrence of the
    item, the first: a list without the item is returned as it is;
    otherwise the result is one shorter and holds the same elements as
    before but for that one occurrence.  Order is not kept: the last element
    moves to the place of the removed one. *)
Theorem fastRemove_arry_removes_one_occurrence :
  ∀ (A : Type) (Heq : EqDecision A) (arry : list A) (item : A),
    (item ∉ arry → fastRemove_arry arry item = arry)
    ∧ (item ∈ arry →
         arry ≡ₚ item :: fastRemove_arry arry item
         ∧ length (fastRemove_arry arry item) = (length arry - 1)%nat)
    ∧ (∀ before after final,
         arry = before ++ item :: after ++ [final] → item ∉ before →
         fastRemove_arry arry item = before ++ final :: after).
Proof.
  intros A Heq arry item. split; [apply fastRemove_arry_absent|]. split.
  - intros Hin. pose proof (fastRemove_arry_perm arry item Hin) as Hperm.
    split; [done|]. apply Permutation_length in Hperm. simpl in Hperm. lia.
  - intros before after final -> Hout. by apply fastRemove_arry_middle.
Qed.

(** ** Further properties of Train.js *)

(** Where a frame lies with respect to the end of an animation. *)
Lemma Qcompare_div_one (x y : Q) : (0 < y)%Q → (Qred (x / y) ?= 1)%Q = (x ?= y)%Q.
Proof.
  intros Hy.
  rewrite (Qcompare_comp _ _ (Qred_correct (x / y)) 1%Q 1%Q (Qeq_refl 1%Q)).
  assert (Hy' : ¬ (y == 0)%Q).
  { intros Hz. rewrite Hz in Hy. by apply Qlt_irrefl in Hy. }
  destruct (Qcompare_spec x y) as [Heq|Hlt|Hgt].
  - apply Qeq_alt. rewrite Heq. unfold Qdiv. by apply Qmult_inv_r.
  - apply Qlt_alt. apply Qlt_shift_div_r; [done|]. by rewrite Qmult_1_l.
  - apply Qgt_alt. apply Qlt_shift_div_l; [done|]. by rewrite Qmult_1_l.
Qed.

Lemma frame_compare (f start d : Q) :
  (0 < d)%Q →
  ncompare (ndiv (nsub (Fin f) (Fin start)) (Fin d)) one = Some (f - start ?= d)%Q.
Proof.
  intros Hd. unfold nsub, nneg, nadd, ndiv.
  assert (Hnz : Qeq_bool d 0 = false).
  { destruct (Qeq_bool d 0) eqn:Hz; [|done]. apply Qeq_bool_eq in Hz.
    rewrite Hz in Hd. by apply Qlt_irrefl in Hd. }
  rewrite Hnz. unfold one, ncompare. f_equal.
  rewrite Qcompare_div_one by done.
  apply Qcompare_comp; [|reflexivity].
  rewrite Qred_correct. unfold Qminus. by rewrite Qred_correct.
Qed.

Lemma frame_before_end (f start d : Q) :
  (0 < d)%Q → (f - start < d)%Q →
  nge (ndiv (nsub (Fin f) (Fin start)) (Fin d)) one = false
  ∧ nlt (ndiv (nsub (Fin f) (Fin start)) (Fin d)) one = true.
Proof.
  intros Hd Hf. unfold nge, nlt. rewrite frame_compare by done.
  assert (Hc : (f - start ?= d)%Q = Lt) by by apply Qlt_alt.
  by rewrite Hc.
Qed.

Lemma frame_at_end (f start d : Q) :
  (0 < d)%Q → (d <= f - start)%Q →
  nge (ndiv (nsub (Fin f) (Fin start)) (Fin d)) one = true.
Proof.
  intros Hd Hf. unfold nge. rewrite frame_compare by done.
  destruct (f - start ?= d)%Q eqn:Hc; try done.
  apply Qlt_alt in Hc. by apply Qle_not_lt in Hf.
Qed.

Lemma nlt_one_one : nlt one one = false.
Proof. reflexivity. Qed.

(** X6 (Train.js).  An animation between two numbers or numeric arrays with
    a positive finite duration calls nothing when it is started.  In
    every frame before its end ([now - start < duration]) it calls [onUpdate]
    once with the value interpolated at the eased progress, and asks for the
    next frame.  In the first frame at or after its end it calls [onUpdate]
    with the value at eased progress [ease(1)], then [onComplete] with that
    same value, and asks for no further frame: later refreshes call
    nothing. *)
Theorem animation_runs_frame_by_frame :
  ∀ (_get_Equation : string -> number -> number) (timing : string)
    (from to : value) (start d : Q),
    number_or_array from → number_or_array to → (0 < d)%Q →
    ∃ a,
      animateLerp _get_Equation (Fin start) from to (VNum (Fin d))
        (Some (fun v t => [OnUpdate v t])) (Some (fun v => [OnComplete v])) timing
      = ([], Some a)
      ∧ (∀ frames,
           (∀ f, f ∈ frames → (f - start < d)%Q) →
           play a (Fin <$> frames)
           = update_at (_get_Equation timing) from to start d <$> frames)
      ∧ (∀ before f after,
           (∀ g, g ∈ before → (g - start < d)%Q) → (d <= f - start)%Q →
           play a (Fin <$> (before ++ f :: after))
           = (update_at (_get_Equation timing) from to start d <$> before)
             ++ [OnUpdate (lerpValue from to (_get_Equation timing one) lerpNumber)
                          (_get_Equation timing one);
                 OnComplete (lerpValue from to (_get_Equation timing one) lerpNumber)]).
Proof.
  intros ease timing from to start d Hfrom Hto Hd.
  eexists. split.
  { unfold animateLerp.
    apply isAnimatable_spec in Hfrom, Hto. rewrite Hfrom, Hto. simpl.
    apply nle_zero_not_positive in Hd. by rewrite Hd. }
  set (a := Animation _ _ _ _ _ _ _).
  assert (Hbefore : ∀ f, (f - start < d)%Q →
            step a (Fin f) = ([update_at (ease timing) from to start d f], true)).
  { intros f Hf. destruct (frame_before_end f start d Hd Hf) as [Hge Hlt].
    unfold step, a.
    cbn [an_start an_durationMs an_ease an_from an_to an_onUpdate an_onComplete].
    by rewrite Hge, Hlt. }
  assert (Hend : ∀ f, (d <= f - start)%Q →
            step a (Fin f)
            = ([OnUpdate (lerpValue from to (ease timing one) lerpNumber) (ease timing one);
                OnComplete (lerpValue from to (ease timing one) lerpNumber)], false)).
  { intros f Hf. pose proof (frame_at_end f start d Hd Hf) as Hge.
    unfold step, a.
    cbn [an_start an_durationMs an_ease an_from an_to an_onUpdate an_onComplete].
    by rewrite Hge, nlt_one_one. }
  assert (Hrun : ∀ frames rest,
            (∀ f, f ∈ frames → (f - start < d)%Q) →
            play a ((Fin <$> frames) ++ rest)
            = (update_at (ease timing) from to start d <$> frames) ++ play a rest).
  { induction frames as [|f frames IH]; intros rest Hall; [done|].
    simpl. rewrite Hbefore by (apply Hall; by left). simpl. f_equal.
    apply IH. intros g Hg. apply Hall. by right. }
  split.
  - intros frames Hall.
    rewrite <- (app_nil_r (Fin <$> frames)), Hrun by done. simpl. by rewrite app_nil_r.
  - intros before f after Hall Hf.
    rewrite fmap_app, Hrun by done. simpl. by rewrite Hend.
Qed.

(** A move from 0 to 10 in 100 ms, started at time 1000 with linear
    easing, with display refreshes at 1016, 1050, 1100 and 1116. *)
Lemma animation_frames_witness :
  ∃ a,
    animateLerp (fun _ t => t) (Fin 1000) (VNum (Fin 0)) (VNum (Fin 10)) (VNum (Fin 100))
      (Some (fun v t => [OnUpdate v t])) (Some (fun v => [OnComplete v])) "linear"
    = ([], Some a)
    ∧ play a (Fin <$> [1016; 1050; 1100; 1116]%Q)
      = [OnUpdate (VNum (Fin (8 # 5))) (Fin (4 # 25));
         OnUpdate (VNum (Fin 5)) (Fin (1 # 2));
         OnUpdate (VNum (Fin 10)) (Fin 1);
         OnComplete (VNum (Fin 10))].
Proof.
  destruct (animation_runs_frame_by_frame (fun _ t => t) "linear"
              (VNum (Fin 0)) (VNum (Fin 10)) 1000 100 I I eq_refl)
    as (a & Hstart & _ & Hend).
  exists a. split; [done|].
  refine (eq_trans (Hend [1016; 1050]%Q 1100%Q [1116%Q] _ _) _).
  - intros g Hg. rewrite !elem_of_cons, elem_of_nil in Hg.
    destruct Hg as [->|[->|[]]]; reflexivity.
  - by compute.
  - reflexivity.
Defined.

(** The iteration count of a parsed animation config is [infinite] or a
    positive finite number. *)
Lemma parseAnimationCSS_count `{Builtins} value cfg :
  parseAnimationCSS value = Some cfg →
  anim_iteration cfg = CountInfinite
  ∨ ∃ q, anim_iteration cfg = CountNumber (Fin q) ∧ (0 < q)%Q.
Proof.
  unfold parseAnimationCSS. intros Hp.
  destruct (String.eqb value ""); [done|].
  destruct (_ || _); [done|].
  destruct (split_ws _) as [|nameToken parts]; [done|].
  destruct (String.eqb nameToken ""); [done|].
  destruct (match parts with
            | [] => _
            | timeToken :: rest => _
            end) as [durationMs parts'].
  destruct (findIndex _ parts') as [i|].
  - injection Hp as <-. by left.
  - destruct (last parts') as [final|].
    + destruct (num_isFinite (parseInt10 final) && ngt (parseInt10 final) zero) eqn:Hc.
      * injection Hp as <-. right. apply andb_prop in Hc as [Hfin Hpos].
        destruct (parseInt10 final) as [q| | |]; try done.
        exists q. split; [done|]. apply nle_zero_not_positive.
        unfold ngt in Hpos. unfold nle.
        by destruct (ncompare (Fin q) zero) as [[]|].
      * injection Hp as <-. right. by exists 1%Q.
    + injection Hp as <-. right. by exists 1%Q.
Qed.

(** X7 (artist.js, Train.js).  The iteration count that [parseAnimationCSS]
    reads from an [--animation] value is never zero: a last token that is
    not a positive number is not taken as the count, which then is 1.  So
    whenever the key-frame run of a parsed config goes ahead, it goes
    through the sequence at least once, or forever. *)
Theorem parsed_animation_runs_at_least_once :
  ∀ (B : Builtins) (value : string) (cfg : AnimationCfg),
    parseAnimationCSS value = Some cfg →
    (iterations (anim_iteration cfg) = None
     ∨ ∃ n, iterations (anim_iteration cfg) = Some (S n))
    ∧ ∀ conv sheets segs times,
        KeyFrameAnimationLerp conv sheets true (Some cfg) = Run segs times →
        times ≠ Some 0%nat.
Proof.
  intros B value cfg Hp.
  assert (Hit : iterations (anim_iteration cfg) = None
                ∨ ∃ n, iterations (anim_iteration cfg) = Some (S n)).
  { destruct (parseAnimationCSS_count value cfg Hp) as [->|(q & -> & Hq)]; [by left|].
    right. unfold iterations.
    assert (Htruthy : num_truthy (Fin q) = true).
    { simpl. destruct (Qeq_bool q 0) eqn:Hz; [|done].
      apply Qeq_bool_eq in Hz. rewrite Hz in Hq. by apply Qlt_irrefl in Hq. }
    rewrite Htruthy.
    assert (Hceil : (0 < Qceiling q)%Z).
    { apply Z.lt_nge. intros Hle.
      pose proof (Qle_ceiling q) as Hqc.
      assert (Hc0 : (inject_Z (Qceiling q) <= 0)%Q).
      { change 0%Q with (inject_Z 0). by rewrite <- Zle_Qle. }
      apply (Qlt_irrefl 0). eapply Qlt_le_trans; [done|]. by eapply Qle_trans. }
    exists (Z.to_nat (Qceiling q) - 1)%nat. f_equal. lia. }
  split; [done|].
  intros conv sheets segs times Hrun. unfold KeyFrameAnimationLerp in Hrun.
  destruct (_ || _); [done|].
  destruct (getAnimationMap sheets (anim_name cfg)); [|done].
  injection Hrun as _ <-. destruct Hit as [->|[n ->]]; done.
Qed.

(** An animation whose last token is 0. *)
Lemma parsed_animation_witness :
  (iterations (CountNumber one) = None ∨ ∃ n, iterations (CountNumber one) = Some (S n))
  ∧ ∀ conv sheets segs times,
      KeyFrameAnimationLerp (H := Reference.dec_builtins) conv sheets true
        (Some (mkAnimationCfg "spin" (Fin 2000) (CountNumber one) "0"))
      = Run segs times →
      times ≠ Some 0%nat.
Proof.
  apply (parsed_animation_runs_at_least_once Reference.dec_builtins "Spin 2s 0"
           (mkAnimationCfg "spin" (Fin 2000) (CountNumber one) "0")).
  reflexivity.
Defined.

(** ** The painters (artist.js) *)

Section PainterFacts.
Context `{Builtins}.
Variable _get_Equation : string -> number -> number.
Variable sheets : list StyleSheet.
Variable around : nat -> surroundings.
Variable inline : Element -> declarations.

(** Painting a declaration changes the transition and the animation config
    of a node, and nothing else of it. *)
Lemma apply_declaration_frame asset ref slot now style _chosenOne acc rawProp :
  let object := acc.1 in
  let object' := (apply_declaration _get_Equation asset ref slot now
                    style _chosenOne acc rawProp).1 in
  same_identity object object'
  ∧ m_animationRunning object' = m_animationRunning object.
Proof.
  unfold apply_declaration, same_identity. destruct acc as [object done].
  repeat case_match; simplify_eq; done.
Qed.

Lemma fold_declarations_frame asset ref slot now style _chosenOne props acc :
  let object := acc.1 in
  let object' := (fold_left (apply_declaration _get_Equation asset ref slot now
                               style _chosenOne) props acc).1 in
  same_identity object object'
  ∧ m_animationRunning object' = m_animationRunning object.
Proof.
  revert acc. induction props as [|p props IH]; intros acc; simpl; [done|].
  destruct (IH (apply_declaration _get_Equation asset ref slot now style _chosenOne acc p))
    as ((? & ? & ? & ? & ?) & ?).
  destruct (apply_declaration_frame asset ref slot now style _chosenOne acc p)
    as ((? & ? & ? & ? & ?) & ?).
  unfold same_identity. repeat split; congruence.
Qed.

(** What [_apply_rule] keeps, and when it starts a key-frame run. *)
Lemma _apply_rule_frame asset ref slot now style object _chosenOne :
  let res := _apply_rule _get_Equation asset ref slot now sheets (Some style)
               object _chosenOne in
  same_identity object res.1.1
  ∧ m_animationRunning res.1.1 = m_animationRunning object || res.2
  ∧ (m_animationRunning object = true → res.2 = false).
Proof.
  unfold _apply_rule.
  pose proof (fold_declarations_frame asset ref slot now style _chosenOne (style.*1)
    (mkMuse (m_name object) (m_domEl object) (m_domId object) (m_classList object)
            (m_extraParams object) (m_transition object) (m_animation object)
            (picking_condition sheets object) (m_animationRunning object), [])) as Hfold.
  destruct (fold_left _ _ _) as [object' done]. simpl in Hfold.
  destruct Hfold as [Hid Hrun]. simpl.
  destruct (m_animation object') as [cfg|]; simpl.
  - destruct (m_animationRunning object') eqn:Hr; simpl.
    + split; [done|]. rewrite <- Hrun. by rewrite Hr.
    + split; [done|]. rewrite <- Hrun. done.
  - split; [done|]. rewrite <- Hrun. split; [by rewrite orb_false_r|done].
Qed.

Lemma picking_condition_identity m m' :
  same_identity m m' → picking_condition sheets m' = picking_condition sheets m.
Proof.
  intros (Hn & He & Hi & Hc & _).
  unfold picking_condition, hasClassPseudoRule, getObjectClassSelectors.
  by rewrite Hn, He, Hi, Hc.
Qed.

Lemma same_identity_refl m : same_identity m m.
Proof. done. Qed.

Lemma same_identity_trans m1 m2 m3 :
  same_identity m1 m2 → same_identity m2 m3 → same_identity m1 m3.
Proof. unfold same_identity. intuition congruence. Qed.

Lemma starts_app l1 l2 : starts (l1 ++ l2) = (starts l1 + starts l2)%nat.
Proof. unfold starts. by rewrite filter_app, length_app. Qed.

Lemma paints_refl st : paints sheets st st.
Proof.
  exists []. rewrite app_nil_r. split; [done|]. split; [done|].
  split; [done|]. split; [done|]. split.
  - by rewrite orb_false_r.
  - unfold starts. simpl. lia.
Qed.

Lemma paints_trans st1 st2 st3 :
  paints sheets st1 st2 → paints sheets st2 st3 → paints sheets st1 st3.
Proof.
  intros (n1 & Hl1 & Hid1 & Hnil1 & Hlay1 & Hrun1 & Hc1)
         (n2 & Hl2 & Hid2 & Hnil2 & Hlay2 & Hrun2 & Hc2).
  exists (n1 ++ n2). split; [by rewrite Hl2, Hl1, app_assoc|].
  split; [by eapply same_identity_trans|]. split; [|split; [|split]].
  - intros [-> ->]%app_eq_nil. rewrite Hnil2, Hnil1; done.
  - intros Hne. destruct n2 as [|a n2].
    + rewrite Hnil2 by done. apply Hlay1. by rewrite app_nil_r in Hne.
    + rewrite Hlay2 by done. by apply picking_condition_identity.
  - rewrite Hrun2, Hrun1, starts_app.
    destruct (m_animationRunning st1.1); simpl; [done|].
    repeat case_bool_decide; try done; lia.
  - rewrite starts_app. rewrite Hrun1 in Hc2.
    destruct (m_animationRunning st1.1); simpl in *; [lia|].
    case_bool_decide; simpl in *; lia.
Qed.

Lemma paints_foldl {A} (f : Muse * list applied → A → Muse * list applied) l st :
  (∀ st x, paints sheets st (f st x)) → paints sheets st (foldl f st l).
Proof.
  intros Hf. revert st. induction l as [|x l IH]; intros st; [apply paints_refl|].
  simpl. eapply paints_trans; [apply Hf|apply IH].
Qed.

Lemma apply_if_found_paints k0 rule _chosenOne st :
  paints sheets st (apply_if_found _get_Equation sheets around k0 rule _chosenOne st).
Proof.
  unfold apply_if_found. destruct rule as [style|]; [|apply paints_refl].
  destruct st as [object log]. cbn [fst snd].
  pose proof (_apply_rule_frame (su_asset (around (k0 + length log)))
    (su_ref (around (k0 + length log))) (su_slot (around (k0 + length log)))
    (su_now (around (k0 + length log))) style object _chosenOne) as Hframe.
  pose proof (_apply_rule_layer3 _get_Equation (su_asset (around (k0 + length log)))
    (su_ref (around (k0 + length log))) (su_slot (around (k0 + length log)))
    (su_now (around (k0 + length log))) sheets style object _chosenOne) as Hlayer.
  destruct (_apply_rule _ _ _ _ _ _ _ _ _) as [[object' done] started].
  simpl in Hframe, Hlayer. destruct Hframe as (Hid & Hrun & Hstart).
  exists [Applied style _chosenOne done started]. cbn [fst snd].
  split; [done|]. split; [done|]. split; [done|]. split; [done|].
  assert (Hs : starts [Applied style _chosenOne done started]
               = if started then 1%nat else 0%nat).
  { unfold starts. destruct started.
    - by rewrite filter_cons_True by done.
    - by rewrite filter_cons_False by done. }
  rewrite Hs, Hrun. destruct started; simpl.
  - split; [done|].
    destruct (m_animationRunning object); [by specialize (Hstart eq_refl)|lia].
  - split; [done|]. lia.
Qed.

(** A painter that is put together from guarded calls of [_apply_rule]. *)
Ltac paints_tac :=
  cbv beta;
  lazymatch goal with
  | |- paints _ ?st ?st => apply paints_refl
  | |- paints _ ?st (apply_if_found _ _ _ _ _ _ ?st') =>
      apply (paints_trans _ st' _); [paints_tac|apply apply_if_found_paints]
  | |- paints _ ?st (foldl _ ?st' _) =>
      apply (paints_trans _ st' _); [paints_tac|apply paints_foldl; intros; paints_tac]
  | |- paints _ _ (if ?b then _ else _) => destruct b; paints_tac
  | |- paints _ _ (match ?x with _ => _ end) => destruct x; paints_tac
  end.

Lemma paintSpecificMuse_paints k0 st :
  paints sheets st (paintSpecificMuse _get_Equation sheets around inline k0 st).
Proof. unfold paintSpecificMuse. cbv zeta. paints_tac. Qed.

Lemma paintConstantMuse_paints k0 st :
  paints sheets st (paintConstantMuse _get_Equation sheets around k0 st).
Proof. unfold paintConstantMuse. cbv zeta. paints_tac. Qed.

End PainterFacts.

Lemma foldl_fixed {A S} (f : S → A → S) (l : list A) (st : S) :
  (∀ x, x ∈ l → f st x = st) → foldl f st l = st.
Proof.
  induction l as [|x l IH]; intros Hf; [done|]. simpl.
  rewrite Hf by by left. apply IH. intros y Hy. apply Hf. by right.
Qed.


(** X9 (artist.js).  One run of [paintSpecificMuse] starts the key-frame run
    of a node at most once, however many of the applied rules carry an
    [--animation]; on a node whose run is under way it starts none; and the
    node is marked as running afterwards exactly when it was before or a
    run was started.  The same holds for [paintConstantMuse]. *)
Theorem painting_starts_a_keyframe_run_at_most_once :
  ∀ (B : Builtins) (_get_Equation : string -> number -> number)
    (sheets : list StyleSheet) (around : nat -> surroundings)
    (inline : Element -> declarations) (k0 : nat) (muse : Muse),
    let full := paintSpecificMuse _get_Equation sheets around inline k0 (muse, []) in
    let constant := paintConstantMuse _get_Equation sheets around k0 (muse, []) in
    ((starts full.2 ≤ 1)%nat
     ∧ (m_animationRunning muse = true → starts full.2 = 0%nat)
     ∧ m_animationRunning full.1
       = m_animationRunning muse || bool_decide (starts full.2 ≠ 0%nat))
    ∧ ((starts constant.2 ≤ 1)%nat
       ∧ (m_animationRunning muse = true → starts constant.2 = 0%nat)
       ∧ m_animationRunning constant.1
         = m_animationRunning muse || bool_decide (starts constant.2 ≠ 0%nat)).
Proof.
  intros B ease sheets around inline k0 muse full constant.
  destruct (paintSpecificMuse_paints ease sheets around inline k0 (muse, []))
    as (new & Hlog & _ & _ & _ & Hrun & Hcount).
  destruct (paintConstantMuse_paints ease sheets around k0 (muse, []))
    as (new' & Hlog' & _ & _ & _ & Hrun' & Hcount').
  fold full in Hlog, Hrun. fold constant in Hlog', Hrun'.
  simpl in Hlog, Hrun, Hcount, Hlog', Hrun', Hcount'.
  rewrite Hlog, Hlog'. split.
  - split; [by destruct (m_animationRunning muse); lia|].
    split; [|done]. intros Hr. rewrite Hr in Hcount. lia.
  - split; [by destruct (m_animationRunning muse); lia|].
    split; [|done]. intros Hr. rewrite Hr in Hcount'. lia.
Qed.

(** Painting one node of a host leaves the others alone. *)
Lemma on_node_other paint (o' o : nat) (cv : canvas) :
  o ≠ o' →
  (on_node paint o' cv).1 !! o = cv.1 !! o
  ∧ ∀ a, (o, a) ∈ (on_node paint o' cv).2 → (o, a) ∈ cv.2.
Proof.
  intros Hne. unfold on_node. destruct (cv.1 !! o') as [muse|]; [|done].
  destruct (paint (length cv.2) (muse, [])) as [muse' log]. simpl.
  split; [by rewrite lookup_insert_ne|].
  intros a [Hin|Hin]%elem_of_app; [done|].
  apply list_elem_of_fmap in Hin as (a' & [= ? ?] & _). congruence.
Qed.

(** A painter that makes no call on a node leaves the host as it is. *)
Lemma on_node_idle paint (o : nat) (cv : canvas) muse :
  cv.1 !! o = Some muse → paint (length cv.2) (muse, []) = (muse, []) →
  (on_node paint o cv).1 !! o = cv.1 !! o ∧ (on_node paint o cv).2 = cv.2.
Proof.
  intros Hm Hp. unfold on_node. rewrite Hm, Hp. simpl.
  by rewrite lookup_insert_eq, app_nil_r.
Qed.

(** X10 (artist.js).  [paintExtraCell] repaints only nodes that carry a
    pseudo-state flag and are listed in the class index or the id index: a
    node in neither index, and a node whose flag list is empty, is left as
    it was, and no call of [_apply_rule] is made on it. *)
Theorem paintExtraCell_paints_only_flagged_nodes :
  ∀ (B : Builtins) (_get_Equation : string -> number -> number)
    (sheets : list StyleSheet) (around : nat -> surroundings)
    (cell : Cell) (cv : canvas) (o : nat),
    let cv' := paintExtraCell _get_Equation sheets around cell cv in
    ((o ∉ classyConvicts cell) ∧ (o ∉ namedConvicts cell) →
       cv'.1 !! o = cv.1 !! o ∧ ∀ a, (o, a) ∈ cv'.2 → (o, a) ∈ cv.2)
    ∧ (∀ muse, cv.1 !! o = Some muse → m_extraParams muse = [] →
         cv'.1 !! o = Some muse ∧ ∀ a, (o, a) ∈ cv'.2 → (o, a) ∈ cv.2).
Proof.
  intros B ease sheets around cell cv o cv'.
  assert (Hgen : ∀ (paint : nat → Muse * list applied → Muse * list applied) l c0,
            (o ∉ l ∨ ∀ muse k, c0.1 !! o = Some muse → paint k (muse, []) = (muse, [])) →
            (foldl (fun cv obj => on_node paint obj cv) c0 l).1 !! o = c0.1 !! o
            ∧ ∀ a, (o, a) ∈ (foldl (fun cv obj => on_node paint obj cv) c0 l).2 →
                   (o, a) ∈ c0.2).
  { intros paint l. induction l as [|obj l IH]; intros c0 Hcase; [done|]. simpl.
    assert (Hstep : (on_node paint obj c0).1 !! o = c0.1 !! o
                    ∧ ∀ a, (o, a) ∈ (on_node paint obj c0).2 → (o, a) ∈ c0.2).
    { destruct (decide (o = obj)) as [->|Hne]; [|by apply on_node_other].
      destruct Hcase as [Hout|Hidle]; [by destruct Hout; left|].
      destruct (c0.1 !! obj) as [muse|] eqn:Hm.
      - destruct (on_node_idle paint obj c0 muse Hm (Hidle muse _ eq_refl)) as [H1 H2].
        rewrite H1, H2. by rewrite Hm.
      - unfold on_node. by rewrite Hm. }
    destruct Hstep as [Hs1 Hs2].
    destruct (IH (on_node paint obj c0)) as [H1 H2].
    { destruct Hcase as [Hout|Hidle]; [left|right].
      - intros Hin. apply Hout. by right.
      - intros muse k Hm. apply Hidle. by rewrite <- Hs1. }
    split; [by rewrite H1|]. intros a Ha. by apply Hs2, H2. }
  unfold cv', paintExtraCell. cbv zeta.
  set (classy := fun (k0 : nat) (st : Muse * list applied) => foldl _ st (m_extraParams st.1)).
  set (named := fun (k0 : nat) (st : Muse * list applied) =>
                  if String.eqb (m_domId st.1) "" then st else _).
  split.
  - intros [Hc Hn].
    destruct (Hgen classy (classyConvicts cell) cv (or_introl Hc)) as [H1 H2].
    destruct (Hgen named (namedConvicts cell)
                (foldl (fun cv obj => on_node classy obj cv) cv (classyConvicts cell))
                (or_introl Hn)) as [H3 H4].
    split; [by rewrite H3|]. intros a Ha. by apply H2, H4.
  - intros muse Hm Hflags.
    destruct (Hgen classy (classyConvicts cell) cv) as [H1 H2].
    { right. intros muse' k Hm'. assert (muse' = muse) as -> by congruence.
      unfold classy. cbn [fst]. by rewrite Hflags. }
    destruct (Hgen named (namedConvicts cell)
                (foldl (fun cv obj => on_node classy obj cv) cv (classyConvicts cell)))
      as [H3 H4].
    { right. intros muse' k Hm'. rewrite H1 in Hm'.
      assert (muse' = muse) as -> by congruence.
      unfold named. cbn [fst]. rewrite Hflags. by destruct (String.eqb _ _). }
    split; [by rewrite H3, H1|]. intros a Ha. by apply H2, H4.
Qed.

(** ** The button handlers and the flags (NoScope.js) *)

Lemma addFlag_spec arr flag x : x ∈ addFlag arr flag ↔ x ∈ arr ∨ x = flag.
Proof.
  unfold addFlag. case_bool_decide as Hin.
  - split; [by left|]. by intros [?| ->].
  - rewrite elem_of_app, elem_of_cons, elem_of_nil. tauto.
Qed.

Lemma delFlag_subset arr flag x : x ∈ delFlag arr flag → x ∈ arr.
Proof. apply fastRemove_arry_subset. Qed.

Lemma delFlag_other arr flag x : x ≠ flag → x ∈ arr → x ∈ delFlag arr flag.
Proof. apply fastRemove_arry_other. Qed.

(** The flags and the last hit after a pointer move. *)
Lemma pointer_move_flags hitResult cell o :
  focusedCamera cell = true →
  flags_of (default_onCellPointerMove_method hitResult cell).2 o
  = match hitResult with
    | Some (hit, _) =>
        if decide (o = hit) then addFlag (flags_of cell o) ":hover"
        else if decide (_last_cast_caught cell = Some o)
             then delFlag (flags_of cell o) ":hover"
             else flags_of cell o
    | None =>
        if decide (_last_cast_caught cell = Some o)
        then delFlag (flags_of cell o) ":hover"
        else flags_of cell o
    end.
Proof.
  intros Hcam. destruct hitResult as [[hit pt]|].
  - destruct (_last_cast_caught cell) as [old|] eqn:Hlast.
    + destruct (decide (hit = old)) as [->|Hne].
      * rewrite (pointer_move_same cell old pt Hcam Hlast). unfold flags_of. simpl.
        destruct (decide (o = old)) as [->|Ho].
        -- by rewrite lookup_insert_eq.
        -- rewrite lookup_insert_ne by done. rewrite decide_False; [done|congruence].
      * rewrite (pointer_move_change cell old hit pt Hcam Hlast Hne). unfold flags_of. simpl.
        destruct (decide (o = hit)) as [->|Ho].
        -- rewrite lookup_insert_eq. by rewrite lookup_insert_ne.
        -- rewrite lookup_insert_ne by done.
           destruct (decide (Some old = Some o)) as [[= ->]|Hold].
           ++ by rewrite lookup_insert_eq.
           ++ rewrite lookup_insert_ne; [done|congruence].
    + rewrite (pointer_move_first cell hit pt Hcam Hlast). unfold flags_of. simpl.
      destruct (decide (o = hit)) as [->|Ho].
      * by rewrite lookup_insert_eq.
      * by rewrite lookup_insert_ne.
  - destruct (_last_cast_caught cell) as [old|] eqn:Hlast.
    + rewrite (pointer_move_off cell old Hcam Hlast). unfold flags_of. simpl.
      destruct (decide (Some old = Some o)) as [[= ->]|Hold].
      * by rewrite lookup_insert_eq.
      * rewrite lookup_insert_ne; [done|congruence].
    + unfold default_onCellPointerMove_method. by rewrite Hcam, Hlast.
Qed.

Lemma pointer_move_last hitResult cell :
  focusedCamera cell = true →
  _last_cast_caught (default_onCellPointerMove_method hitResult cell).2 = fst <$> hitResult.
Proof.
  intros Hcam. destruct hitResult as [[hit pt]|].
  - destruct (_last_cast_caught cell) as [old|] eqn:Hlast.
    + destruct (decide (hit = old)) as [->|Hne].
      * by rewrite (pointer_move_same cell old pt Hcam Hlast).
      * by rewrite (pointer_move_change cell old hit pt Hcam Hlast Hne).
    + by rewrite (pointer_move_first cell hit pt Hcam Hlast).
  - destruct (_last_cast_caught cell) as [old|] eqn:Hlast.
    + by rewrite (pointer_move_off cell old Hcam Hlast).
    + unfold default_onCellPointerMove_method. by rewrite Hcam, Hlast.
Qed.

Lemma pointer_move_blind hitResult cell :
  focusedCamera cell = false →
  default_onCellPointerMove_method hitResult cell = ([], cell).
Proof. intros Hcam. unfold default_onCellPointerMove_method. by rewrite Hcam. Qed.

Lemma button_last ev cell :
  (∀ h, ev ≠ MouseMove h) →
  _last_cast_caught (listener ev cell).2 = _last_cast_caught cell.
Proof.
  intros Hev. destruct ev as [h| | | | |]; [by destruct (Hev h)|..]; simpl;
    unfold default_onCellClick_method, default_onCellMouseDown_method,
      default_onCellMouseUp_method, default_onCellDoubleClick_method,
      default_onCellContextMenu_method;
    by destruct (_last_cast_caught cell) eqn:Hlast; simpl.
Qed.

Lemma button_flags ev cell o :
  (∀ h, ev ≠ MouseMove h) →
  flags_of (listener ev cell).2 o
  = if decide (_last_cast_caught cell = Some o) then flag_change ev (flags_of cell o)
    else flags_of cell o.
Proof.
  intros Hev. destruct ev as [h| | | | |]; [by destruct (Hev h)|..]; simpl;
    unfold default_onCellClick_method, default_onCellMouseDown_method,
      default_onCellMouseUp_method, default_onCellDoubleClick_method,
      default_onCellContextMenu_method;
    destruct (_last_cast_caught cell) as [hit|] eqn:Hlast; simpl;
    rewrite ?flags_of_set; repeat case_decide; by simplify_eq.
Qed.

Lemma flag_change_nodup ev arr : NoDup arr → NoDup (flag_change ev arr).
Proof.
  destruct ev; simpl; auto using addFlag_nodup, delFlag_nodup.
Qed.

Lemma flag_change_elem ev arr x :
  x ∈ flag_change ev arr → x ∈ arr ∨ x = ":focus" ∨ x = ":active".
Proof.
  destruct ev; simpl; rewrite ?addFlag_spec; try tauto.
  intros ?%delFlag_subset. tauto.
Qed.

Lemma flag_change_keeps ev arr x :
  x ≠ ":active" → x ∈ arr → x ∈ flag_change ev arr.
Proof.
  intros Hx Hin. destruct ev; simpl; rewrite ?addFlag_spec; try tauto.
  by apply delFlag_other.
Qed.

(** Every listener keeps the invariant of the flags. *)
Lemma listener_flags_inv ev cell : flags_inv cell → flags_inv (listener ev cell).2.
Proof.
  intros (Hnodup & Hhover & Hknown).
  destruct ev as [hitResult| | | | |].
  1: { simpl. destruct (focusedCamera cell) eqn:Hcam;
         [|by rewrite pointer_move_blind].
       split; [|split].
       - intros o. rewrite pointer_move_flags by done.
         destruct hitResult as [[hit pt]|]; repeat case_decide;
           auto using addFlag_nodup, delFlag_nodup.
       - intros o. rewrite pointer_move_flags, pointer_move_last by done.
         destruct hitResult as [[hit pt]|]; simpl.
         + destruct (decide (o = hit)) as [->|Ho]; [done|].
           case_decide as Hl.
           * intros Hin. by destruct (delFlag_gone (flags_of cell o) ":hover" (Hnodup o)).
           * intros Hin. by destruct Hl; apply Hhover.
         + case_decide as Hl.
           * intros Hin. by destruct (delFlag_gone (flags_of cell o) ":hover" (Hnodup o)).
           * intros Hin. by destruct Hl; apply Hhover.
       - intros o f. rewrite pointer_move_flags by done.
         destruct hitResult as [[hit pt]|]; repeat case_decide;
           rewrite ?addFlag_spec; try apply Hknown.
         + intros [?| ->]; [by apply (Hknown o)|by left].
         + intros ?%delFlag_subset. by apply (Hknown o).
         + intros ?%delFlag_subset. by apply (Hknown o). }
  all: split; [|split].
  all: try (intros o; rewrite button_flags by done; case_decide;
            by auto using flag_change_nodup).
  all: try (intros o; rewrite button_flags, button_last by done; case_decide as Hl;
            [done|by apply Hhover]).
  all: intros o f; rewrite button_flags by done; case_decide; [|by apply Hknown];
    intros [?|[->| ->]]%flag_change_elem;
    [by apply (Hknown o)|by right; left|by right; right; left].
Qed.

Lemma listen_cons ev evs cell :
  (listen (ev :: evs) cell).2 = (listen evs (listener ev cell).2).2.
Proof.
  simpl. destruct (listener ev cell) as [out cell1]. simpl.
  by destruct (listen evs cell1).
Qed.

Lemma listen_nil cell : (listen [] cell).2 = cell.
Proof. done. Qed.

Lemma listen_flags_inv evs cell : flags_inv cell → flags_inv (listen evs cell).2.
Proof.
  revert cell. induction evs as [|ev evs IH]; intros cell Hinv; [done|].
  rewrite listen_cons. by apply IH, listener_flags_inv.
Qed.

(** X11 (NoScope.js, cell.js).  Whatever pointer events a freshly scanned host
    receives, in whatever order: no flag list ever holds a flag twice, a node
    carries [:hover] only while it is the last hit (so at most one node does),
    and no flag other than [:hover], [:focus] and [:active] is ever set. *)
Theorem pointer_events_keep_flags_consistent :
  ∀ (camera : bool) (evs : list pointer_event),
    let cell := (listen evs (fresh_picker camera)).2 in
    (∀ o, NoDup (flags_of cell o))
    ∧ (∀ o, ":hover" ∈ flags_of cell o → _last_cast_caught cell = Some o)
    ∧ (∀ o1 o2, ":hover" ∈ flags_of cell o1 → ":hover" ∈ flags_of cell o2 → o1 = o2)
    ∧ (∀ o f, f ∈ flags_of cell o → f = ":hover" ∨ f = ":focus" ∨ f = ":active").
Proof.
  intros camera evs cell.
  assert (Hinv : flags_inv cell).
  { apply listen_flags_inv. split; [|split].
    - intros o. unfold flags_of, fresh_picker. simpl. rewrite lookup_empty. constructor.
    - intros o. unfold flags_of, fresh_picker. simpl. rewrite lookup_empty.
      by intros ?%elem_of_nil.
    - intros o f. unfold flags_of, fresh_picker. simpl. rewrite lookup_empty.
      by intros ?%elem_of_nil. }
  destruct Hinv as (Hnodup & Hhover & Hknown).
  split; [done|]. split; [done|]. split.
  - intros o1 o2 H1%Hhover H2%Hhover. congruence.
  - intros o f Hf%Hknown. rewrite !elem_of_cons, elem_of_nil in Hf. tauto.
Qed.

(** No listener takes [:focus] away. *)
Lemma listener_keeps_focus ev cell o :
  ":focus" ∈ flags_of cell o → ":focus" ∈ flags_of (listener ev cell).2 o.
Proof.
  intros Hin. destruct ev as [hitResult| | | | |].
  1: { simpl. destruct (focusedCamera cell) eqn:Hcam;
         [|by rewrite pointer_move_blind].
       rewrite pointer_move_flags by done.
       destruct hitResult as [[hit pt]|]; repeat case_decide;
         rewrite ?addFlag_spec; auto; by apply delFlag_other. }
  all: rewrite button_flags by done; case_decide; [|done];
    by apply flag_change_keeps.
Qed.

Lemma listen_keeps_focus evs cell o :
  ":focus" ∈ flags_of cell o → ":focus" ∈ flags_of (listen evs cell).2 o.
Proof.
  revert cell. induction evs as [|ev evs IH]; intros cell Hin; [done|].
  rewrite listen_cons. by apply IH, listener_keeps_focus.
Qed.

(** X12 (NoScope.js).  A click or a double click sets [:focus] on the node
    under the pointer, and nothing that follows takes it away again: after
    any further pointer events the node still carries [:focus]. *)
Theorem focus_is_never_cleared :
  ∀ (cell : Picker) (o : nat) (ev : pointer_event) (evs : list pointer_event),
    _last_cast_caught cell = Some o →
    ev = Click ∨ ev = DblClick →
    ":focus" ∈ flags_of (listen (ev :: evs) cell).2 o.
Proof.
  intros cell o ev evs Hlast Hev. rewrite listen_cons. apply listen_keeps_focus.
  rewrite button_flags by (intros h; by destruct Hev as [-> | ->]).
  rewrite decide_True by done.
  destruct Hev as [-> | ->]; apply addFlag_elem.
Qed.

(** The theorem for a host whose pointer rests on node 1, which is clicked
    and then left, pressed and released elsewhere. *)
Lemma focus_is_never_cleared_witness :
  ":focus" ∈ flags_of
     (listen [Click; MouseMove (Some (2%nat, (0%Q, 0%Q, 1%Q))); MouseDown; MouseUp;
              MouseMove None] hovering_one).2 1.
Proof.
  apply (focus_is_never_cleared hovering_one 1 Click); [reflexivity|by left].
Defined.

(** X13 (NoScope.js).  [:active] is set on the node under the pointer at mouse
    down and taken from the node under the pointer at mouse up.  Pressed and
    released in place, a node is not left active; but when the pointer
    leaves the pressed node before the button is released, that node stays
    [:active], whatever is released later on other nodes. *)
Theorem active_is_released_only_under_the_pointer :
  ∀ (cell : Picker) (a : nat),
    (∀ o, NoDup (flags_of cell o)) →
    focusedCamera cell = true →
    _last_cast_caught cell = Some a →
    (":active" ∉ flags_of (listen [MouseDown; MouseUp] cell).2 a)
    ∧ ∀ hitResult,
        fst <$> hitResult ≠ Some a →
        ":active" ∈ flags_of (listen [MouseDown; MouseMove hitResult; MouseUp] cell).2 a.
Proof.
  intros cell a Hnodup Hcam Hlast.
  assert (Hdown : ∀ o, flags_of (listener MouseDown cell).2 o
            = if decide (o = a) then addFlag (flags_of cell o) ":active"
              else flags_of cell o).
  { intros o. rewrite button_flags by done. rewrite Hlast.
    destruct (decide (o = a)) as [->|Ho]; [by rewrite decide_True|].
    rewrite decide_False; [done|congruence]. }
  assert (Hdlast : _last_cast_caught (listener MouseDown cell).2 = Some a).
  { by rewrite button_last. }
  assert (Hdcam : focusedCamera (listener MouseDown cell).2 = true).
  { simpl. unfold default_onCellMouseDown_method. by rewrite Hlast. }
  split.
  - rewrite !listen_cons, listen_nil.
    rewrite (button_flags MouseUp) by done. rewrite Hdlast, decide_True by done.
    simpl. apply delFlag_gone. rewrite Hdown, decide_True by done.
    by apply addFlag_nodup.
  - intros hitResult Hhit. rewrite !listen_cons, listen_nil.
    set (c1 := (listener MouseDown cell).2) in *.
    set (c2 := (listener (MouseMove hitResult) c1).2).
    assert (Hl2 : _last_cast_caught c2 ≠ Some a).
    { unfold c2. simpl. by rewrite pointer_move_last. }
    assert (H2 : ":active" ∈ flags_of c2 a).
    { unfold c2. simpl. rewrite pointer_move_flags by done.
      assert (Hact : ":active" ∈ flags_of c1 a).
      { rewrite (Hdown a), decide_True by done. apply addFlag_elem. }
      destruct hitResult as [[hit pt]|]; repeat case_decide;
        rewrite ?addFlag_spec; auto; by apply delFlag_other. }
    rewrite button_flags by done. by rewrite decide_False.
Qed.

(** The theorem for a host whose pointer rests on node 1. *)
Lemma active_is_released_witness :
  (":active" ∉ flags_of (listen [MouseDown; MouseUp] hovering_one).2 1)
  ∧ ":active" ∈ flags_of
       (listen [MouseDown; MouseMove (Some (2%nat, (0%Q, 0%Q, 1%Q))); MouseUp]
               hovering_one).2 1.
Proof.
  assert (Hnodup : ∀ o, NoDup (flags_of hovering_one o)).
  { intros o. unfold flags_of, hovering_one. simpl.
    destruct (decide (o = 1%nat)) as [->|Hne].
    - rewrite lookup_singleton_eq. simpl. apply NoDup_singleton.
    - rewrite lookup_singleton_ne by done. constructor. }
  destruct (active_is_released_only_under_the_pointer hovering_one 1 Hnodup eq_refl eq_refl)
    as [Hup Hstuck].
  split; [done|]. by apply Hstuck.
Defined.

(** ** The per-frame callbacks (cell.js) *)

Lemma removeUpdateFunction_absent fn funds :
  (∀ item, item ∈ funds → originalFn_is item fn = false) →
  removeUpdateFunction fn funds = funds.
Proof.
  intros Hno. unfold removeUpdateFunction.
  destruct (list_find _ funds) as [[idx item]|] eqn:Hfind; [|done].
  apply list_find_Some in Hfind as (Hidx & Hitem & _).
  apply list_elem_of_lookup_2 in Hidx. by rewrite (Hno item Hidx) in Hitem.
Qed.

Lemma removeUpdateFunction_first fn before item after :
  (∀ x, x ∈ before → originalFn_is x fn = false) → originalFn_is item fn = true →
  removeUpdateFunction fn (before ++ item :: after) = before ++ after.
Proof.
  intros Hno Hitem. unfold removeUpdateFunction.
  assert (Hfind : list_find (fun x => originalFn_is x fn = true) (before ++ item :: after)
                  = Some (length before, item)).
  { apply list_find_Some. split; [|split; [done|]].
    - by rewrite lookup_app_r, Nat.sub_diag by lia.
    - intros j y Hj Hlt Hy. rewrite lookup_app_l in Hj by done.
      apply list_elem_of_lookup_2 in Hj. by rewrite (Hno y Hj) in Hy. }
  rewrite Hfind. rewrite delete_middle. done.
Qed.

(** X14 (cell.js).  [addUpdateFunction] registers functions only; any other
    value is ignored.  A function that was not registered before and is
    added and then removed leaves the list of callbacks as it was;
    [removeUpdateFunction] takes out one registration, the oldest, of a
    function that was added several times; and removing a function that is
    not registered changes nothing. *)
Theorem update_function_added_then_removed :
  ∀ (updateFunds : list update_fn) (f : nat),
    (∀ fn, (∀ g, fn ≠ VFun g) → addUpdateFunction fn updateFunds = updateFunds)
    ∧ (Bound f ∉ updateFunds →
         removeUpdateFunction (VFun f) updateFunds = updateFunds
         ∧ removeUpdateFunction (VFun f) (addUpdateFunction (VFun f) updateFunds)
           = updateFunds)
    ∧ (∀ before after,
         updateFunds = before ++ Bound f :: after → Bound f ∉ before →
         removeUpdateFunction (VFun f) (addUpdateFunction (VFun f) updateFunds)
         = before ++ after ++ [Bound f]).
Proof.
  intros funds f.
  assert (Hother : ∀ l : list update_fn, Bound f ∉ l →
            ∀ item, item ∈ l → originalFn_is item (VFun f) = false).
  { intros l Hout item Hin. destruct item as [g|]; [|done]. simpl.
    case_bool_decide; [|done]. by subst. }
  split; [|split].
  - intros fn Hfn. destruct fn; try done. by destruct (Hfn f0).
  - intros Hout. split.
    + apply removeUpdateFunction_absent. by apply Hother.
    + simpl. rewrite <- (app_nil_r funds) at 2.
      apply removeUpdateFunction_first; [by apply Hother|].
      simpl. by rewrite bool_decide_true.
  - intros before after -> Hout. simpl. rewrite <- app_assoc. simpl.
    rewrite app_comm_cons. 
    change (Bound f :: after ++ [Bound f]) with (Bound f :: (after ++ [Bound f])).
    apply removeUpdateFunction_first; [by apply Hother|].
    simpl. by rewrite bool_decide_true.
Qed.

(** X15 (cell.js).  The callbacks that the host itself registers carry no
    [originalFn]; so [removeUpdateFunction(undefined)] unregisters the first
    of them, which in a host as constructed is the painter of the
    [:active] rules, and leaves the registered functions alone. *)
Theorem removing_undefined_unregisters_the_painter :
  ∀ (registered : list nat) (rest : list update_fn),
    removeUpdateFunction VUndefined ((Bound <$> registered) ++ Plain :: rest)
    = (Bound <$> registered) ++ rest.
Proof.
  intros registered rest. apply removeUpdateFunction_first; [|done].
  intros x (f & -> & _)%list_elem_of_fmap. done.
Qed.

(** ** Scanning the source elements (cell.js) *)

Section ScanFacts.
Variable env : scan_env.

Lemma foldl_preserves {A S} (Q : S → Prop) (f : S → A → S) (l : list A) (s : S) :
  Forall (fun x => ∀ s, Q s → Q (f s x)) l → Q s → Q (foldl f s l).
Proof.
  intros Hall. revert s. induction Hall as [|x l Hx _ IH]; intros s Hs; [done|].
  simpl. by apply IH, Hx.
Qed.

(** What holds before a scan and is kept by the adoption of an unmapped
    element and by the definition of [convict], holds after the scan. *)
Lemma scan_preserves (Q : Host → Prop) :
  (∀ p elm ctor h,
     mapped h (dom_id elm) = false → ConvertDomToObject env elm = Some ctor →
     Q h → Q (adopt env p elm ctor h)) →
  (∀ el h, Q h → Q (define_convict el h)) →
  ∀ node p h, Q h → Q (ScanElement env p node h).
Proof.
  intros Hadopt Hdefine node.
  induction node as [elm children IH] using Dom_ind. intros p h HQ. simpl.
  fold (dom_id elm). fold (mapped h (dom_id elm)).
  destruct (mapped h (dom_id elm)) eqn:Hm; [done|].
  destruct (ConvertDomToObject env elm) as [ctor|] eqn:Hc.
  - apply Hdefine. apply (foldl_preserves Q).
    + eapply Forall_impl; [exact IH|]. intros child Hchild s Hs. by apply Hchild.
    + by apply Hadopt.
  - apply (foldl_preserves Q); [|done].
    eapply Forall_impl; [exact IH|]. intros child Hchild s Hs. by apply Hchild.
Qed.

(** The element-to-node map only grows, and the [convict] property of an
    element, once defined, stays. *)
Lemma scan_keeps_mapping node p h el o :
  _allConvictsByDom (h_cell h) !! el = Some o →
  _allConvictsByDom (h_cell (ScanElement env p node h)) !! el = Some o.
Proof.
  apply (scan_preserves (fun h => _allConvictsByDom (h_cell h) !! el = Some o)).
  - intros p' elm ctor h' Hm _ Hel. simpl.
    rewrite lookup_insert_ne; [done|]. intros Heq.
    unfold mapped, dom_id in Hm. rewrite Heq in Hm.
    apply bool_decide_eq_false in Hm. apply Hm. by eexists.
  - intros el' h' Hel. unfold define_convict. by destruct (h_convict h' !! el').
Qed.

Lemma scanned_grows h h' node :
  (∀ el, mapped h el = true → mapped h' el = true) →
  scanned env h node = true → scanned env h' node = true.
Proof.
  intros Hgrow. induction node as [elm children IH] using Dom_ind. simpl.
  intros [Hm|Hrest]%orb_prop; [by rewrite (Hgrow _ Hm)|].
  apply orb_true_iff. right.
  destruct (ConvertDomToObject env elm); [done|].
  apply forallb_forall. rewrite forallb_forall in Hrest.
  intros child Hin. apply list_elem_of_In in Hin as Hin'.
  rewrite Forall_forall in IH. apply IH; [done|]. by apply Hrest.
Qed.

Lemma scan_grows node p h el :
  mapped h el = true → mapped (ScanElement env p node h) el = true.
Proof.
  unfold mapped. intros [o Ho]%bool_decide_eq_true.
  apply bool_decide_eq_true. exists o. by apply scan_keeps_mapping.
Qed.

(** Where nothing is left to scan, the scan does nothing. *)
Lemma scanned_fixed node p h :
  scanned env h node = true → ScanElement env p node h = h.
Proof.
  revert p. induction node as [elm children IH] using Dom_ind. intros p. simpl.
  fold (dom_id elm). fold (mapped h (dom_id elm)).
  destruct (mapped h (dom_id elm)) eqn:Hm; [done|]. simpl.
  destruct (ConvertDomToObject env elm); [done|].
  rewrite forallb_forall. intros Hall.
  assert (Hgen : ∀ l, (∀ child, child ∈ l → child ∈ children) →
            foldl (fun h child => ScanElement env (Some (dom_id elm)) child h) h l = h).
  { induction l as [|child l IHl]; intros Hsub; [done|]. simpl.
    rewrite Forall_forall in IH. rewrite IH.
    - apply IHl. intros c Hc. apply Hsub. by right.
    - apply Hsub. by left.
    - apply Hall. apply list_elem_of_In, Hsub. by left. }
  by apply Hgen.
Qed.

(** After a scan, nothing is left to scan in the tree. *)
Lemma scan_scans node p h : scanned env (ScanElement env p node h) node = true.
Proof.
  revert p h. induction node as [elm children IH] using Dom_ind. intros p h.
  assert (Hkids : ∀ h0,
            forallb (fun child => scanned env
                       (foldl (fun h child => ScanElement env (Some (dom_id elm)) child h) h0 children)
                       child) children = true).
  { intros h0. apply forallb_forall. intros child Hin%list_elem_of_In.
    apply list_elem_of_split in Hin as (l1 & l2 & ->).
    rewrite foldl_app. simpl.
    rewrite Forall_app, Forall_cons in IH. destruct IH as (_ & Hchild & _).
    apply (foldl_preserves (fun h => scanned env h child = true)).
    - apply Forall_forall. intros x _ s Hs.
      eapply scanned_grows; [|exact Hs]. intros el. apply scan_grows.
    - apply Hchild. }
  cbn [ScanElement]. fold (dom_id elm). fold (mapped h (dom_id elm)).
  destruct (mapped h (dom_id elm)) eqn:Hm.
  { simpl. by rewrite Hm. }
  destruct (ConvertDomToObject env elm) as [ctor|] eqn:Hc.
  - cbn [scanned]. apply orb_true_iff. left.
    unfold mapped. apply bool_decide_eq_true.
    exists (h_allocated h).
    assert (Hd : ∀ h1, _allConvictsByDom (h_cell (define_convict (dom_id elm) h1))
                       = _allConvictsByDom (h_cell h1)).
    { intros h1. unfold define_convict. by destruct (h_convict h1 !! _). }
    rewrite Hd.
    apply (foldl_preserves
             (fun h1 => _allConvictsByDom (h_cell h1) !! dom_id elm = Some (h_allocated h))).
    + apply Forall_forall. intros x _ s Hs. by apply scan_keeps_mapping.
    + simpl. apply lookup_insert_eq.
  - cbn [scanned]. rewrite Hc. apply orb_true_iff. right. apply Hkids.
Qed.

Lemma Object3D_add_lookup p o objs x :
  Object3D_add p o objs !! x
  = if decide (x = p)
    then (fun po => mkObject3D (children po ++ [o]) (parent po) (domEl po)) <$> objs !! x
    else objs !! x.
Proof.
  unfold Object3D_add. destruct (objs !! p) as [po|] eqn:Hp.
  - case_decide as Hx.
    + subst x. by rewrite lookup_insert_eq, Hp.
    + by rewrite lookup_insert_ne.
  - case_decide as Hx; [|done]. subst x. by rewrite Hp.
Qed.

Lemma Object3D_add_domEl p o objs x :
  Object3D_add p o objs !! x ≫= domEl = objs !! x ≫= domEl.
Proof.
  rewrite Object3D_add_lookup. case_decide; [|done]. by destruct (objs !! x).
Qed.

Lemma Object3D_add_is_Some p o objs x :
  is_Some (Object3D_add p o objs !! x) ↔ is_Some (objs !! x).
Proof.
  rewrite Object3D_add_lookup. case_decide; [|done]. by rewrite fmap_is_Some.
Qed.

(** The indices after the adoption of an element: each is as before, or
    has the new object appended. *)
Lemma adopt_indices p elm ctor h :
  let c := h_cell h in
  let c' := h_cell (adopt env p elm ctor h) in
  (classyConvicts c' = classyConvicts c
   ∨ classyConvicts c' = classyConvicts c ++ [h_allocated h])
  ∧ (namedConvicts c' = namedConvicts c
     ∨ namedConvicts c' = namedConvicts c ++ [h_allocated h])
  ∧ (constantConvicts c' = constantConvicts c
     ∨ constantConvicts c' = constantConvicts c ++ [h_allocated h]).
Proof.
  simpl. split; [|split].
  - destruct (filter _ (de_classList elm)); auto.
  - destruct (String.eqb (de_idAttr elm) ""); auto.
  - destruct (String.eqb (de_idAttr elm) ""); destruct (filter _ (de_classList elm));
      auto; repeat case_match; auto;
      repeat match goal with
             | H : _ && _ = true |- _ => apply andb_prop in H as [? ?]
             | H : negb (bool_decide _) = true |- _ =>
                 apply negb_true_iff, bool_decide_eq_false in H
             end.
    all: by match goal with
            | H : ¬ _ ∈ _ ++ [_] |- _ => destruct H; apply elem_of_app; right; left
            end.
Qed.

Lemma appended_fresh (l l' : list nat) (x bound : nat) :
  l' = l ∨ l' = l ++ [x] →
  NoDup l → (∀ o, o ∈ l → (o < bound)%nat) → (bound ≤ x)%nat →
  NoDup l' ∧ ∀ o, o ∈ l' → (o < S x)%nat.
Proof.
  intros [-> | ->] Hnd Hlt Hx.
  - split; [done|]. intros o Ho%Hlt. lia.
  - split.
    + apply NoDup_app. split; [done|]. split; [|apply NoDup_singleton].
      intros o Ho%Hlt [->|[]%elem_of_nil]%elem_of_cons. lia.
    + intros o [Ho%Hlt|[->|[]%elem_of_nil]%elem_of_cons]%elem_of_app; lia.
Qed.

(** The adoption of an element that has no node keeps the invariant. *)
Lemma adopt_ok p elm ctor h :
  mapped h (dom_id elm) = false → host_ok h → host_ok (adopt env p elm ctor h).
Proof.
  intros Hm Hok. destruct Hok as [[Hc Hn Hk Hback] Hobj Hcl Hnl Hkl Hscene Hch].
  destruct (adopt_indices p elm ctor h) as (Hclassy & Hnamed & Hconstant).
  destruct (appended_fresh _ _ (h_allocated h) (h_allocated h) Hclassy Hc Hcl (le_n _))
    as [Hc' Hcl'].
  destruct (appended_fresh _ _ (h_allocated h) (h_allocated h) Hnamed Hn Hnl (le_n _))
    as [Hn' Hnl'].
  destruct (appended_fresh _ _ (h_allocated h) (h_allocated h) Hconstant Hk Hkl (le_n _))
    as [Hk' Hkl'].
  split; [split|..]; try done.
  - intros el' o. simpl. unfold element_of. simpl. intros Hel.
    destruct (decide (dom_id elm = el')) as [<-|Hne].
    + rewrite lookup_insert_eq in Hel. injection Hel as <-.
      by rewrite lookup_insert_eq.
    + unfold dom_id in Hne. rewrite lookup_insert_ne in Hel by done.
      pose proof (Hback el' o Hel) as Helem. unfold element_of in Helem.
      destruct (objects (h_cell h) !! o) as [ob|] eqn:Hob; [|done].
      pose proof (Hobj o ob Hob) as Hlt.
      rewrite lookup_insert_ne by lia. rewrite Object3D_add_domEl. by rewrite Hob.
  - intros o ob. simpl. destruct (decide (o = h_allocated h)) as [->|Hne]; [lia|].
    rewrite lookup_insert_ne by done. intros Hob.
    assert (His : is_Some (objects (h_cell h) !! o)).
    { eapply Object3D_add_is_Some. by eexists. }
    destruct His as [ob' Hob']. pose proof (Hobj o ob' Hob'). lia.
  - simpl. destruct Hscene as [sc Hsc]. pose proof (Hobj _ _ Hsc) as Hlt.
    rewrite lookup_insert_ne by lia. apply Object3D_add_is_Some. by eexists.
  - intros o ob k. simpl. destruct (decide (o = h_allocated h)) as [->|Hne].
    { rewrite lookup_insert_eq. intros Heq. injection Heq as <-. simpl.
      by intros ?%elem_of_nil. }
    rewrite lookup_insert_ne, Object3D_add_lookup by done.
    case_decide as Hp.
    + destruct (objects (h_cell h) !! o) as [po|] eqn:Hpo; [|done].
      simpl. intros Heq. injection Heq as <-. simpl.
      intros [Hin | ->%list_elem_of_singleton]%elem_of_app; [|lia].
      pose proof (Hch o po k Hpo Hin). lia.
    + intros Hob Hin. pose proof (Hch o ob k Hob Hin). lia.
Qed.

Lemma define_convict_cell el h : h_cell (define_convict el h) = h_cell h.
Proof. unfold define_convict. by destruct (h_convict h !! el). Qed.

Lemma define_convict_ok el h : host_ok h → host_ok (define_convict el h).
Proof.
  intros [Hi Hobj Hcl Hnl Hkl Hscene Hch]. unfold define_convict.
  destruct (h_convict h !! el); [done|]. by split.
Qed.

Lemma scan_ok node p h : host_ok h → host_ok (ScanElement env p node h).
Proof.
  apply (scan_preserves host_ok).
  - intros p' elm ctor h' Hm _. by apply adopt_ok.
  - apply define_convict_ok.
Qed.

Lemma appended_refl bound l : appended bound l l.
Proof. exists []. rewrite app_nil_r. split; [done|]. by intros x ?%elem_of_nil. Qed.

Lemma appended_trans b1 b2 l1 l2 l3 :
  (b1 ≤ b2)%nat → appended b1 l1 l2 → appended b2 l2 l3 → appended b1 l1 l3.
Proof.
  intros Hb (e1 & -> & H1) (e2 & -> & H2). exists (e1 ++ e2).
  split; [by rewrite app_assoc|].
  intros x [Hx%H1|Hx%H2]%elem_of_app; lia.
Qed.

Lemma appended_one bound l l' :
  l' = l ∨ l' = l ++ [bound] → appended bound l l'.
Proof.
  intros [-> | ->]; [apply appended_refl|]. exists [bound]. split; [done|].
  intros x [->|[]%elem_of_nil]%elem_of_cons. lia.
Qed.

Lemma grows_refl h : grows h h.
Proof.
  split; try done; try apply appended_refl; auto.
  intros o [ch pa el] Hob. exists []. rewrite app_nil_r. simpl.
  split; [done|]. by intros x ?%elem_of_nil.
Qed.

Lemma grows_trans h1 h2 h3 : grows h1 h2 → grows h2 h3 → grows h1 h3.
Proof.
  intros G1 G2. pose proof (gr_allocated _ _ G1) as Ha.
  split.
  - pose proof (gr_allocated _ _ G2). lia.
  - by rewrite (gr_scene _ _ G2), (gr_scene _ _ G1).
  - eapply appended_trans; [exact Ha|apply G1|apply G2].
  - eapply appended_trans; [exact Ha|apply G1|apply G2].
  - eapply appended_trans; [exact Ha|apply G1|apply G2].
  - intros el o Hel. by apply (gr_kept _ _ G2), (gr_kept _ _ G1).
  - intros el o Hel. destruct (gr_new _ _ G2 el o Hel) as [Hold|Hnew]; [|right; lia].
    by apply (gr_new _ _ G1).
  - intros o ob Hob.
    destruct (gr_objects _ _ G1 o ob Hob) as (e1 & Hob1 & He1).
    destruct (gr_objects _ _ G2 o _ Hob1) as (e2 & Hob2 & He2).
    exists (e1 ++ e2). simpl in Hob2. rewrite app_assoc. split; [done|].
    intros x [Hx%He1|Hx%He2]%elem_of_app; lia.
  - intros o Ho. rewrite (gr_muses _ _ G2) by lia. by apply (gr_muses _ _ G1).
  - by rewrite (gr_document _ _ G2), (gr_document _ _ G1).
  - by rewrite (gr_purged _ _ G2), (gr_purged _ _ G1).
Qed.

Lemma adopt_grows p elm ctor h :
  mapped h (dom_id elm) = false → host_ok h → grows h (adopt env p elm ctor h).
Proof.
  intros Hm Hok.
  destruct (adopt_indices p elm ctor h) as (Hclassy & Hnamed & Hconstant).
  split; try done; try (by apply appended_one).
  - simpl. lia.
  - intros el o Hel. simpl. rewrite lookup_insert_ne; [done|].
    intros Heq. unfold mapped, dom_id in Hm. rewrite Heq in Hm.
    apply bool_decide_eq_false in Hm. apply Hm. by eexists.
  - intros el o. simpl. destruct (decide (el_id (de_el elm) = el)) as [<-|Hne].
    + rewrite lookup_insert_eq. intros [= <-]. by right.
    + rewrite lookup_insert_ne by done. by left.
  - intros o ob Hob. simpl. pose proof (ok_objects h Hok o ob Hob) as Hlt.
    rewrite lookup_insert_ne by lia. rewrite Object3D_add_lookup, Hob.
    case_decide.
    + exists [h_allocated h]. split; [done|].
      intros x [->|[]%elem_of_nil]%elem_of_cons. lia.
    + exists []. rewrite app_nil_r. destruct ob. split; [done|].
      by intros x ?%elem_of_nil.
  - intros o Ho. simpl. rewrite lookup_insert_ne; [done|lia].
Qed.

Lemma define_convict_grows el h : grows h (define_convict el h).
Proof.
  unfold define_convict. destruct (h_convict h !! el); [apply grows_refl|].
  split; try done; try apply appended_refl; simpl; auto.
  intros o [ch pa e] Hob. exists []. rewrite app_nil_r. simpl.
  split; [done|]. by intros x ?%elem_of_nil.
Qed.

(** A scan of a well-formed host makes it grow, and keeps it well formed. *)
Lemma scan_grows_host node p h :
  host_ok h → host_ok (ScanElement env p node h) ∧ grows h (ScanElement env p node h).
Proof.
  intros Hok.
  apply (scan_preserves (fun h1 => host_ok h1 ∧ grows h h1)).
  - intros p' elm ctor h1 Hm _ [Hok1 G1]. split; [by apply adopt_ok|].
    eapply grows_trans; [exact G1|]. by apply adopt_grows.
  - intros el h1 [Hok1 G1]. split; [by apply define_convict_ok|].
    eapply grows_trans; [exact G1|]. apply define_convict_grows.
  - split; [done|apply grows_refl].
Qed.

Lemma foldl_scan_grows children el h :
  host_ok h →
  host_ok (foldl (fun h child => ScanElement env (Some el) child h) h children)
  ∧ grows h (foldl (fun h child => ScanElement env (Some el) child h) h children).
Proof.
  intros Hok.
  apply (foldl_preserves (fun h1 => host_ok h1 ∧ grows h h1)).
  - apply Forall_forall. intros child _ s [Hs Gs].
    destruct (scan_grows_host child (Some el) s Hs) as [Hs' Gs'].
    split; [done|]. by eapply grows_trans.
  - split; [done|apply grows_refl].
Qed.

Lemma appended_old bound l l' x :
  appended bound l l' → (x < bound)%nat → x ∈ l' ↔ x ∈ l.
Proof.
  intros (extra & -> & Hextra) Hx. rewrite elem_of_app. split; [|by left].
  intros [?|Hin%Hextra]; [done|lia].
Qed.

(** The constant convicts after the adoption of an element. *)
Lemma adopt_constant p elm ctor h :
  h_allocated h ∉ constantConvicts (h_cell h) →
  h_allocated h ∈ constantConvicts (h_cell (adopt env p elm ctor h))
  ↔ (de_idAttr elm ≠ ""
     ∧ is_Some (getCSSRule (se_sheets env) ("#" +:+ de_idAttr elm +:+ ":active")))
    ∨ ∃ cls, cls ∈ filter (fun cls => cls ≠ "") (de_classList elm)
             ∧ is_Some (getCSSRule (se_sheets env) ("." +:+ cls +:+ ":active")).
Proof.
  intros Hout. simpl.
  set (classes := filter (fun cls => cls ≠ "") (de_classList elm)).
  set (byId := bool_decide (is_Some (getCSSRule (se_sheets env)
                                       ("#" +:+ de_idAttr elm +:+ ":active")))).
  set (byClass := existsb (fun cls => bool_decide (is_Some (getCSSRule (se_sheets env)
                                        ("." +:+ cls +:+ ":active")))) classes).
  assert (Hid : byId = true
                ↔ is_Some (getCSSRule (se_sheets env) ("#" +:+ de_idAttr elm +:+ ":active"))).
  { unfold byId. apply bool_decide_eq_true. }
  assert (Hcls : byClass = true
                 ↔ ∃ cls, cls ∈ classes
                          ∧ is_Some (getCSSRule (se_sheets env) ("." +:+ cls +:+ ":active"))).
  { unfold byClass. rewrite existsb_exists. split.
    - intros (cls & Hin%list_elem_of_In & Hr%bool_decide_eq_true). by exists cls.
    - intros (cls & Hin%list_elem_of_In & Hr). exists cls. split; [done|].
      by apply bool_decide_eq_true. }
  assert (Hnil : classes = [] → byClass = false).
  { intros ->. done. }
  rewrite (bool_decide_eq_false_2 _ Hout). simpl.
  assert (Hlast : h_allocated h ∈ constantConvicts (h_cell h) ++ [h_allocated h]).
  { apply elem_of_app. right. by left. }
  destruct (String.eqb_spec (de_idAttr elm) "") as [Heq|Hne];
    destruct byId eqn:HbyId; destruct byClass eqn:HbyClass;
    destruct classes as [|cls classes'] eqn:Hclasses; simpl;
    rewrite ?(bool_decide_eq_false_2 _ Hout), ?(bool_decide_eq_true_2 _ Hlast); simpl;
    try (specialize (Hnil eq_refl); discriminate);
    split; intros Hx; try done; try tauto.
  all: try (right; by apply Hcls).
  all: try (left; split; [done|by apply Hid]).
  all: try (destruct Hx as [[? ?]|Hx]; [done|by apply Hcls in Hx]).
  all: try (destruct Hx as [[? Hx]|Hx]; [by apply Hid in Hx|by apply Hcls in Hx]).
Qed.

(** The same for what is kept by the adoption of the elements of the tree
    only. *)
Lemma scan_preserves_in (Q : Host → Prop) node :
  (∀ p elm ctor h,
     elm ∈ dom_elements node → mapped h (dom_id elm) = false →
     ConvertDomToObject env elm = Some ctor → Q h → Q (adopt env p elm ctor h)) →
  (∀ el h, Q h → Q (define_convict el h)) →
  ∀ p h, Q h → Q (ScanElement env p node h).
Proof.
  intros Hadopt Hdefine. revert Hadopt.
  induction node as [elm below IH] using Dom_ind. intros Hadopt p h HQ.
  assert (Hbelow : Forall (fun child => ∀ s, Q s → Q (ScanElement env (Some (dom_id elm)) child s))
                     below).
  { rewrite Forall_forall in IH |- *. intros child Hin s Hs. apply IH; [done| |done].
    intros p' elm' ctor h' Hel. apply Hadopt. simpl. right.
    apply elem_of_flat_map. by exists child. }
  cbn [ScanElement]. fold (dom_id elm). fold (mapped h (dom_id elm)).
  destruct (mapped h (dom_id elm)) eqn:Hm; [done|].
  destruct (ConvertDomToObject env elm) as [ctor|] eqn:Hc.
  - apply Hdefine. apply (foldl_preserves Q); [done|].
    apply Hadopt; [by left|done..].
  - by apply (foldl_preserves Q).
Qed.

End ScanFacts.



Lemma blank_host_ok : host_ok blank_host.
Proof.
  split; [split|..].
  - constructor.
  - constructor.
  - constructor.
  - intros el o. unfold blank_host. simpl. by rewrite lookup_empty.
  - intros o ob. unfold blank_host. simpl.
    intros [<- _]%lookup_singleton_Some. lia.
  - by intros o ?%elem_of_nil.
  - by intros o ?%elem_of_nil.
  - by intros o ?%elem_of_nil.
  - by eexists.
  - intros o ob k. unfold blank_host. simpl.
    intros [_ <-]%lookup_singleton_Some. by intros ?%elem_of_nil.
Qed.





(** ** Scanning and removing *)

(** *** The order in which a removal empties the indices *)

Lemma forEach_spliced {A} (f : A → Cell → option Cell) (ks : list A) :
  (∀ k c c', f k c = Some c' →
     ∃ order, purged c' = purged c ++ order ∧ spliced c c' order) →
  ∀ c c', forEach f ks c = Some c' →
    ∃ order, purged c' = purged c ++ order ∧ spliced c c' order.
Proof.
  intros Hf. induction ks as [|k ks IH]; intros c c' Hrun; simpl in Hrun.
  - injection Hrun as <-. exists []. rewrite app_nil_r. by repeat split.
  - destruct (f k c) as [c1|] eqn:Hk; [|done]. simpl in Hrun.
    destruct (Hf k c c1 Hk) as (o1 & Hp1 & Hc1 & Hn1 & Hk1).
    destruct (IH c1 c' Hrun) as (o2 & Hp2 & Hc2 & Hn2 & Hk2).
    exists (o1 ++ o2). rewrite Hp2, Hp1, app_assoc. split; [done|].
    unfold spliced. rewrite !foldl_app, <- Hc1, <- Hn1, <- Hk1. by repeat split.
Qed.

(** Whatever the scene graph looks like, a removal that ends has taken the
    nodes out of the three index lists one by one, in the order that the
    history records. *)
Lemma removeConvict_spliced fuel : ∀ convict c c',
  removeConvict fuel convict c = Some c' →
  ∃ order, purged c' = purged c ++ order ∧ spliced c c' order.
Proof.
  induction fuel as [|fuel IH]; intros [o|] c c' Hrun;
    try (injection Hrun as <-; exists []; rewrite app_nil_r; by repeat split);
    [done|].
  rewrite removeConvict_unfold in Hrun.
  destruct (objects c !! o) as [ob|]; [|done]. simpl in Hrun.
  destruct (forEach (remove_child fuel) (children ob) c) as [c1|] eqn:Hkids; [|done].
  simpl in Hrun.
  apply forEach_spliced in Hkids as (o1 & Hp1 & Hc1 & Hn1 & Hk1).
  2:{ intros k c0 c0' Hk. unfold remove_child in Hk.
      destruct (objects c0 !! k) as [cob|]; [|done]. simpl in Hk.
      destruct (domEl cob); by apply IH in Hk. }
  destruct (objects c1 !! o) as [ob1|]; [|done]. simpl in Hrun.
  injection Hrun as <-. exists (o1 ++ [o]).
  unfold spliced. rewrite !foldl_app. simpl.
  destruct (domEl ob1), (parent ob1); simpl;
    rewrite Hp1, Hc1, Hn1, Hk1, app_assoc; by repeat split.
Qed.

(** Taking an element of the tail out of an array leaves the head alone. *)
Lemma fastRemove_arry_tail (l1 l2 : list nat) (x : nat) :
  NoDup (l1 ++ l2) → x ∈ l2 →
  fastRemove_arry (l1 ++ l2) x = l1 ++ fastRemove_arry l2 x.
Proof.
  intros Hnd Hx.
  apply list_elem_of_split in Hx as (t1 & t2 & ->).
  assert (Hx1 : x ∉ l1 ++ t1).
  { rewrite app_assoc in Hnd. apply NoDup_app in Hnd as (_ & Hd & _).
    intros Hin. apply (Hd x Hin). by left. }
  assert (Hx2 : x ∉ t1).
  { intros Hin. apply Hx1, elem_of_app. by right. }
  destruct (decide (t2 = [])) as [->|Hne].
  - rewrite app_assoc. rewrite fastRemove_arry_last by done.
    by rewrite fastRemove_arry_last.
  - destruct (exists_last Hne) as (t2' & z & ->).
    rewrite app_assoc.
    rewrite (fastRemove_arry_middle (l1 ++ t1) x t2' z) by done.
    rewrite (fastRemove_arry_middle t1 x t2' z) by done.
    by rewrite app_assoc.
Qed.

(** When every element of the tail of an array is taken out, and nothing of
    its head, the head is what remains, in its order. *)
Lemma foldl_fastRemove_arry_tail (order : list nat) : ∀ l1 l2 : list nat,
  NoDup (l1 ++ l2) →
  (∀ x, x ∈ l2 → x ∈ order) →
  (∀ x, x ∈ order → x ∉ l1) →
  foldl fastRemove_arry (l1 ++ l2) order = l1.
Proof.
  induction order as [|x order IH]; intros l1 l2 Hnd Hin Hout.
  - destruct l2 as [|y l2]; [by rewrite app_nil_r|].
    exfalso. eapply elem_of_nil, (Hin y). by left.
  - simpl. destruct (decide (x ∈ l2)) as [Hx|Hx].
    + rewrite fastRemove_arry_tail by done.
      assert (Hnd2 : NoDup l2) by by apply NoDup_app in Hnd as (_ & _ & ?).
      apply IH.
      * apply NoDup_app in Hnd as (Hn1 & Hd & Hn2).
        apply NoDup_app. split; [done|]. split; [|by apply fastRemove_arry_nodup].
        intros y Hy1 Hy2%fastRemove_arry_subset. by apply (Hd y).
      * intros y Hy. pose proof (fastRemove_arry_subset _ _ _ Hy) as Hy2.
        apply Hin in Hy2. apply elem_of_cons in Hy2 as [->|?]; [|done].
        exfalso. by apply (fastRemove_arry_gone l2 x).
      * intros y Hy. apply Hout. by right.
    + rewrite fastRemove_arry_absent.
      2:{ rewrite elem_of_app. intros [H1|H2]; [|done].
          apply (Hout x); [by left|done]. }
      apply IH; [done| |].
      * intros y Hy. pose proof (Hin y Hy) as [->|?]%elem_of_cons; done.
      * intros y Hy. apply Hout. by right.
Qed.

(** *** The shape of a scanned tree *)

Lemma omap_agree {A B} (f g : A → option B) (l : list A) :
  (∀ x, x ∈ l → f x = g x) → omap f l = omap g l.
Proof.
  induction l as [|x l IH]; intros Hfg; [done|].
  change (omap f (x :: l))
    with (match f x with Some y => y :: omap f l | None => omap f l end).
  change (omap g (x :: l))
    with (match g x with Some y => y :: omap g l | None => omap g l end).
  rewrite (Hfg x) by by left. rewrite IH; [done|].
  intros y Hy. apply Hfg. by right.
Qed.

(** Trees that stand in a host stand in every host that has the same
    objects in their place and keeps the entries of the element-to-node
    map. *)
Lemma settled_agree n c c1 par roots first elms :
  settled n c par roots first elms →
  (∀ x, (first ≤ x < first + length elms)%nat → objects c1 !! x = objects c !! x) →
  (∀ el o, _allConvictsByDom c !! el = Some o → _allConvictsByDom c1 !! el = Some o) →
  settled n c1 par roots first elms.
Proof.
  intros [Hwf Hnodes Helms] Hobj Hmap.
  assert (Hin : ∀ r x, r ∈ roots → x ∈ subtree n c r →
                       (first ≤ x < first + length elms)%nat).
  { intros r x Hr Hx. apply elem_of_seq. rewrite <- Hnodes.
    apply elem_of_flat_map. by exists r. }
  assert (Hsub : ∀ r, r ∈ roots → subtree n c1 r = subtree n c r).
  { intros r Hr. apply subtree_agree. intros x Hx. apply Hobj. by apply (Hin r). }
  split.
  - rewrite Forall_forall in Hwf |- *. intros r Hr.
    apply (well_formed_agree n c); [by apply Hwf| |].
    + intros x Hx. apply Hobj. by apply (Hin r).
    + intros x el Hx Hel.
      destruct (well_formed_nodes n c (Some par) r x (Hwf r Hr) Hx) as (oy & Hoy & Hdom).
      apply Hmap, Hdom. by rewrite (element_of_lookup c x oy) in Hel.
  - rewrite <- Hnodes. by apply flat_map_agree.
  - rewrite <- Helms. apply omap_agree. intros x Hx%elem_of_seq.
    unfold element_of. by rewrite Hobj.
Qed.

Lemma settled_app n c par r1 r2 first e1 e2 :
  settled n c par r1 first e1 → settled n c par r2 (first + length e1) e2 →
  settled n c par (r1 ++ r2) first (e1 ++ e2).
Proof.
  intros [Hw1 Hn1 He1] [Hw2 Hn2 He2]. split.
  - by apply Forall_app.
  - by rewrite flat_map_app, length_app, seq_app, Hn1, Hn2.
  - unfold elements_of in *.
    by rewrite length_app, seq_app, omap_app, fmap_app, He1, He2.
Qed.

(** A node whose children stand below it stands itself. *)
Lemma settled_node n c par o roots elm elms :
  objects c !! o = Some (mkObject3D roots (Some par) (Some (dom_id elm))) →
  _allConvictsByDom c !! dom_id elm = Some o →
  settled n c o roots (S o) elms →
  settled (S n) c par [o] o (elm :: elms).
Proof.
  intros Hob Hmap [Hwf Hnodes Helms]. split.
  - apply Forall_singleton. exists (mkObject3D roots (Some par) (Some (dom_id elm))).
    split; [done|]. split; [done|]. split; [|done].
    simpl. intros el Heq. by injection Heq as <-.
  - change (flat_map (subtree (S n) c) [o])
      with ((o :: flat_map (subtree n c) (kids c o)) ++ []).
    rewrite app_nil_r, (kids_lookup c o _ Hob). cbn [children]. by rewrite Hnodes.
  - unfold elements_of in *.
    change (seq o (length (elm :: elms))) with (o :: seq (S o) (length elms)).
    change (omap (element_of c) (o :: seq (S o) (length elms)))
      with (match element_of c o with
            | Some y => y :: omap (element_of c) (seq (S o) (length elms))
            | None => omap (element_of c) (seq (S o) (length elms))
            end).
    rewrite (element_of_lookup c o _ Hob). cbn [domEl]. by rewrite Helms.
Qed.

Section Settling.
Variable env : scan_env.

Lemma unscanned_cons h elm elms :
  unscanned env h (elm :: elms) →
  is_Some (ConvertDomToObject env elm) ∧ mapped h (dom_id elm) = false
  ∧ (dom_id elm ∉ (dom_id <$> elms)) ∧ unscanned env h elms.
Proof.
  intros [Hall Hnd]. apply Forall_cons in Hall as [[Hc Hm] Hall].
  rewrite fmap_cons in Hnd. apply NoDup_cons in Hnd as [Hnot Hnd]. by repeat split.
Qed.

Lemma unscanned_app h e1 e2 :
  unscanned env h (e1 ++ e2) →
  unscanned env h e1 ∧ unscanned env h e2
  ∧ ∀ el, el ∈ (dom_id <$> e1) → el ∉ (dom_id <$> e2).
Proof.
  intros [Hall Hnd]. apply Forall_app in Hall as [H1 H2].
  rewrite fmap_app in Hnd. apply NoDup_app in Hnd as (Hn1 & Hd & Hn2).
  by repeat split.
Qed.

Lemma unscanned_later h h' elms :
  unscanned env h elms →
  (∀ elm, elm ∈ elms →
     _allConvictsByDom (h_cell h') !! dom_id elm
     = _allConvictsByDom (h_cell h) !! dom_id elm) →
  unscanned env h' elms.
Proof.
  intros [Hall Hnd] Hsame. split; [|done].
  rewrite Forall_forall in Hall |- *. intros elm Helm.
  destruct (Hall elm Helm) as [Hc Hm]. split; [done|].
  unfold mapped in *. by rewrite Hsame.
Qed.

Lemma define_convict_allocated el h :
  h_allocated (define_convict el h) = h_allocated h.
Proof. unfold define_convict. by destruct (h_convict h !! el). Qed.

(** The node of a mapped element is an object that existed before anything
    new is made. *)
Lemma mapped_allocated h el o :
  host_ok h → _allConvictsByDom (h_cell h) !! el = Some o → (o < h_allocated h)%nat.
Proof.
  intros Hok Hel. pose proof (byDom_back _ (ok_indices _ Hok) el o Hel) as Hback.
  unfold element_of in Hback.
  destruct (objects (h_cell h) !! o) as [ob|] eqn:Hob; [|done].
  by apply (ok_objects _ Hok o ob).
Qed.

Lemma scan_kids_settle ks :
  Forall (settles env) ks →
  ∀ e po h n, host_ok h → _allConvictsByDom (h_cell h) !! e = Some po →
    unscanned env h (flat_map dom_elements ks) →
    (length (flat_map dom_elements ks) ≤ n)%nat →
    let h' := foldl (fun h child => ScanElement env (Some e) child h) h ks in
    h_allocated h' = (h_allocated h + length (flat_map dom_elements ks))%nat
    ∧ (∃ roots,
         settled n (h_cell h') po roots (h_allocated h) (flat_map dom_elements ks)
         ∧ objects (h_cell h') !! po
           = (fun ob => mkObject3D (children ob ++ roots) (parent ob) (domEl ob))
               <$> objects (h_cell h) !! po)
    ∧ (∀ x, (x < h_allocated h)%nat → x ≠ po →
         objects (h_cell h') !! x = objects (h_cell h) !! x)
    ∧ (∀ el, el ∉ (dom_id <$> flat_map dom_elements ks) →
         _allConvictsByDom (h_cell h') !! el = _allConvictsByDom (h_cell h) !! el).
Proof.
  induction 1 as [|k ks Hk _ IH]; intros e po h n Hok He Hun Hn.
  - simpl. split; [lia|]. split; [|done].
    exists []. split; [by split|].
    destruct (objects (h_cell h) !! po) as [[ch pa el]|]; [|done].
    simpl. by rewrite app_nil_r.
  - cbn [foldl flat_map] in *.
    set (h1 := ScanElement env (Some e) k h).
    apply unscanned_app in Hun as (Hun1 & Hun2 & Hdisj).
    rewrite length_app in Hn.
    pose proof (mapped_allocated h e po Hok He) as Hpo.
    destruct (Hk (Some e) h n Hok Hun1 ltac:(unfold dom_size; lia))
      as (Ha1 & Hst1 & Hfr1 & Hby1 & _).
    fold h1 in Ha1, Hst1, Hfr1, Hby1. unfold dom_size in Ha1.
    cbn [mbind option_bind] in Hst1, Hfr1. rewrite He in Hst1, Hfr1.
    cbn [default] in Hst1, Hfr1.
    assert (Hok1 : host_ok h1) by by apply scan_ok.
    assert (He1 : _allConvictsByDom (h_cell h1) !! e = Some po)
      by by apply scan_keeps_mapping.
    assert (Hun2' : unscanned env h1 (flat_map dom_elements ks)).
    { apply (unscanned_later h); [done|]. intros elm Helm. apply Hby1.
      intros Hin. apply (Hdisj _ Hin). apply list_elem_of_fmap. by exists elm. }
    destruct (IH e po h1 n Hok1 He1 Hun2' ltac:(lia))
      as (Ha2 & (roots & Hst2 & Hpo2) & Hfr2 & Hby2).
    destruct (foldl_scan_grows env ks e h1 Hok1) as [_ Hgrows].
    split; [|split; [|split]].
    + rewrite Ha2, Ha1, length_app. lia.
    + exists (h_allocated h :: roots). split.
      * apply (settled_app n _ po [h_allocated h] roots).
        -- apply (settled_agree n (h_cell h1)); [done| |].
           ++ intros x Hx. apply Hfr2; lia.
           ++ apply (gr_kept _ _ Hgrows).
        -- by rewrite <- Ha1.
      * rewrite Hpo2, Hfr1 by done. rewrite decide_True by done.
        destruct (objects (h_cell h) !! po) as [[ch pa el]|]; [|done].
        simpl. by rewrite <- app_assoc.
    + intros x Hx Hne. rewrite Hfr2 by (done || lia). rewrite Hfr1 by done.
      by rewrite decide_False.
    + intros el Hel. rewrite fmap_app, elem_of_app in Hel.
      rewrite Hby2 by tauto. apply Hby1. unfold dom_ids. tauto.
Qed.

(** The scan of an unscanned tree makes the tree stand in the host. *)
Lemma scan_settles node : settles env node.
Proof.
  induction node as [elm ks IH] using Dom_ind.
  intros p h n Hok Hun Hn par h'.
  cbn [dom_elements] in Hun. apply unscanned_cons in Hun as ([ctor Hctor] & Hm & Hnot & Hun).
  unfold dom_size in *. cbn [dom_elements length] in *.
  destruct n as [|n]; [lia|].
  assert (Hn' : (length (flat_map dom_elements ks) ≤ n)%nat)
    by (apply le_S_n; exact Hn).
  subst h'. cbn [ScanElement]. fold (dom_id elm). fold (mapped h (dom_id elm)).
  rewrite Hm, Hctor.
  set (h1 := adopt env p elm ctor h).
  rewrite define_convict_cell, define_convict_allocated.
  assert (Hok1 : host_ok h1) by by apply adopt_ok.
  assert (He1 : _allConvictsByDom (h_cell h1) !! dom_id elm = Some (h_allocated h)).
  { unfold h1. simpl. apply lookup_insert_eq. }
  assert (Hob1 : objects (h_cell h1) !! h_allocated h
                 = Some (mkObject3D [] (Some par) (Some (dom_id elm)))).
  { unfold h1. simpl. apply lookup_insert_eq. }
  assert (Hun1 : unscanned env h1 (flat_map dom_elements ks)).
  { apply (unscanned_later h); [done|]. intros elm' Helm'. unfold h1. simpl.
    apply lookup_insert_ne. fold (dom_id elm). intros Heq. apply Hnot.
    apply list_elem_of_fmap. by exists elm'. }
  destruct (scan_kids_settle ks IH (dom_id elm) (h_allocated h) h1 n Hok1 He1 Hun1 Hn')
    as (Ha2 & (roots & Hst2 & Hpo2) & Hfr2 & Hby2).
  rewrite Hob1 in Hpo2. cbn [fmap option_fmap option_map children parent domEl app] in Hpo2.
  assert (He2 : _allConvictsByDom
                  (h_cell (foldl (fun h child => ScanElement env (Some (dom_id elm)) child h)
                             h1 ks)) !! dom_id elm = Some (h_allocated h)).
  { by rewrite Hby2. }
  split; [|split; [|split; [|split]]].
  - rewrite Ha2. change (h_allocated h1) with (S (h_allocated h)).
    apply Nat.add_succ_comm.
  - by apply (settled_node n _ par (h_allocated h) roots).
  - intros x Hx. rewrite Hfr2 by (unfold h1; simpl; lia).
    unfold h1. simpl. rewrite lookup_insert_ne by lia.
    by rewrite Object3D_add_lookup.
  - intros el Hel. unfold dom_ids in Hel. cbn [dom_elements] in Hel.
    rewrite fmap_cons, not_elem_of_cons in Hel. destruct Hel as [Hne Hel].
    rewrite Hby2 by done. unfold h1. simpl. by apply lookup_insert_ne.
  - done.
Qed.

End Settling.

Lemma remove_first_last x l : x ∉ l → remove_first x (l ++ [x]) = l.
Proof.
  induction l as [|y l IH]; intros Hx; simpl.
  - by rewrite decide_True.
  - apply not_elem_of_cons in Hx as [Hne Hx].
    rewrite decide_False by done. by rewrite IH.
Qed.

(** An index list that a scan extended is as it was once the new nodes are
    taken out, in whatever order. *)
Lemma index_restored (l l' order : list nat) (first size : nat) :
  appended first l l' → NoDup l' →
  (∀ x, x ∈ l' → (x < first + size)%nat) → (∀ x, x ∈ l → (x < first)%nat) →
  order ≡ₚ seq first size →
  foldl fastRemove_arry l' order = l.
Proof.
  intros (extra & -> & Hextra) Hnd Hnew Hold Hperm.
  apply foldl_fastRemove_arry_tail; [done| |].
  - intros x Hx. rewrite Hperm. apply elem_of_seq. split; [by apply Hextra|].
    apply Hnew, elem_of_app. by right.
  - intros x Hx Hin. rewrite Hperm in Hx. apply elem_of_seq in Hx.
    apply Hold in Hin. lia.
Qed.

(** The node that a scan hangs new nodes under exists. *)
Lemma parent_object h (p : option nat) :
  host_ok h →
  let par := default (h_scene h) (p ≫= fun q => _allConvictsByDom (h_cell h) !! q) in
  ∃ po, objects (h_cell h) !! par = Some po ∧ (par < h_allocated h)%nat.
Proof.
  intros Hok par.
  assert (His : is_Some (objects (h_cell h) !! par)).
  { unfold par. destruct p as [q|]; [|apply (ok_scene _ Hok)]. simpl.
    destruct (_allConvictsByDom (h_cell h) !! q) as [o|] eqn:Hq;
      [|apply (ok_scene _ Hok)].
    simpl. pose proof (byDom_back _ (ok_indices _ Hok) q o Hq) as Hback.
    unfold element_of in Hback. by destruct (objects (h_cell h) !! o). }
  destruct His as [po Hpo]. exists po. split; [done|].
  by apply (ok_objects _ Hok par po).
Qed.

(** The removal of the root of a tree that was just scanned. *)
Lemma scan_then_remove env (p : option nat) node h fuel :
  host_ok h → unscanned env h (dom_elements node) → (dom_size node ≤ fuel)%nat →
  let h' := ScanElement env p node h in
  ∃ c'', on_removed fuel (dom_id (dom_root node)) (h_cell h') = Some c''
    ∧ classyConvicts c'' = classyConvicts (h_cell h)
    ∧ namedConvicts c'' = namedConvicts (h_cell h)
    ∧ constantConvicts c'' = constantConvicts (h_cell h)
    ∧ _allConvictsByDom c'' = _allConvictsByDom (h_cell h)
    ∧ (∀ x, (x < h_allocated h)%nat → objects c'' !! x = objects (h_cell h) !! x)
    ∧ (∀ x, (h_allocated h ≤ x < h_allocated h')%nat →
         ∃ ob, objects c'' !! x = Some ob ∧ children ob = [] ∧ parent ob = None)
    ∧ host_ok (with_cell h' c'').
Proof.
  intros Hok Hun Hfuel h'.
  destruct (scan_settles env node p h fuel Hok Hun Hfuel) as (Ha & Hst & Hfr & Hby & Hroot).
  destruct (scan_grows_host env node p h Hok) as [Hok' Hgrows].
  destruct (parent_object h p Hok) as (po & Hpo & Hpar).
  fold h' in Ha, Hst, Hfr, Hby, Hroot, Hok', Hgrows.
  set (par := default (h_scene h) (p ≫= fun q => _allConvictsByDom (h_cell h) !! q)) in *.
  set (o := h_allocated h) in *. set (c' := h_cell h') in *.
  destruct Hst as [Hwf Hnodes Helms].
  rewrite Forall_singleton in Hwf.
  change (flat_map (subtree fuel c') [o]) with (subtree fuel c' o ++ []) in Hnodes.
  rewrite app_nil_r in Hnodes. fold (dom_size node) in Hnodes, Helms.
  assert (Hpo' : objects c' !! par = Some (with_child o po)).
  { rewrite Hfr by done. rewrite decide_True by done. by rewrite Hpo. }
  destruct (removeConvict_removal fuel c' (Some par) o) as (c'' & Hrun & Hrem).
  { exact Hwf. }
  { rewrite Hnodes. apply NoDup_seq. }
  { apply (ok_indices _ Hok'). }
  { split.
    - rewrite Hnodes, elem_of_seq. lia.
    - exists (with_child o po). split; [done|]. simpl. apply elem_of_app. right. by left. }
  rewrite Hnodes in Hrem.
  destruct (removeConvict_spliced fuel (Some o) c' c'' Hrun)
    as (order & Hpurged & Hcl & Hnl & Hkl).
  rewrite (rm_purged _ _ _ _ _ _ Hrem) in Hpurged. apply app_inv_head in Hpurged.
  assert (Hperm : order ≡ₚ seq o (dom_size node)).
  { rewrite <- Hpurged, <- Hnodes. apply post_order_perm. }
  assert (Hclassy : classyConvicts c'' = classyConvicts (h_cell h)).
  { rewrite Hcl. apply (index_restored _ _ _ o (dom_size node)); [| | | |done].
    + apply (gr_classy _ _ Hgrows).
    + apply (classy_nodup _ (ok_indices _ Hok')).
    + intros x Hx. rewrite <- Ha. by apply (ok_classy _ Hok').
    + apply (ok_classy _ Hok). }
  assert (Hnamed : namedConvicts c'' = namedConvicts (h_cell h)).
  { rewrite Hnl. apply (index_restored _ _ _ o (dom_size node)); [| | | |done].
    + apply (gr_named _ _ Hgrows).
    + apply (named_nodup _ (ok_indices _ Hok')).
    + intros x Hx. rewrite <- Ha. by apply (ok_named _ Hok').
    + apply (ok_named _ Hok). }
  assert (Hconstant : constantConvicts c'' = constantConvicts (h_cell h)).
  { rewrite Hkl. apply (index_restored _ _ _ o (dom_size node)); [| | | |done].
    + apply (gr_constant _ _ Hgrows).
    + apply (constant_nodup _ (ok_indices _ Hok')).
    + intros x Hx. rewrite <- Ha. by apply (ok_constant _ Hok').
    + apply (ok_constant _ Hok). }
  assert (Hmap : _allConvictsByDom c'' = _allConvictsByDom (h_cell h)).
  { apply map_eq. intros el. rewrite (rm_byDom _ _ _ _ _ _ Hrem), Helms.
    case_decide as Hel; [|by apply Hby].
    apply list_elem_of_fmap in Hel as (elm & -> & Helm).
    destruct Hun as [Hall _]. rewrite Forall_forall in Hall.
    destruct (Hall elm Helm) as [_ Hm]. unfold mapped in Hm.
    apply bool_decide_eq_false in Hm. symmetry. by apply eq_None_not_Some. }
  assert (Hold : ∀ x, (x < o)%nat → objects c'' !! x = objects (h_cell h) !! x).
  { intros x Hx. destruct (decide (x = par)) as [->|Hne].
    + rewrite (rm_keep _ _ _ _ _ _ Hrem par (with_child o po)); [| done | | done].
      2:{ rewrite elem_of_seq. lia. }
      cbn [foldl with_child children parent domEl].
      rewrite remove_first_last.
      2:{ intros Hin. pose proof (ok_children _ Hok par po o Hpo Hin) as Hlt.
          unfold o in Hlt. lia. }
      rewrite Hpo. by destruct po.
    + rewrite (rm_frame _ _ _ _ _ _ Hrem).
      * rewrite Hfr by done. by rewrite decide_False.
      * rewrite elem_of_seq. lia.
      * intros Heq. by injection Heq. }
  assert (Hnew : ∀ x, (o ≤ x < h_allocated h')%nat →
                   ∃ ob, objects c'' !! x = Some ob ∧ children ob = [] ∧ parent ob = None).
  { intros x Hx. apply (rm_nodes _ _ _ _ _ _ Hrem). rewrite elem_of_seq. lia. }
  exists c''. split; [|split; [|split; [|split; [|split; [|split; [|split]]]]]];
    try done.
  - unfold on_removed. fold c'. by rewrite Hroot.
  - assert (Hle : (o ≤ h_allocated h')%nat) by lia.
    split; [split|..]; cbn [with_cell h_cell h_allocated h_scene].
    + rewrite Hclassy. apply (classy_nodup _ (ok_indices _ Hok)).
    + rewrite Hnamed. apply (named_nodup _ (ok_indices _ Hok)).
    + rewrite Hconstant. apply (constant_nodup _ (ok_indices _ Hok)).
    + intros el x. rewrite Hmap. intros Hel.
      pose proof (mapped_allocated h el x Hok Hel) as Hx.
      pose proof (byDom_back _ (ok_indices _ Hok) el x Hel) as Hback.
      unfold element_of in *. by rewrite Hold.
    + intros x ob Hob. destruct (decide (x < h_allocated h')%nat) as [|Hge]; [done|].
      rewrite (rm_frame _ _ _ _ _ _ Hrem) in Hob.
      * by apply (ok_objects _ Hok' x ob).
      * rewrite elem_of_seq. lia.
      * intros Heq. injection Heq as ->. lia.
    + intros x Hx. rewrite Hclassy in Hx. pose proof (ok_classy _ Hok x Hx). lia.
    + intros x Hx. rewrite Hnamed in Hx. pose proof (ok_named _ Hok x Hx). lia.
    + intros x Hx. rewrite Hconstant in Hx. pose proof (ok_constant _ Hok x Hx). lia.
    + rewrite (gr_scene _ _ Hgrows).
      destruct (ok_scene _ Hok) as [sc Hsc].
      pose proof (ok_objects _ Hok _ _ Hsc) as Hlt. rewrite Hold by done. by eexists.
    + intros x ob k Hob Hk. destruct (decide (x < o)%nat) as [Hx|Hx].
      * rewrite Hold in Hob by done. pose proof (ok_children _ Hok x ob k Hob Hk). lia.
      * destruct (decide (x < h_allocated h')%nat) as [Hx'|Hx'].
        -- destruct (Hnew x ltac:(lia)) as (ob' & Hob' & Hch & _).
           rewrite Hob' in Hob. injection Hob as <-. rewrite Hch in Hk.
           by apply elem_of_nil in Hk.
        -- rewrite (rm_frame _ _ _ _ _ _ Hrem) in Hob.
           ++ pose proof (ok_objects _ Hok' x ob Hob). lia.
           ++ rewrite elem_of_seq. lia.
           ++ intros Heq. injection Heq as ->. lia.
Qed.



(** *** The [convict] property of an element that comes back *)

Section Convict.
Variable env : scan_env.

(** The [convict] property of an element, once defined, stays. *)
Lemma scan_keeps_convict node p h el v :
  h_convict h !! el = Some v → h_convict (ScanElement env p node h) !! el = Some v.
Proof.
  apply (scan_preserves env (fun h => h_convict h !! el = Some v)).
  - by intros p' elm ctor h' _ _ Hv.
  - intros el' h' Hv. unfold define_convict.
    destruct (h_convict h' !! el') eqn:Hel'; [done|]. simpl.
    rewrite lookup_insert_ne; [done|]. by intros ->; rewrite Hv in Hel'.
Qed.

(** The scan of an element that gets a node defines its [convict]
    property, unless it has one, as that node. *)
Lemma scan_defines_convict elm ks ctor p h :
  mapped h (dom_id elm) = false → ConvertDomToObject env elm = Some ctor →
  h_convict h !! dom_id elm = None →
  h_convict (ScanElement env p (DomNode elm ks) h) !! dom_id elm
  = Some (Some (h_allocated h)).
Proof.
  intros Hm Hctor Hnone. cbn [ScanElement]. fold (dom_id elm).
  fold (mapped h (dom_id elm)). rewrite Hm, Hctor.
  set (Q := fun h0 : Host =>
              _allConvictsByDom (h_cell h0) !! dom_id elm = Some (h_allocated h)
              ∧ (h_convict h0 !! dom_id elm = None
                 ∨ h_convict h0 !! dom_id elm = Some (Some (h_allocated h)))).
  assert (HQ : Q (foldl (fun h0 child => ScanElement env (Some (dom_id elm)) child h0)
                    (adopt env p elm ctor h) ks)).
  { apply (foldl_preserves Q).
    - apply Forall_forall. intros child _ h0 Hh0.
      apply (scan_preserves env Q); [| |done].
      + intros p' elm' ctor' h1 Hm1 _ [Hmap Hconv]. unfold Q. split; [|done]. simpl.
        rewrite lookup_insert_ne; [done|]. intros Heq. unfold mapped in Hm1.
        fold (dom_id elm') in Heq. rewrite Heq, Hmap in Hm1.
        apply bool_decide_eq_false in Hm1. apply Hm1. by eexists.
      + intros el' h1 [Hmap Hconv]. unfold Q. rewrite define_convict_cell.
        split; [done|].
        unfold define_convict. destruct (h_convict h1 !! el') eqn:Hel'; [done|].
        simpl. destruct (decide (el' = dom_id elm)) as [->|Hne].
        * right. by rewrite lookup_insert_eq, Hmap.
        * by rewrite lookup_insert_ne.
    - unfold Q. split; [simpl; apply lookup_insert_eq|]. by left. }
  destruct HQ as [Hmap Hconv]. unfold define_convict.
  destruct Hconv as [Hconv|Hconv]; rewrite Hconv; [|done].
  simpl. by rewrite lookup_insert_eq, Hmap.
Qed.

(** The scan of an element that has no node yet and whose tag has a
    constructor maps it to the next object. *)
Lemma scan_maps_root elm ks ctor p h :
  mapped h (dom_id elm) = false → ConvertDomToObject env elm = Some ctor →
  _allConvictsByDom (h_cell (ScanElement env p (DomNode elm ks) h)) !! dom_id elm
  = Some (h_allocated h).
Proof.
  intros Hm Hctor. cbn [ScanElement]. fold (dom_id elm).
  fold (mapped h (dom_id elm)). rewrite Hm, Hctor, define_convict_cell.
  apply (foldl_preserves
           (fun h0 => _allConvictsByDom (h_cell h0) !! dom_id elm = Some (h_allocated h))).
  - apply Forall_forall. intros child _ h0 Hh0. by apply scan_keeps_mapping.
  - simpl. apply lookup_insert_eq.
Qed.

End Convict.



(** ** The rule that a selector finds *)

Lemma first_style_rule_spec selector rules style :
  first_style_rule selector rules = Some style
  ↔ ∃ before text after,
      rules = before ++ StyleRule text style :: after
      ∧ lists_selector selector (StyleRule text style) = true
      ∧ Forall (fun rule => lists_selector selector rule = false) before.
Proof.
  induction rules as [|rule rules IH].
  - split; [done|]. intros (before & text & after & Heq & _).
    by destruct before.
  - assert (Hskip : lists_selector selector rule = false →
              (first_style_rule selector (rule :: rules) = Some style
               ↔ first_style_rule selector rules = Some style)).
    { intros Hno. destruct rule; try done. simpl in *. by rewrite Hno. }
    destruct (lists_selector selector rule) eqn:Hrule.
    + destruct rule as [text0 style0| |]; try done. simpl in *. rewrite Hrule.
      split.
      * intros Heq. injection Heq as ->. exists [], text0, rules.
        split; [done|]. split; [done|]. constructor.
      * intros (before & text & after & Heq & Hm & Hall).
        destruct before as [|r before].
        -- simpl in Heq. by injection Heq as -> ->.
        -- simpl in Heq. injection Heq as <- _.
           apply Forall_cons in Hall as [Hr _]. simpl in Hr. congruence.
    + rewrite (Hskip eq_refl), IH. split.
      * intros (before & text & after & -> & Hm & Hall).
        exists (rule :: before), text, after. split; [done|]. split; [done|].
        by constructor.
      * intros (before & text & after & Heq & Hm & Hall).
        destruct before as [|r before].
        -- simpl in Heq. injection Heq as -> _. congruence.
        -- simpl in Heq. injection Heq as <- ->.
           apply Forall_cons in Hall as [_ Hall]. by exists before, text, after.
Qed.

Lemma all_rules_cons sheet sheets :
  all_rules (sheet :: sheets)
  = match sheet with Some rules => rules | None => [] end ++ all_rules sheets.
Proof. done. Qed.

Lemma all_rules_readable sheets :
  all_rules (filter (fun sheet => is_Some sheet) sheets) = all_rules sheets.
Proof.
  induction sheets as [|[rules|] sheets IH]; [done| |].
  - rewrite filter_cons_True by by eexists. rewrite !all_rules_cons.
    f_equal. exact IH.
  - rewrite filter_cons_False by by intros [? ?]. exact IH.
Qed.

(** X22 (artist.js).  [getCSSRule] finds the first rule, not the last: its
    result for a selector is the style of the first style rule, in the order
    of the readable style sheets and of the rules in them, whose selector
    text is not empty and has the selector as a whole blank-separated token
    of one of its comma-separated parts.  Sheets that cannot be read and
    rules without a selector text are passed over; a rule after the first
    match, in the same sheet or in a later one, is never returned.  So
    adding sheets or rules after a match changes nothing. *)
Theorem getCSSRule_finds_the_first_rule :
  ∀ (sheets : list StyleSheet) (selector : string),
    (∀ style,
       getCSSRule sheets selector = Some style
       ↔ ∃ before text after,
           all_rules sheets = before ++ StyleRule text style :: after
           ∧ lists_selector selector (StyleRule text style) = true
           ∧ Forall (fun rule => lists_selector selector rule = false) before)
    ∧ (∀ style later more,
         getCSSRule sheets selector = Some style →
         getCSSRule (sheets ++ later) selector = Some style
         ∧ ∀ rules, getCSSRule (sheets ++ [Some rules]) selector
                    = getCSSRule (sheets ++ [Some (rules ++ more)]) selector)
    ∧ getCSSRule (filter (fun sheet => is_Some sheet) sheets) selector
      = getCSSRule sheets selector.
Proof.
  intros sheets selector. split; [|split].
  - intros style. apply first_style_rule_spec.
  - intros style later more Hfound.
    assert (Hext : ∀ l, getCSSRule (sheets ++ l) selector = Some style).
    { intros l. unfold getCSSRule, all_rules in *. rewrite flat_map_app.
      apply first_style_rule_spec in Hfound as (before & text & after & Heq & Hm & Hall).
      apply first_style_rule_spec. exists before, text.
      eexists. split; [|done].
      refine (eq_trans (f_equal (fun x => x ++ _) Heq) _).
      rewrite <- app_assoc. reflexivity. }
    split; [apply Hext|]. intros rules. by rewrite !Hext.
  - unfold getCSSRule. f_equal. apply all_rules_readable.
Qed.

(** ** The order of the declarations of a rule *)

Section DeclarationOrder.
Context `{Builtins}.
Variable _get_Equation : string -> number -> number.
Variable asset : string -> value.
Variable ref : string -> value.
Variable slot : string -> value.
Variable now : number.
Variable style : declarations.
Variable _chosenOne : option string.

(** A declaration other than [--transition] is painted with the transition
    that the node has, and leaves it. *)
Lemma apply_declaration_with object done rawProp :
  rawProp ≠ "--transition" →
  ∃ object',
    apply_declaration _get_Equation asset ref slot now style _chosenOne
      (object, done) rawProp
    = (object',
       done ++ omap (declared_with _get_Equation asset ref slot now style _chosenOne
                       (m_transition object)) [rawProp])
    ∧ m_transition object' = m_transition object.
Proof.
  intros Hne. apply String.eqb_neq in Hne.
  unfold apply_declaration, declared_with. cbn [omap list_omap].
  rewrite Hne.
  destruct (startsWith rawProp "--"); cbn [negb];
    [|eexists; split; [by rewrite app_nil_r|done]].
  destruct (String.eqb rawProp "--animation");
    [eexists; split; [by rewrite app_nil_r|done]|].
  destruct (CSSValueTo3JSValue asset ref (trim (getPropertyValue style rawProp)))
    eqn:Hparsed;
    try (destruct (assignValue _ _ _ _ _ _ _) as [effects running];
         eexists; split; done).
  by eexists.
Qed.

Lemma fold_declarations_with props : ∀ object done,
  "--transition" ∉ props →
  ∃ object',
    fold_left (apply_declaration _get_Equation asset ref slot now style _chosenOne)
      props (object, done)
    = (object',
       done ++ omap (declared_with _get_Equation asset ref slot now style _chosenOne
                       (m_transition object)) props)
    ∧ m_transition object' = m_transition object.
Proof.
  induction props as [|p props IH]; intros object done Hnot.
  - exists object. by rewrite app_nil_r.
  - apply not_elem_of_cons in Hnot as [Hp Hnot].
    destruct (apply_declaration_with object done p (not_eq_sym Hp))
      as (object1 & Hstep & Htr1).
    cbn [fold_left]. rewrite Hstep.
    destruct (IH object1 (done ++ omap (declared_with _get_Equation asset ref slot now
                                          style _chosenOne (m_transition object)) [p])
                Hnot) as (object2 & Hrest & Htr2).
    exists object2. rewrite Hrest, Htr1, <- app_assoc. split; [|congruence].
    f_equal. f_equal. change (p :: props) with ([p] ++ props).
    by rewrite omap_app.
Qed.

End DeclarationOrder.



(** ** The loader of a URL *)

(** [s.includes(c)] for a one-character string. *)
Lemma includes_char c a s :
  includes (String c s) (String a "") = Ascii.eqb a c || includes s (String a "").
Proof.
  cbn [includes String.prefix]. destruct (ascii_dec a c) as [->|Hne].
  - rewrite Ascii.eqb_refl. by destruct s.
  - apply Ascii.eqb_neq in Hne. by rewrite Hne.
Qed.

Lemma includes_empty a : includes "" (String a "") = false.
Proof. done. Qed.

(** A string without the separator is not split. *)
Lemma split_go_whole sep s : ∀ cur,
  includes s (String sep "") = false → split_go sep cur s = [String.rev_app cur s].
Proof.
  induction s as [|c s IH]; intros cur Hs; [done|].
  rewrite includes_char in Hs. apply orb_false_iff in Hs as [Hc Hs].
  cbn [split_go]. rewrite Ascii.eqb_sym, Hc. by rewrite IH.
Qed.

(** The last piece of a split string is what follows the last separator. *)
Lemma split_go_last sep stem ext : ∀ cur,
  includes ext (String sep "") = false →
  last (split_go sep cur (stem +:+ String sep ext)) = Some ext.
Proof.
  induction stem as [|c stem IH]; intros cur Hext.
  - change ("" +:+ String sep ext) with (String sep ext).
    cbn [split_go]. rewrite Ascii.eqb_refl. by rewrite split_go_whole.
  - change (String c stem +:+ String sep ext) with (String c (stem +:+ String sep ext)).
    cbn [split_go]. destruct (Ascii.eqb c sep).
    + rewrite last_cons. by rewrite IH.
    + by apply IH.
Qed.

Lemma includes_lower a s :
  lower_ascii a = a → includes s (String a "") = true →
  includes (toLowerCase s) (String a "") = true.
Proof.
  intros Ha. induction s as [|c s IH]; [done|].
  cbn [toLowerCase]. rewrite !includes_char.
  intros [Hc|Hs]%orb_true_iff; apply orb_true_iff.
  - left. apply Ascii.eqb_eq in Hc as <-. rewrite Ha. apply Ascii.eqb_refl.
  - right. by apply IH.
Qed.

(** No extension that has a loader contains a question mark or a hash. *)
Lemma loader_extension_plain ext a :
  a = "?"%char ∨ a = "#"%char →
  includes ext (String a "") = true →
  bool_decide (ext ∈ ["gltf"; "glb"]) = false
  ∧ String.eqb ext "fbx" = false
  ∧ bool_decide (ext ∈ ["png"; "jpg"; "jpeg"; "gif"; "webp"]) = false
  ∧ bool_decide (ext ∈ ["mp3"; "wav"; "ogg"; "flac"; "aac"]) = false
  ∧ String.eqb ext "mtl" = false
  ∧ String.eqb ext "json" = false.
Proof.
  intros Ha Hinc.
  assert (Hno : ∀ known : string,
            includes known (String a "") = false → ext ≠ known).
  { intros known Hk ->. congruence. }
  assert (Hlist : ∀ l : list string,
            Forall (fun known => includes known (String a "") = false) l →
            bool_decide (ext ∈ l) = false).
  { intros l Hl. apply bool_decide_eq_false. intros Hin.
    rewrite Forall_forall in Hl. by apply (Hno ext (Hl ext Hin)). }
  assert (Heqb : ∀ known : string,
            includes known (String a "") = false → String.eqb ext known = false).
  { intros known Hk. apply String.eqb_neq. by apply Hno. }
  destruct Ha as [-> | ->];
    (repeat split; [apply Hlist|apply Heqb|apply Hlist|apply Hlist|apply Heqb|apply Heqb]);
    try done; by repeat constructor.
Qed.

(** X24 (utils.js).  [loadAsset] chooses its loader by what follows the last
    dot of the URL, compared without regard to case: for an extension
    without a dot, the loader of [stem.ext] is the loader of [ext] alone,
    whatever the stem.  What follows the last dot is taken whole, so a URL
    whose extension is followed by a query or a fragment (a question mark
    or a hash after the last dot) gets no loader: the default branch is
    taken, which warns and resolves to [null]. *)
Theorem loader_is_chosen_by_what_follows_the_last_dot :
  ∀ (stem ext : string),
    includes ext "." = false →
    extension (stem +:+ "." +:+ ext) = toLowerCase ext
    ∧ loader_for (stem +:+ "." +:+ ext) = loader_for ext
    ∧ (includes ext "?" = true ∨ includes ext "#" = true →
       loader_for (stem +:+ "." +:+ ext) = None).
Proof.
  intros stem ext Hdot.
  assert (Hext : extension (stem +:+ "." +:+ ext) = toLowerCase ext).
  { unfold extension, split.
    change ("." +:+ ext) with (String "." ext).
    by rewrite split_go_last. }
  assert (Hself : extension ext = toLowerCase ext).
  { unfold extension, split. by rewrite split_go_whole. }
  split; [done|]. split.
  - unfold loader_for. by rewrite Hext, Hself.
  - intros Hq. unfold loader_for. rewrite Hext.
    assert (Hplain : ∃ a, (a = "?"%char ∨ a = "#"%char)
                          ∧ includes (toLowerCase ext) (String a "") = true).
    { destruct Hq as [Hq|Hq]; eexists; (split; [|apply includes_lower; [|exact Hq]]);
        [by left|done|by right|done]. }
    destruct Hplain as (a & Ha & Hinc).
    destruct (loader_extension_plain _ a Ha Hinc) as (-> & -> & -> & -> & -> & ->).
    done.
Qed.

(** The theorem for a model whose URL carries a version. *)
Lemma loader_witness :
  extension ("models/ship" +:+ "." +:+ "GLB?v=2") = toLowerCase "GLB?v=2"
  ∧ loader_for ("models/ship" +:+ "." +:+ "GLB?v=2") = loader_for "GLB?v=2"
  ∧ (includes "GLB?v=2" "?" = true ∨ includes "GLB?v=2" "#" = true →
     loader_for ("models/ship" +:+ "." +:+ "GLB?v=2") = None).
Proof.
  apply (loader_is_chosen_by_what_follows_the_last_dot "models/ship" "GLB?v=2").
  reflexivity.
Defined.

(** ** The constructor of a tag *)

Lemma upper_ascii_idem c : upper_ascii (upper_ascii c) = upper_ascii c.
Proof. by destruct c as [[] [] [] [] [] [] [] []]. Qed.

Lemma toUpperCase_idem s : toUpperCase (toUpperCase s) = toUpperCase s.
Proof.
  induction s as [|c s IH]; simpl; [done|]. by rewrite upper_ascii_idem, IH.
Qed.

(** What the class map holds under a key: the last export whose upper-cased
    name is the key. *)
Lemma classMap_fold_lookup (exports : list string) : ∀ (m : gmap string string) k,
  foldl (fun m key => <[toUpperCase key := key]> m) m exports !! k
  = match last (filter (fun key => toUpperCase key = k) exports) with
    | Some key => Some key
    | None => m !! k
    end.
Proof.
  induction exports as [|x exports IH]; intros m k; [done|].
  cbn [foldl]. rewrite IH.
  destruct (decide (toUpperCase x = k)) as [Hx|Hx].
  - rewrite filter_cons_True by done. rewrite last_cons.
    destruct (last (filter _ exports)); [done|].
    rewrite <- Hx. apply lookup_insert_eq.
  - rewrite filter_cons_False by done.
    destruct (last (filter _ exports)); [done|].
    by apply lookup_insert_ne.
Qed.

(** X25 (utils.js, cell.js).  How a tag finds its constructor.  With the
    class map built from the exports of the graphics library,
    [ConvertDomToObject] returns a constructor only for a tag other than
    [CANVAS] that, with its dashes removed, is the upper-cased name of the
    constructor: the base class for [OBJECT3D], and otherwise an export.
    Every export is found under its upper-cased name, with dashes put
    anywhere in the tag; when two exports have the same upper-cased name,
    one of them is found.  A tag that is not in upper case finds
    nothing. *)
Theorem a_tag_finds_the_export_of_its_upper_cased_name :
  ∀ (env : scan_env) (exports : list string) (elm : DomElement),
    se_classMap env = getClassMap exports →
    (∀ ctor, ConvertDomToObject env elm = Some ctor →
       de_tagName elm ≠ "CANVAS"
       ∧ toUpperCase ctor = remove_dashes (de_tagName elm)
       ∧ (ctor = "Object3D" ∨ ctor ∈ exports))
    ∧ (∀ key, key ∈ exports → de_tagName elm ≠ "CANVAS" →
         remove_dashes (de_tagName elm) = toUpperCase key →
         ∃ ctor, ConvertDomToObject env elm = Some ctor
                 ∧ toUpperCase ctor = toUpperCase key)
    ∧ (toUpperCase (remove_dashes (de_tagName elm)) ≠ remove_dashes (de_tagName elm) →
       ConvertDomToObject env elm = None).
Proof.
  intros env exports elm Hmap.
  assert (Hlookup : ∀ k,
            se_classMap env !! k
            = if decide (k = "OBJECT3D") then Some "Object3D"
              else last (filter (fun key => toUpperCase key = k) exports)).
  { intros k. rewrite Hmap. unfold getClassMap. case_decide as Hk.
    - rewrite Hk. apply lookup_insert_eq.
    - rewrite lookup_insert_ne by done. rewrite classMap_fold_lookup.
      by destruct (last _). }
  assert (Hfound : ∀ ctor, ConvertDomToObject env elm = Some ctor →
            de_tagName elm ≠ "CANVAS"
            ∧ toUpperCase ctor = remove_dashes (de_tagName elm)
            ∧ (ctor = "Object3D" ∨ ctor ∈ exports)).
  { intros ctor. unfold ConvertDomToObject.
    destruct (String.eqb (de_tagName elm) "CANVAS") eqn:Htag; [done|].
    apply String.eqb_neq in Htag. rewrite Hlookup. case_decide as Hk.
    - intros Heq. injection Heq as <-. rewrite Hk. split; [done|]. split; [done|].
      by left.
    - intros Hlast. apply last_Some_elem_of in Hlast.
      apply list_elem_of_filter in Hlast as [Hup Hin]. split; [done|].
      split; [done|]. by right. }
  split; [done|]. split.
  - intros key Hkey Htag Hup. unfold ConvertDomToObject.
    apply String.eqb_neq in Htag. rewrite Htag, Hlookup. case_decide as Hk.
    + exists "Object3D". split; [done|]. by rewrite <- Hup, Hk.
    + destruct (last (filter (fun key0 => toUpperCase key0
                                         = remove_dashes (de_tagName elm)) exports))
        as [ctor|] eqn:Hlast.
      * exists ctor. split; [done|]. apply last_Some_elem_of in Hlast.
        apply list_elem_of_filter in Hlast as [Hc _]. by rewrite Hc.
      * apply last_None in Hlast.
        assert (Hin : key ∈ filter (fun key0 => toUpperCase key0
                                          = remove_dashes (de_tagName elm)) exports).
        { apply list_elem_of_filter. by split. }
        rewrite Hlast in Hin. by apply elem_of_nil in Hin.
  - intros Hcase. destruct (ConvertDomToObject env elm) as [ctor|] eqn:Hc; [|done].
    destruct (Hfound ctor eq_refl) as (_ & Hup & _). exfalso. apply Hcase.
    rewrite <- Hup. apply toUpperCase_idem.
Qed.

(** The theorem for the [ball] in the [studio]. *)
Lemma tag_constructor_witness :
  (∀ ctor, ConvertDomToObject studio ball = Some ctor →
     de_tagName ball ≠ "CANVAS"
     ∧ toUpperCase ctor = remove_dashes (de_tagName ball)
     ∧ (ctor = "Object3D" ∨ ctor ∈ ["Group"; "Mesh"; "PerspectiveCamera"]))
  ∧ (∀ key, key ∈ ["Group"; "Mesh"; "PerspectiveCamera"] → de_tagName ball ≠ "CANVAS" →
       remove_dashes (de_tagName ball) = toUpperCase key →
       ∃ ctor, ConvertDomToObject studio ball = Some ctor
               ∧ toUpperCase ctor = toUpperCase key)
  ∧ (toUpperCase (remove_dashes (de_tagName ball)) ≠ remove_dashes (de_tagName ball) →
     ConvertDomToObject studio ball = None).
Proof.
  apply (a_tag_finds_the_export_of_its_upper_cased_name
           studio ["Group"; "Mesh"; "PerspectiveCamera"] ball).
  reflexivity.
Defined.
